(** * AMUSE tutorial notebooks: a verification model

    The repository is a set of Jupyter notebooks that drive the AMUSE
    framework: they sample stellar masses, hand particle sets to community
    codes (ph4, SeBa, MESA, Fi), advance the codes in time, copy attributes
    back through channels and plot diagnostics.

    The notebooks' own code (plot_cdf, start_stellar_code,
    setup_stellar_evolution_model, inject_supernova_energy and the cell
    scripts) is embedded from the source.  Floating-point numbers are
    idealised as canonical rationals [Qc]; calls into the framework are
    either event-emitting primitives whose results come from an oracle, or,
    for the unit layer and the channels, definitions modelled from the
    specification (each marked as such). *)

From Stdlib Require Import QArith Qcanon.
From stdpp Require Import sorting numbers gmap strings list fin_maps.

Local Open Scope Qc_scope.

(** ** Numbers *)

(** A rational literal [n/d]. *)
Definition qc (n d : Z) : Qc := Q2Qc (Qmake n (Z.to_pos d)).

(** The sum of a list of numbers, left to right as [sum()] does. *)
Definition qsum (l : list Qc) : Qc := fold_left Qcplus l 0.

(** ** The cumulative mass distribution of [plot_cdf] *)

Module CDF.

(** [sorted(m.value_in(units.MSun))]: the masses in ascending order. *)
Definition sorted (m : list Qc) : list Qc := merge_sort Qcle m.

(** [fm[-1]]; [fm] is never empty in [plot_cdf], it starts as [[0]]. *)
Definition last_elt (fm : list Qc) : Qc := default 0 (last fm).

(** The loop [for mi in m: fm = numpy.append(fm, fm[-1] + mi)] started from
    [fm = numpy.array([0])]. *)
Definition append_step (fm : list Qc) (mi : Qc) : list Qc :=
  fm ++ [last_elt fm + mi].

Definition cumulate (m : list Qc) : list Qc := fold_left append_step m [0].

(** Python's [max] over a sequence: the first element, replaced whenever a
    strictly larger one is met. *)
Definition py_max (l : list Qc) : Qc :=
  match l with
  | [] => 0
  | x :: l' => fold_left (λ a y, if decide (a < y) then y else a) l' x
  end.

(** [fm /= max(fm)].  No numeric array results when the maximum is zero:
    for an empty [m] the array [[0]] is an integer array, on which the
    in-place true division raises; for masses that sum to zero the entries
    become NaN. *)
Definition normalise (fm : list Qc) : option (list Qc) :=
  let mx := py_max fm in
  if decide (mx = 0) then None else Some ((λ x, x / mx) <$> fm).

(** The array [fm] that [plot_cdf] has computed when it reaches the first
    [pyplot.plot] call. *)
Definition plot_cdf_fm (m : list Qc) : option (list Qc) :=
  normalise (cumulate (sorted m)).

(** What is drawn: [pyplot.plot(m, fm[:len(m)])]. *)
Definition plot_cdf_curve (m : list Qc) : option (list (Qc * Qc)) :=
  fm ← plot_cdf_fm m; Some (zip (sorted m) (take (length m) fm)).

(** Running sums from an accumulator, the closed form of the loop. *)
Fixpoint running (a : Qc) (l : list Qc) : list Qc :=
  match l with
  | [] => []
  | x :: l' => (a + x) :: running (a + x) l'
  end.

(** A sequence that never decreases from one entry to the next. *)
Definition nondecreasing (l : list Qc) : Prop :=
  ∀ i x y, l !! i = Some x → l !! S i = Some y → x ≤ y.

End CDF.

(** ** Quantities with units *)

Module Units.

(** Modelled from the spec: the unit-and-quantity wrapper of the AMUSE
    framework ([amuse.units]), which the notebooks only import.  The spec
    says of it: every numeric value is paired with a physical unit tag, and
    arithmetic across incompatible units must fail.  A unit tag is kept as
    the expression the notebook wrote; its dimension is the vector of
    exponents over the seven SI base quantities. *)
Inductive base : Type :=
  | Length | Mass | Time | Current | Temperature | Amount | Luminous.

Definition bases : list base :=
  [Length; Mass; Time; Current; Temperature; Amount; Luminous].

Inductive unit : Type :=
  | UBase (b : base)
  | UNone
  | UNamed (name : string) (factor : Qc) (u : unit)
  | UMul (u v : unit)
  | UDiv (u v : unit)
  | UPow (u : unit) (e : Qc).

Definition base_eqb (a b : base) : bool :=
  match a, b with
  | Length, Length | Mass, Mass | Time, Time | Current, Current
  | Temperature, Temperature | Amount, Amount | Luminous, Luminous => true
  | _, _ => false
  end.

(** The exponent of base quantity [b] in unit [u]. *)
Fixpoint dimension (u : unit) (b : base) : Qc :=
  match u with
  | UBase b' => if base_eqb b' b then 1 else 0
  | UNone => 0
  | UNamed _ _ u' => dimension u' b
  | UMul u1 u2 => dimension u1 b + dimension u2 b
  | UDiv u1 u2 => dimension u1 b - dimension u2 b
  | UPow u' e => dimension u' b * e
  end.

(** Two unit tags are compatible when they have the same dimension. *)
Definition compatible (u v : unit) : bool :=
  forallb (λ b, bool_decide (dimension u b = dimension v b)) bases.

(** The units the notebooks name. *)
Definition m : unit := UBase Length.
Definition kg : unit := UBase Mass.
Definition s : unit := UBase Time.
Definition km : unit := UNamed "km" (qc 1000 1) m.
Definition kms : unit := UNamed "kms" 1 (UDiv km s).
Definition MSun : unit := UNamed "MSun" (qc 198892 1 * qc 10 1 ^ 25) kg.
Definition RSun : unit := UNamed "RSun" (qc 6955 1 * qc 10 1 ^ 5) m.
Definition hour : unit := UNamed "hour" (qc 3600 1) s.
Definition day : unit := UNamed "day" (qc 86400 1) s.
Definition J : unit :=
  UNamed "J" 1 (UMul kg (UMul (UPow m (qc 2 1)) (UPow s (qc (-2) 1)))).
Definition erg : unit := UNamed "erg" (qc 1 10000000) J.

(** [units.m**3 * units.kg**-1 * units.s**-2] *)
Definition units_G : unit :=
  UMul (UMul (UPow m (qc 3 1)) (UPow kg (qc (-1) 1))) (UPow s (qc (-2) 1)).

(** The dimension of a speed. *)
Definition speed (b : base) : Qc :=
  match b with Length => 1 | Time => qc (-1) 1 | _ => 0 end.

Inductive result (A : Type) : Type :=
  | Ok (a : A)
  | IncompatibleUnits.
Global Arguments Ok {_} _.
Global Arguments IncompatibleUnits {_}.

Section Quantities.
(** The numbers are floating-point in the framework; the unit layer is
    independent of them, so they stay a parameter. *)
Context {num : Type}.
Variable of_Qc : Qc → num.
Variables nadd nsub nmul ndiv : num → num → num.
Variable nsqrt : num → num.
Variable npow : num → Qc → num.

(** [x | u] *)
Record quantity : Type := Quantity { number : num; unit_of : unit }.

(** The value of one [u] in SI base units. *)
Fixpoint factor (u : unit) : num :=
  match u with
  | UBase _ | UNone => of_Qc 1
  | UNamed _ f u' => nmul (of_Qc f) (factor u')
  | UMul u1 u2 => nmul (factor u1) (factor u2)
  | UDiv u1 u2 => ndiv (factor u1) (factor u2)
  | UPow u' e => npow (factor u') e
  end.

(** The number of [q] when expressed in unit [u]. *)
Definition value_in (q : quantity) (u : unit) : num :=
  nmul (number q) (ndiv (factor (unit_of q)) (factor u)).

(** [q.in_(u)] *)
Definition in_ (q : quantity) (u : unit) : result quantity :=
  if compatible (unit_of q) u then Ok (Quantity (value_in q u) u)
  else IncompatibleUnits.

(** [q1 + q2] and [q1 - q2]: the result is in the unit of the left
    operand; incompatible units are an error. *)
Definition add (q1 q2 : quantity) : result quantity :=
  if compatible (unit_of q1) (unit_of q2)
  then Ok (Quantity (nadd (number q1) (value_in q2 (unit_of q1))) (unit_of q1))
  else IncompatibleUnits.

Definition sub (q1 q2 : quantity) : result quantity :=
  if compatible (unit_of q1) (unit_of q2)
  then Ok (Quantity (nsub (number q1) (value_in q2 (unit_of q1))) (unit_of q1))
  else IncompatibleUnits.

(** [q1 * q2], [q1 / q2], [k * q], [q.sqrt()]: the unit tags combine. *)
Definition mul (q1 q2 : quantity) : quantity :=
  Quantity (nmul (number q1) (number q2)) (UMul (unit_of q1) (unit_of q2)).

Definition div (q1 q2 : quantity) : quantity :=
  Quantity (ndiv (number q1) (number q2)) (UDiv (unit_of q1) (unit_of q2)).

Definition scale (k : Qc) (q : quantity) : quantity :=
  Quantity (nmul (of_Qc k) (number q)) (unit_of q).

Definition sqrt (q : quantity) : quantity :=
  Quantity (nsqrt (number q)) (UPow (unit_of q) (qc 1 2)).

(** The cells of the units notebook. *)
Definition mstar : quantity := Quantity (of_Qc 1) MSun.
Definition rstar : quantity := Quantity (of_Qc 1) RSun.

(** [G = 6.67e-11 | units.m**3 * units.kg**-1 * units.s**-2] *)
Definition G_declared : quantity :=
  Quantity (of_Qc (qc 667 1 / qc 10 1 ^ 13)) units_G.

(** [vesc = (2*G*mstar/rstar).sqrt()], for the [G] in scope. *)
Definition vesc (G : quantity) : quantity :=
  sqrt (div (mul (scale (qc 2 1) G) mstar) rstar).

(** [print("The escape speed is:", vesc.in_(units.kms))] *)
Definition vesc_in_kms (G : quantity) : result quantity :=
  in_ (vesc G) kms.
End Quantities.

Global Arguments quantity : clear implicits.
Global Arguments Quantity {_} _ _.

End Units.

(** ** Particle collections and channels *)

Module Particles.

(** A particle: its identity (the framework's key) and its attributes, a
    dictionary from attribute names to values.  The attribute set is
    dynamic: [k_stars = Particles(mass=mkroupa)] starts with a mass only
    and receives temperature and luminosity from SeBa. *)
Record particle : Type := Particle { key : N; attrs : gmap string Qc }.

(** A particle collection is ordered. *)
Abbreviation particles := (list particle).

Definition keys (ps : particles) : list N := key <$> ps.

(** The particle of [ps] with identity [k]. *)
Definition find_key (k : N) (ps : particles) : option particle :=
  snd <$> list_find (λ p, key p = k) ps.

(** Modelled from the spec: the framework's channel, absent from the
    sources, which copies attribute values from a solver's internal
    particle representation into an independent in-memory collection;
    attributes are overwritten wholesale, and the attribute arrays stay
    aligned by particle identity.  A particle of the target takes every
    attribute value of the source particle with its identity; its other
    attributes, and particles the source does not hold, are left alone. *)
Definition copy_particle (src : particles) (p : particle) : particle :=
  match find_key (key p) src with
  | Some q => Particle (key p) (attrs q ∪ attrs p)
  | None => p
  end.

Definition channel_copy (src dst : particles) : particles :=
  copy_particle src <$> dst.

(** Modelled from the spec: [code.particles.add_particles(set)] hands the
    particles of an in-memory collection to a solver, which keeps its own
    copy of them after the ones it already holds. *)
Definition add_particles (code_particles set : particles) : particles :=
  code_particles ++ set.

(** The two collections hold the same identities in the same order. *)
Definition aligned (code_particles set : particles) : Prop :=
  keys code_particles = keys set.

End Particles.

(** ** Injecting the supernova energy *)

Module Supernova.

(** An SPH gas particle as [convert_stellar_model_to_SPH] builds it. *)
Record sph : Type := Sph {
  key : N;
  mass : Qc;
  position : Qc * Qc * Qc;
  velocity : Qc * Qc * Qc;
  u : Qc;
  other : gmap string Qc
}.

(** A double that is not a number of [Qc]: what numpy's division leaves
    when the divisor is zero.  It warns and raises no exception. *)
Inductive nonfinite : Type := PosInf | NegInf | NaN.

Inductive out : Type :=
  | OStr (text : string)
  | ONum (x : Qc)
  | OInt (n : nat)
  | ONonFinite (x : nonfinite).

(** [pos.length_squared()] *)
Definition length_squared (pos : Qc * Qc * Qc) : Qc :=
  let '(x, y, z) := pos in x * x + y * y + z * z.

(** The lambda of the selection:
    [pos.length_squared() < exploding_region**2]. *)
Definition inside (exploding_region : Qc) (p : sph) : bool :=
  bool_decide (length_squared (position p) < exploding_region * exploding_region).

(** [gas_particles.select(..., ["position"])]: a subset is a view on the
    rows of its parent; it is kept as the rows' indices. *)
Definition select (pred : sph → bool) (gas : list sph) : list nat :=
  fst <$> filter (λ ip, pred ip.2 = true) (imap pair gas).

(** The particles a subset stands for. *)
Definition rows (inner : list nat) (gas : list sph) : list sph :=
  omap (λ i, gas !! i) inner.

(** [inner.total_mass()] *)
Definition total_mass (inner : list nat) (gas : list sph) : Qc :=
  qsum (mass <$> rows inner gas).

(** [a / b] where [b] is a numpy double, as [inner.total_mass()] is: over
    zero the quotient is [inf] with the sign of [a], or [nan] for [0 / 0]. *)
Definition py_div (a b : Qc) : nonfinite + Qc :=
  if decide (b = 0)
  then inl (if decide (0 < a) then PosInf
            else if decide (a < 0) then NegInf else NaN)
  else inr (a / b).

Definition add_u (delta : Qc) (p : sph) : sph :=
  Sph (key p) (mass p) (position p) (velocity p) (u p + delta) (other p).

(** [inner.u += delta]: the new values are written through to the rows of
    the parent set. *)
Definition iadd_u (delta : Qc) (inner : list nat) (gas : list sph) : list sph :=
  imap (λ i p, if bool_decide (i ∈ inner) then add_u delta p else p) gas.

(** How [print] shows a quotient. *)
Definition show_quotient (q : nonfinite + Qc) : out :=
  match q with
  | inl x => ONonFinite x
  | inr d => ONum d
  end.

(** [inject_supernova_energy]: the two lines printed and the gas particles
    afterwards; the call always returns.  The quotient is evaluated twice,
    for the second [print] and for the update.  When it is not a number
    and some particle is selected, the [u] of every selected particle ends
    as that value, which no [sph] holds: the outcome is then [inl] of it,
    and the other attributes and particles are as before.  With nothing
    selected the update touches no row. *)
Definition inject_supernova_energy (gas_particles : list sph)
    (explosion_energy exploding_region : Qc)
    : list (list out) * (nonfinite + list sph) :=
  let inner := select (inside exploding_region) gas_particles in
  let line1 := [OInt (length inner); OStr "innermost particles selected."] in
  let line2 :=
    [OStr "Adding";
     show_quotient (py_div explosion_energy (total_mass inner gas_particles));
     OStr "of supernova (specific internal) energy to each of the n=";
     OInt (length inner); OStr "SPH particles."] in
  ([line1; line2],
   match py_div explosion_energy (total_mass inner gas_particles) with
   | inr delta => inr (iadd_u delta inner gas_particles)
   | inl x =>
       match inner with
       | [] => inr gas_particles
       | _ :: _ => inl x
       end
   end).

(** A particle as a set in memory holds it.  Its [u] is a double: once
    [u += inf] or [u += nan] has run on it, [u_nonfinite] says what it
    holds, and the [u] of [row] is without meaning. *)
Record stored : Type := Stored { row : sph; u_nonfinite : option nonfinite }.

(** The sum of two doubles that are not numbers. *)
Definition nonfinite_add (a b : nonfinite) : nonfinite :=
  match a, b with
  | PosInf, PosInf => PosInf
  | NegInf, NegInf => NegInf
  | _, _ => NaN
  end.

(** [u += x] on one particle, for an [x] that is not a number. *)
Definition spoil (x : nonfinite) (p : stored) : stored :=
  Stored (row p)
         (Some match u_nonfinite p with
               | None => x
               | Some y => nonfinite_add y x
               end).

(** [inner.u += x], written through to the rows of the parent set. *)
Definition iadd_nonfinite (x : nonfinite) (inner : list nat)
    (gas : list stored) : list stored :=
  imap (λ i p, if bool_decide (i ∈ inner) then spoil x p else p) gas.

(** [inject_supernova_energy] on a set in memory: a particle whose [u] is
    no number keeps it when a number is added. *)
Definition inject_stored (gas : list stored)
    (explosion_energy exploding_region : Qc)
    : list (list out) * list stored :=
  let rows := row <$> gas in
  let '(lines, r) :=
    inject_supernova_energy rows explosion_energy exploding_region in
  (lines,
   match r with
   | inr rows' => zip_with Stored rows' (u_nonfinite <$> gas)
   | inl x => iadd_nonfinite x (select (inside exploding_region) rows) gas
   end).

End Supernova.

(** ** The notebooks as programs *)

Module Py.

(** An exception is identified by its class and the bases of that class,
    most specific first; [isinstance] looks the class name up there. *)
Record exn : Type := Exn { mro : list string }.

Definition isinstance (e : exn) (cls : string) : bool :=
  bool_decide (cls ∈ mro e).

Definition NameError : exn :=
  Exn ["NameError"; "Exception"; "BaseException"].

(** The community codes and the solver objects the notebooks create. *)
Inductive code : Type := ph4 | SeBa | MESA | Fi.
Inductive solver : Type :=
  gravity | kstellar | sstellar | stellar_evolution | hydro_code.

Global Instance code_eq_dec : EqDecision code.
Proof. solve_decision. Defined.
Global Instance solver_eq_dec : EqDecision solver.
Proof. solve_decision. Defined.

(** The star a stellar-evolution code holds. *)
Record star : Type := Star {
  star_mass : Qc;
  star_age : Qc;
  star_radius : Qc;
  star_type : N;
  star_model_time : Qc
}.

(** The calls a notebook makes into the framework, in the order made. *)
Inductive event : Type :=
  | Build (generator : string) (targets : list string)
  | Construct (sv : solver) (c : code) (converter : option string)
  | SetParameter (sv : solver) (name : string)
  | AddParticles (sv : solver) (set : string)
  | CommitParticles (sv : solver)
  | NewChannel (sv : solver) (set : string) (to_code : bool)
  | Evolve (sv : solver) (target : option Qc)
  | Copy (sv : solver) (set : string)
  | Diagnostic (what : string)
  | Print (what : string)
  | Plot (what : string)
  | Pickle (path : string) (model : star)
  | WriteSet (set path : string)
  | Stop (sv : solver).

(** How a run ends: it returns, an exception escapes, or the fuel given to
    a [while] loop runs out. *)
Inductive outcome (S A : Type) : Type :=
  | Done (a : A) (s : S) (tr : list event)
  | Raised (e : exn) (s : S) (tr : list event)
  | Diverged.
Global Arguments Done {_ _} _ _ _.
Global Arguments Raised {_ _} _ _ _.
Global Arguments Diverged {_ _}.

(** A program over the notebook's variables [S]; it extends the trace. *)
Definition Py (S A : Type) : Type := S → list event → outcome S A.

Global Instance Py_ret {S} : MRet (Py S) := λ A a s tr, Done a s tr.

Global Instance Py_bind {S} : MBind (Py S) := λ A B f m s tr,
  match m s tr with
  | Done a s' tr' => f a s' tr'
  | Raised e s' tr' => Raised e s' tr'
  | Diverged => Diverged
  end.

Definition emit {S} (e : event) : Py S unit := λ s tr, Done tt s (tr ++ [e]).
Definition gets {S A} (f : S → A) : Py S A := λ s tr, Done (f s) s tr.
Definition modify {S} (f : S → S) : Py S unit := λ s tr, Done tt (f s) tr.
Definition raise {S A} (e : exn) : Py S A := λ s tr, Raised e s tr.
Definition skip {S} : Py S unit := mret tt.

(** [code.evolve_model(target)]: the call is made, then the code either
    raises or leaves the notebook's variables in a new state. *)
Definition evolve_model {S} (sv : solver) (target : option Qc)
    (step : S → exn + S) : Py S unit :=
  emit (Evolve sv target) ;;
  r ← gets step;
  match r with
  | inl e => raise e
  | inr s' => modify (λ _, s')
  end.

(** [for x in l: body(x)] *)
Fixpoint for_ {S A} (l : list A) (body : A → Py S unit) : Py S unit :=
  match l with
  | [] => skip
  | x :: l' => body x ;; for_ l' body
  end.

(** [while cond: body], with at most [fuel] iterations. *)
Fixpoint while_ {S} (fuel : nat) (cond : S → bool) (body : Py S unit)
    : Py S unit := λ s tr,
  if cond s then
    match fuel with
    | O => Diverged
    | Datatypes.S n =>
        match body s tr with
        | Done _ s' tr' => while_ n cond body s' tr'
        | Raised e s' tr' => Raised e s' tr'
        | Diverged => Diverged
        end
    end
  else Done tt s tr.

(** [try: body / except cls as ex: handler].  The class expression of
    the [except] clause is evaluated when an exception reaches it: a name
    that is not bound in [globals] raises [NameError] there. *)
Definition try_except {S A} (globals : gset string) (body : Py S A)
    (cls : string) (handler : exn → Py S A) : Py S A := λ s tr,
  match body s tr with
  | Raised e s' tr' =>
      if bool_decide (cls ∈ globals) then
        if isinstance e cls then handler e s' tr' else Raised e s' tr'
      else Raised NameError s' tr'
  | o => o
  end.

(** The outcome of running [m] from variables [s] and trace [tr] meets [Q]
    when it returns and [E] when an exception escapes. *)
Definition wp {S A} (m : Py S A) (Q : A → S → list event → Prop)
    (E : exn → S → list event → Prop) (s : S) (tr : list event) : Prop :=
  match m s tr with
  | Done a s' tr' => Q a s' tr'
  | Raised e s' tr' => E e s' tr'
  | Diverged => True
  end.

(** A monitor reads the trace event by event and may reject it. *)
Definition run {Q} (step : Q → event → option Q) (q : Q) (tr : list event)
    : option Q :=
  foldl (λ oq e, q' ← oq; step q' e) (Some q) tr.

End Py.

(** ** The N-body notebook *)

Module NBody.
Import Py Particles.

(** The notebook's variables that change while it runs: the particles
    ph4 holds, empty in a fresh code, and [bodies], at the start the King
    model that [new_king_model] returns. *)
Record vars : Type := Vars {
  gravity_particles : particles;
  bodies : particles
}.

Section Notebook.
(** What the framework returns: the King model, the particles ph4 holds
    after [evolve_model(time)] or the exception it raises, the
    floating-point test [not time.value_in(units.Myr) % 10.0], and the
    number of binaries [get_binaries] finds. *)
Variable ph4_evolve : Qc → particles → exn + particles.
Variable multiple_of_10 : Qc → bool.
Variable get_binaries : particles → nat.
(** The later copy of the notebook calls [pyplot.legend()] before
    [plot_cdf]. *)
Variable with_legend : bool.

(** [numpy.arange(0, 100, 0.1) | units.Myr] *)
Definition times : list Qc := (λ k : nat, qc (Z.of_nat k) 10) <$> seq 0 1000.

Definition generate_masses : Py vars unit :=
  emit (Build "new_powerlaw_mass_distribution" ["m_stars"]).

Definition check_mass_function : Py vars unit :=
  (if with_legend then emit (Plot "legend") else skip) ;;
  emit (Plot "plot_cdf").

Definition make_cluster : Py vars unit :=
  emit (Build "nbody_to_si" ["converter"]) ;;
  emit (Build "new_king_model" ["bodies"]) ;;
  emit (Diagnostic "scale_to_standard").

Definition plot_snapshot : Py vars unit := emit (Plot "plot_snapshot").

(** [gravity = ph4(converter)] up to the creation of the channel. *)
Definition start_gravity : Py vars unit :=
  emit (Construct gravity ph4 (Some "converter")) ;;
  emit (AddParticles gravity "bodies") ;;
  modify (λ v, Vars (add_particles (gravity_particles v) (bodies v)) (bodies v)) ;;
  emit (NewChannel gravity "bodies" false).

(** [channel.copy()] *)
Definition channel_copy_to_bodies : Py vars unit :=
  emit (Copy gravity "bodies") ;;
  modify (λ v, Vars (gravity_particles v)
                    (channel_copy (gravity_particles v) (bodies v))).

(** One pass of [for time in times]. *)
Definition iteration (time : Qc) : Py vars unit :=
  evolve_model gravity (Some time)
    (λ v, match ph4_evolve time (gravity_particles v) with
          | inl e => inl e
          | inr ps => inr (Vars ps (bodies v))
          end) ;;
  channel_copy_to_bodies ;;
  emit (Diagnostic "virial_radius") ;;
  emit (Diagnostic "LagrangianRadii") ;;
  emit (Diagnostic "LagrangianRadii") ;;
  (if multiple_of_10 time then emit (Print "cluster at Time=") else skip) ;;
  emit (Diagnostic "get_binaries") ;;
  b ← gets (λ v, get_binaries (bodies v));
  if bool_decide (0 < b)%nat
  then emit (Print "Number of binaries found:") ;; emit (Print "first binary:")
  else skip.

Definition evolution_loop : Py vars unit := for_ times iteration.

Definition final_plots : Py vars unit :=
  emit (Plot "RL25") ;; emit (Plot "Rvir") ;; emit (Plot "show").

Definition notebook : Py vars unit :=
  generate_masses ;;
  check_mass_function ;;
  make_cluster ;;
  plot_snapshot ;;
  start_gravity ;;
  evolution_loop ;;
  final_plots.
End Notebook.

End NBody.

(** ** The stellar-evolution notebook *)

Module Stellar.
Import Py Particles.

(** The particles of the two SeBa instances, empty in a fresh code, and
    the collections [k_stars] and [s_stars], at the start the particles
    that [Particles(mass=...)] builds from the sampled masses. *)
Record vars : Type := Vars {
  kstellar_particles : particles;
  k_stars : particles;
  sstellar_particles : particles;
  s_stars : particles
}.

Section Notebook.
(** What SeBa does on [evolve_model(time)], for each of its two
    instances, and the floating-point values of
    [10**numpy.arange(0.0, 4.0, 0.1) | units.Myr]. *)
Variable seba_evolve : solver → Qc → particles → exn + particles.
Variable times : list Qc.

Definition make_stars : Py vars unit :=
  emit (Build "new_kroupa_mass_distribution" ["mkroupa"]) ;;
  emit (Build "Particles" ["k_stars"]) ;;
  emit (Build "new_salpeter_mass_distribution" ["msalpeter"]) ;;
  emit (Build "Particles" ["s_stars"]) ;;
  emit (Print "mean-mass for Kroupa=") ;;
  emit (Print "mean-mass for Salpeter=") ;;
  emit (Plot "Kroupa IMF") ;;
  emit (Plot "Salpeter IMF") ;;
  emit (Plot "show").

(** [start_stellar_code(stars)], for the solver variable and the
    collection it is called on. *)
Definition start_stellar_code (sv : solver) (set : string)
    (load : vars → vars) : Py vars unit :=
  emit (Construct sv SeBa None) ;;
  emit (AddParticles sv set) ;;
  modify load ;;
  emit (NewChannel sv set false) ;;
  emit (NewChannel sv set true).

Definition start_kstellar : Py vars unit :=
  start_stellar_code kstellar "k_stars"
    (λ v, Vars (add_particles (kstellar_particles v) (k_stars v)) (k_stars v)
               (sstellar_particles v) (s_stars v)).

Definition start_sstellar : Py vars unit :=
  start_stellar_code sstellar "s_stars"
    (λ v, Vars (kstellar_particles v) (k_stars v)
               (add_particles (sstellar_particles v) (s_stars v)) (s_stars v)).

(** One pass of [for time in times]. *)
Definition iteration (time : Qc) : Py vars unit :=
  evolve_model kstellar (Some time)
    (λ v, match seba_evolve kstellar time (kstellar_particles v) with
          | inl e => inl e
          | inr ps => inr (Vars ps (k_stars v) (sstellar_particles v) (s_stars v))
          end) ;;
  emit (Copy kstellar "k_stars") ;;
  modify (λ v, Vars (kstellar_particles v)
                    (channel_copy (kstellar_particles v) (k_stars v))
                    (sstellar_particles v) (s_stars v)) ;;
  evolve_model sstellar (Some time)
    (λ v, match seba_evolve sstellar time (sstellar_particles v) with
          | inl e => inl e
          | inr ps => inr (Vars (kstellar_particles v) (k_stars v) ps (s_stars v))
          end) ;;
  emit (Copy sstellar "s_stars") ;;
  modify (λ v, Vars (kstellar_particles v) (k_stars v) (sstellar_particles v)
                    (channel_copy (sstellar_particles v) (s_stars v))) ;;
  emit (Diagnostic "mean mass ratio").

Definition evolution_loop : Py vars unit :=
  for_ times iteration ;;
  emit (Stop kstellar) ;;
  emit (Stop sstellar) ;;
  emit (Print "mean-mass for Kroupa=") ;;
  emit (Print "mean-mass for Salpeter=").

Definition final_plots : Py vars unit :=
  emit (Plot "relative mean mass") ;;
  emit (Plot "show") ;;
  emit (Plot "temperature-luminosity") ;;
  emit (Plot "show").

Definition notebook : Py vars unit :=
  make_stars ;;
  start_kstellar ;;
  start_sstellar ;;
  evolution_loop ;;
  final_plots.
End Notebook.

End Stellar.

(** ** The supernova notebook *)

Module SPH.
Import Py.

(** What Fi holds: its model time in seconds and its particles. *)
Record hydro : Type := Hydro {
  model_time : Qc;
  gas_particles : list Supernova.stored;
  dm_particles : list Supernova.stored
}.

(** The star MESA holds, at the start the 15 MSun star it builds on
    [commit_particles]; the gas particles of the SPH model, at the start
    those that [convert_stellar_model_to_SPH] returns; the state of Fi. *)
Record vars : Type := Vars {
  mesa_star : star;
  gas_without_core : list Supernova.stored;
  fi : hydro
}.

Definition set_star (st : star) (v : vars) : vars :=
  Vars st (gas_without_core v) (fi v).
Definition set_gas (g : list Supernova.stored) (v : vars) : vars :=
  Vars (mesa_star v) g (fi v).
Definition set_fi (h : hydro) (v : vars) : vars :=
  Vars (mesa_star v) (gas_without_core v) h.

(** The names bound in the notebook when [setup_stellar_evolution_model]
    runs: its imports and the function itself. *)
Definition notebook_globals : gset string :=
  list_to_set ["os"; "numpy"; "pyplot"; "units"; "pickle_stellar_model";
               "convert_stellar_model_to_SPH"; "get_path_to_results"; "MESA";
               "Particles"; "setup_stellar_evolution_model"].

Inductive mesa_end : Type :=
  | Completed (st : star) (calls : nat)
  | Failed (e : exn) (st : star) (calls : nat)
  | NoFuel.

(** [n] hours in seconds. *)
Fixpoint hours (n : nat) : Qc :=
  match n with
  | O => 0
  | Datatypes.S n' => qc 3600 1 + hours n'
  end.

Section Notebook.
(** The names in scope; the directory [get_path_to_results()] returns;
    what MESA does on [evolve_model()]; the core particle that
    [convert_stellar_model_to_SPH] returns; what Fi does on
    [evolve_model(t)]. *)
Variable globals : gset string.
Variable results_dir : string.
Variable mesa_evolve : star → exn + star.
Variable core : Supernova.sph.
Variable fi_evolve : Qc → hydro → exn + hydro.

Definition out_pickle_file : string :=
  results_dir +:+ "/super_giant_stellar_structure.pkl".

(** The body of the [while] loop inside the [try]. *)
Definition mesa_iteration : Py vars unit :=
  evolve_model stellar_evolution None
    (λ v, match mesa_evolve (mesa_star v) with
          | inl e => inl e
          | inr st => inr (set_star st v)
          end) ;;
  emit (Print "star:").

(** [while stellar_evolution.model_time < 0.12 | units.Myr] *)
Definition mesa_loop (fuel : nat) : Py vars unit :=
  while_ fuel (λ v, bool_decide (star_model_time (mesa_star v) < qc 12 100))
    mesa_iteration.

(** What MESA does over the [while] loop, call by call: the star when
    the guard fails, or the exception raised and the last star before
    it; with the number of [evolve_model] calls made. *)
Fixpoint mesa_run (fuel : nat) (st : star) : mesa_end :=
  if bool_decide (star_model_time st < qc 12 100) then
    match fuel with
    | O => NoFuel
    | Datatypes.S n =>
        match mesa_evolve st with
        | inl e => Failed e st 1
        | inr st' =>
            match mesa_run n st' with
            | Completed st'' k => Completed st'' (Datatypes.S k)
            | Failed e st'' k => Failed e st'' (Datatypes.S k)
            | NoFuel => NoFuel
            end
        end
    end
  else Completed st 0.

Definition setup_stellar_evolution_model (fuel : nat) : Py vars string :=
  emit (Construct stellar_evolution MESA None) ;;
  emit (Build "Particles" ["stars"]) ;;
  emit (AddParticles stellar_evolution "stars") ;;
  emit (CommitParticles stellar_evolution) ;;
  emit (Print "Evolving a MESA star with mass:") ;;
  try_except globals (mesa_loop fuel) "AmuseException"
    (λ ex, emit (Print "Evolved star to") ;; emit (Print "Radius:")) ;;
  st ← gets mesa_star;
  emit (Pickle out_pickle_file st) ;;
  emit (Stop stellar_evolution) ;;
  mret out_pickle_file.

Definition make_sph_model (pickle_file : string) : Py vars unit :=
  emit (Print pickle_file) ;;
  emit (Print "Creating initial conditions from a MESA stellar evolution model...") ;;
  emit (Build "convert_stellar_model_to_SPH" ["model"; "core"; "gas_without_core"; "core_radius"]) ;;
  emit (Print "model=") ;;
  emit (Print "Created") ;;
  emit (Print "Setting gravitational smoothing to:").

Definition plot_star : Py vars unit := emit (Plot "plot_star").

(** [inject_supernova_energy(gas_without_core, exploding_region=1|units.RSun)]:
    the energy is the default [1.0e+51 | units.erg].  The call prints and
    returns, whatever the gas. *)
Definition inject : Py vars unit :=
  gas ← gets gas_without_core;
  let '(lines, gas') := Supernova.inject_stored gas (qc 10 1 ^ 51) 1 in
  for_ lines (λ _, emit (Print "inject_supernova_energy")) ;;
  modify (set_gas gas').

(** [hydro_code = Fi(converter)] and the cell around it. *)
Definition start_hydro : Py vars unit :=
  emit (Build "nbody_to_si" ["converter"]) ;;
  emit (Construct hydro_code Fi (Some "converter")) ;;
  emit (SetParameter hydro_code "epsilon_squared") ;;
  emit (SetParameter hydro_code "n_smooth_tol") ;;
  emit (AddParticles hydro_code "gas_without_core") ;;
  modify (λ v, set_fi (Hydro (model_time (fi v))
                             (gas_particles (fi v) ++ gas_without_core v)
                             (dm_particles (fi v))) v) ;;
  emit (AddParticles hydro_code "core") ;;
  modify (λ v, set_fi (Hydro (model_time (fi v)) (gas_particles (fi v))
                             (dm_particles (fi v)
                                ++ [Supernova.Stored core None])) v).

Definition hydro_plot : Py vars unit :=
  emit (Diagnostic "get_hydro_state_at_point") ;;
  emit (Plot "hydro_plot").

(** [hydro_code.evolve_model(t)] *)
Definition hydro_evolve (t : Qc) : Py vars unit :=
  evolve_model hydro_code (Some t)
    (λ v, match fi_evolve t (fi v) with
          | inl e => inl e
          | inr h => inr (set_fi h v)
          end).

Definition first_runs : Py vars unit :=
  hydro_evolve (qc 10 1) ;;
  emit (Print "Done running to time=") ;;
  hydro_plot ;;
  emit (Print "done plotting") ;;
  hydro_evolve (qc 60 1) ;;
  emit (Print "Done running to time=") ;;
  hydro_plot ;;
  emit (Print "v-core=") ;;
  emit (Print "d-core=") ;;
  hydro_evolve (qc 3600 1) ;;
  emit (Print "Done running:") ;;
  hydro_plot.

(** One pass of the last [while] loop. *)
Definition hydro_iteration : Py vars unit :=
  t ← gets (λ v, model_time (fi v));
  hydro_evolve (t + qc 3600 1) ;;
  emit (Print "Done running, until:") ;;
  hydro_plot.

(** [while hydro_code.model_time < 0.3 | units.day], in seconds. *)
Definition hydro_loop (fuel : nat) : Py vars unit :=
  while_ fuel (λ v, bool_decide (model_time (fi v) < qc 25920 1))
    hydro_iteration.

Definition finish : Py vars unit :=
  emit (Print "core=") ;;
  emit (Print "core=") ;;
  emit (Stop hydro_code).

Definition notebook (fuel : nat) : Py vars unit :=
  pickle_file ← setup_stellar_evolution_model fuel;
  emit (Print "Star generated.") ;;
  make_sph_model pickle_file ;;
  plot_star ;;
  inject ;;
  start_hydro ;;
  first_runs ;;
  hydro_loop fuel ;;
  finish.
End Notebook.

End SPH.

(** ** What is read off a trace *)

Module Monitor.
Import Py.

(** Writes to persistent storage: [pickle_stellar_model], and the
    framework's [write_set_to_file] for particle collections. *)
Definition is_persistent_write (e : event) : bool :=
  match e with
  | Pickle _ _ | WriteSet _ _ => true
  | _ => false
  end.

Definition writes (tr : list event) : list event :=
  filter (λ e, is_persistent_write e = true) tr.

Definition is_evolve (sv : solver) (e : event) : bool :=
  match e with
  | Evolve sv' _ => bool_decide (sv' = sv)
  | _ => false
  end.

(** The number of [evolve_model] calls on a solver. *)
Definition evolve_count (sv : solver) (tr : list event) : nat :=
  length (filter (λ e, is_evolve sv e = true) tr).

(** The life of one solver. *)
Inductive phase : Type := Absent | Constructed | Loaded | Advanced | Stopped.

(** The order in which the calls on solver [sv] may come: construction
    first; parameters before the first particles; particles, their commit
    and the channels before the first [evolve_model]; copies only after an
    [evolve_model]; nothing after [stop]. *)
Definition lifecycle (sv : solver) (ph : phase) (e : event) : option phase :=
  let on (sv' : solver) (next : option phase) : option phase :=
    if bool_decide (sv' = sv) then next else Some ph in
  match e with
  | Construct sv' _ _ =>
      on sv' (match ph with Absent => Some Constructed | _ => None end)
  | SetParameter sv' _ =>
      on sv' (match ph with Constructed => Some Constructed | _ => None end)
  | AddParticles sv' _ =>
      on sv' (match ph with Constructed | Loaded => Some Loaded | _ => None end)
  | CommitParticles sv' | NewChannel sv' _ _ =>
      on sv' (match ph with Loaded => Some Loaded | _ => None end)
  | Evolve sv' _ =>
      on sv' (match ph with Loaded | Advanced => Some Advanced | _ => None end)
  | Copy sv' _ =>
      on sv' (match ph with Advanced => Some Advanced | _ => None end)
  | Stop sv' =>
      on sv' (match ph with Loaded | Advanced => Some Stopped | _ => None end)
  | _ => Some ph
  end.

(** The arguments of the calls: ph4 and Fi are constructed with a unit
    converter, SeBa and MESA without one; every [evolve_model] names a
    target time except MESA's, which advances by one step of its own. *)
Definition call_arguments (_ : unit) (e : event) : option unit :=
  match e with
  | Construct _ c conv =>
      match c, conv with
      | (ph4 | Fi), Some _ | (SeBa | MESA), None => Some tt
      | _, _ => None
      end
  | Evolve sv target =>
      match sv, target with
      | stellar_evolution, None => Some tt
      | stellar_evolution, Some _ => None
      | _, Some _ => Some tt
      | _, None => None
      end
  | _ => Some tt
  end.

(** Two monitors side by side. *)
Definition both {Q1 Q2} (step1 : Q1 → event → option Q1)
    (step2 : Q2 → event → option Q2) (q : Q1 * Q2) (e : event)
    : option (Q1 * Q2) :=
  q1 ← step1 q.1 e; q2 ← step2 q.2 e; Some (q1, q2).

(** Over a whole notebook: the collections built so far, the solvers that
    hold particles, the solvers advanced, and whether something was
    plotted or printed since the last step or copy. *)
Record progress : Type := Progress {
  built : list string;
  loaded : list solver;
  stepped : list solver;
  shown : bool
}.

Definition note {A} `{EqDecision A} (x : A) (l : list A) : list A :=
  if bool_decide (x ∈ l) then l else x :: l.

(** Particles are handed to a solver only after they were built; a solver
    is advanced only after it received particles; a copy comes only from a
    solver that was advanced, into a collection that was built. *)
Definition linear_order (q : progress) (e : event) : option progress :=
  match e with
  | Build _ targets =>
      Some (Progress (foldr note (built q) targets) (loaded q) (stepped q) (shown q))
  | AddParticles sv set =>
      if bool_decide (set ∈ built q)
      then Some (Progress (built q) (note sv (loaded q)) (stepped q) (shown q))
      else None
  | Evolve sv _ =>
      if bool_decide (sv ∈ loaded q)
      then Some (Progress (built q) (loaded q) (note sv (stepped q)) false)
      else None
  | Copy sv set =>
      if bool_decide (sv ∈ stepped q) && bool_decide (set ∈ built q)
      then Some (Progress (built q) (loaded q) (stepped q) false)
      else None
  | Diagnostic _ | Print _ | Plot _ =>
      Some (Progress (built q) (loaded q) (stepped q) true)
  | _ => Some q
  end.

Definition start : progress := Progress [] [] [] false.

(** The monitor accepts the trace and ends in a state that meets [P]. *)
Definition reaches {Q} (step : Q → event → option Q) (q0 : Q) (P : Q → Prop)
    (tr : list event) : Prop :=
  ∃ q, run step q0 tr = Some q ∧ P q.

(** The trace is a possible life of solver [sv] with the call arguments
    above, so far in one of the phases [allowed]. *)
Definition follows (sv : solver) (allowed : list phase) (tr : list event)
    : Prop :=
  reaches (both (lifecycle sv) call_arguments) (Absent, tt)
          (λ q, q.1 ∈ allowed) tr.

Definition phases : list phase :=
  [Absent; Constructed; Loaded; Advanced; Stopped].

Definition is_construct (e : event) : bool :=
  match e with Construct _ _ _ => true | _ => false end.

Definition is_stop (e : event) : bool :=
  match e with Stop _ => true | _ => false end.

(** Diagnostics, prints and plots. *)
Definition is_output (e : event) : bool :=
  match e with Diagnostic _ | Print _ | Plot _ => true | _ => false end.

(** Steps of a solver and channel copies. *)
Definition is_step_or_copy (e : event) : bool :=
  match e with Evolve _ _ | Copy _ _ => true | _ => false end.

(** The order build, hand to solver, step, copy back, plot or print, read
    as stages of a whole script: nothing is built once particles were
    handed to a solver, nothing is built or handed over once time was
    stepped, and nothing is copied, plotted or printed before that. *)
Inductive stage : Type := Building | Handing | Running.

Definition literal_order (q : stage) (e : event) : option stage :=
  match e with
  | Build _ _ =>
      match q with Building => Some Building | _ => None end
  | Construct _ _ _ | SetParameter _ _ | AddParticles _ _
  | CommitParticles _ | NewChannel _ _ _ =>
      match q with Running => None | _ => Some Handing end
  | Evolve _ _ => Some Running
  | Copy _ _ | Diagnostic _ | Print _ | Plot _ =>
      match q with Running => Some Running | _ => None end
  | Pickle _ _ | WriteSet _ _ | Stop _ => Some q
  end.

End Monitor.

(** ** Assertions on runs *)

(** The N-body notebook: [gravity.particles] and [bodies]. *)
Definition nbody_aligned (keys0 : list N) (v : NBody.vars) : Prop :=
  Particles.aligned (NBody.gravity_particles v) (NBody.bodies v) ∧
  Particles.keys (NBody.bodies v) = keys0.


(** The stellar-evolution notebook: both SeBa instances. *)
Definition stellar_aligned (kkeys skeys : list N) (v : Stellar.vars) : Prop :=
  Particles.aligned (Stellar.kstellar_particles v) (Stellar.k_stars v) ∧
  Particles.aligned (Stellar.sstellar_particles v) (Stellar.s_stars v) ∧
  Particles.keys (Stellar.k_stars v) = kkeys ∧
  Particles.keys (Stellar.s_stars v) = skeys.

(** What one pass of the last Fi loop calls, from model time [t]. *)
Definition iteration_events (t : Qc) : list Py.event :=
  [Py.Evolve Py.hydro_code (Some (t + qc 3600 1)); Py.Print "Done running, until:";
   Py.Diagnostic "get_hydro_state_at_point"; Py.Plot "hydro_plot"].

(** What one pass of the N-body loop calls when [evolve_model] returns:
    the step, the copy, then what is shown. *)
Definition nbody_pass_events (time : Qc) (shown : list Py.event)
    : list Py.event :=
  Py.Evolve Py.gravity (Some time) :: Py.Copy Py.gravity "bodies" :: shown.

(** One pass of the stellar-evolution loop when both [evolve_model] calls
    return. *)
Definition stellar_pass_events (time : Qc) : list Py.event :=
  [Py.Evolve Py.kstellar (Some time); Py.Copy Py.kstellar "k_stars";
   Py.Evolve Py.sstellar (Some time); Py.Copy Py.sstellar "s_stars";
   Py.Diagnostic "mean mass ratio"].

(** One pass of MESA's loop when [evolve_model] returns. *)
Definition mesa_pass_events : list Py.event :=
  [Py.Evolve Py.stellar_evolution None; Py.Print "star:"].

(** Calls that are all diagnostics, prints or plots, at least one. *)
Definition outputs (evs : list Py.event) : Prop :=
  evs ≠ [] ∧ Forall (λ e, Monitor.is_output e = true) evs.

(** Calls among which no solver is stepped and nothing is copied. *)
Definition quiet (evs : list Py.event) : Prop :=
  Forall (λ e, Monitor.is_step_or_copy e = false) evs.

(** The monitor states at the heads of the loops. *)
Definition nbody_progress (stepped : list Py.solver) : Monitor.progress :=
  Monitor.Progress ["bodies"; "converter"; "m_stars"] [Py.gravity] stepped true.

Definition stellar_progress (stepped : list Py.solver) : Monitor.progress :=
  Monitor.Progress ["s_stars"; "msalpeter"; "k_stars"; "mkroupa"]
                   [Py.sstellar; Py.kstellar] stepped true.

Definition mesa_progress (stepped : list Py.solver) (shown : bool)
    : Monitor.progress :=
  Monitor.Progress ["stars"] [Py.stellar_evolution] stepped shown.

Definition model_progress (stepped : list Py.solver) : Monitor.progress :=
  Monitor.Progress
    ["model"; "core"; "gas_without_core"; "core_radius"; "stars"]
    [Py.stellar_evolution] stepped true.

Definition hydro_progress (loaded stepped : list Py.solver) : Monitor.progress :=
  Monitor.Progress
    ["converter"; "model"; "core"; "gas_without_core"; "core_radius"; "stars"]
    loaded stepped true.

(** The trace is accepted and ends in one of the states [allowed]. *)
Definition ordered (allowed : list Monitor.progress) (tr : list Py.event) : Prop :=
  Monitor.reaches Monitor.linear_order Monitor.start (λ q, q ∈ allowed) tr.

(** The trace is accepted, and its last step or copy is followed by a
    diagnostic, a print or a plot. *)
Definition ordered_and_shown (tr : list Py.event) : Prop :=
  Monitor.reaches Monitor.linear_order Monitor.start
                  (λ q, Monitor.shown q = true) tr.

Definition accepted (tr : list Py.event) : Prop :=
  Monitor.reaches Monitor.linear_order Monitor.start (λ _, True) tr.

(** What [setup_stellar_evolution_model] has called when it enters the
    [try]. *)
Definition setup_prefix : list Py.event :=
  [Py.Construct Py.stellar_evolution Py.MESA None;
   Py.Build "Particles" ["stars"];
   Py.AddParticles Py.stellar_evolution "stars";
   Py.CommitParticles Py.stellar_evolution;
   Py.Print "Evolving a MESA star with mass:"].

(** ** Quantities read off the gas *)

Module Gas.

(** The thermal energy of the gas: each particle's mass times its
    specific internal energy. *)
Definition thermal_energy (gas : list Supernova.sph) : Qc :=
  qsum ((λ p, Supernova.mass p * Supernova.u p) <$> gas).

(** The mass of the gas. *)
Definition mass_of (gas : list Supernova.sph) : Qc :=
  qsum (Supernova.mass <$> gas).

End Gas.

(** ** More that is read off a trace *)

Module Trace.
Import Py.

(** The [stop()] calls made. *)
Definition stops (tr : list event) : list event :=
  filter (λ e, Monitor.is_stop e = true) tr.

(** The solvers constructed. *)
Definition constructs (tr : list event) : list event :=
  filter (λ e, Monitor.is_construct e = true) tr.

(** The target times of the [evolve_model] calls on a solver, in the
    order of the calls. *)
Definition evolve_targets (sv : solver) (tr : list event) : list (option Qc) :=
  omap (λ e, match e with
             | Evolve sv' target =>
                 if bool_decide (sv' = sv) then Some target else None
             | _ => None
             end) tr.

(** The number of channel copies from a solver. *)
Definition is_copy (sv : solver) (e : event) : bool :=
  match e with
  | Copy sv' _ => bool_decide (sv' = sv)
  | _ => false
  end.

Definition copy_count (sv : solver) (tr : list event) : nat :=
  length (filter (λ e, is_copy sv e = true) tr).

(** What the loop of [setup_stellar_evolution_model] calls. *)
Definition mesa_loop_event (e : event) : Prop :=
  e = Evolve stellar_evolution None ∨ e = Print "star:".

(** [n] steps of [dt]. *)
Fixpoint advance (n : nat) (dt : Qc) : Qc :=
  match n with
  | O => 0
  | Datatypes.S n' => dt + advance n' dt
  end.

(** Like [wp], for runs that must end: a run out of fuel does not meet
    it. *)
Definition twp {S A} (m : Py S A) (Q : A → S → list event → Prop)
    (E : exn → S → list event → Prop) (s : S) (tr : list event) : Prop :=
  match m s tr with
  | Done a s' tr' => Q a s' tr'
  | Raised e s' tr' => E e s' tr'
  | Diverged => False
  end.

End Trace.

(** * Proofs *)

(** ** Arithmetic of sums and quotients *)

Lemma fold_left_Qcplus (l : list Qc) (a : Qc) :
  fold_left Qcplus l a = a + fold_left Qcplus l 0.
Proof.
  revert a. induction l as [|x l IH]; intros a; simpl.
  - by rewrite Qcplus_0_r.
  - rewrite IH, (IH (0 + x)), Qcplus_0_l. by rewrite Qcplus_assoc.
Qed.

Lemma qsum_cons (x : Qc) (l : list Qc) : qsum (x :: l) = x + qsum l.
Proof. unfold qsum. simpl. by rewrite fold_left_Qcplus, Qcplus_0_l. Qed.

Lemma qsum_app (l k : list Qc) : qsum (l ++ k) = qsum l + qsum k.
Proof.
  induction l as [|x l IH]; simpl.
  - unfold qsum at 2. simpl. by rewrite Qcplus_0_l.
  - by rewrite !qsum_cons, IH, Qcplus_assoc.
Qed.

Lemma qsum_Permutation (l k : list Qc) : l ≡ₚ k → qsum l = qsum k.
Proof.
  induction 1 as [|x l k _ IH|x y l|l k m _ IH1 _ IH2].
  - done.
  - by rewrite !qsum_cons, IH.
  - rewrite !qsum_cons, !Qcplus_assoc. f_equal. apply Qcplus_comm.
  - congruence.
Qed.

Lemma qsum_nonneg (l : list Qc) : Forall (λ x, 0 ≤ x) l → 0 ≤ qsum l.
Proof.
  induction 1 as [|x l Hx _ IH]; [done|].
  rewrite qsum_cons. by apply Qcplus_nonneg_nonneg.
Qed.

Lemma qsum_pos (l : list Qc) : l ≠ [] → Forall (λ x, 0 < x) l → 0 < qsum l.
Proof.
  intros Hne Hall. destruct Hall as [|x l Hx Hl]; [done|].
  rewrite qsum_cons. apply Qcplus_pos_nonneg; [done|].
  apply qsum_nonneg. eapply Forall_impl; [exact Hl|].
  intros y Hy. by apply Qclt_le_weak.
Qed.

Lemma Qcdiv_self (x : Qc) : x ≠ 0 → x / x = 1.
Proof. intros Hx. unfold Qcdiv. by apply Qcmult_inv_r. Qed.

Lemma Qcinv_pos (x : Qc) : 0 < x → 0 < / x.
Proof.
  intros Hx. destruct (Qclt_le_dec 0 (/ x)) as [|Hle]; [done|].
  exfalso. assert (Hne : x ≠ 0) by (intros ->; by apply (Qclt_not_eq 0 0)).
  assert (H1 : x * / x ≤ x * 0).
  { apply Qcmult_le_mono_nonneg_l; [by apply Qclt_le_weak|done]. }
  rewrite Qcmult_inv_r, Qcmult_0_r in H1 by done.
  by apply (Qclt_not_le 0 1).
Qed.

Lemma Qcdiv_le_mono (x y z : Qc) : 0 < z → x ≤ y → x / z ≤ y / z.
Proof.
  intros Hz Hxy. unfold Qcdiv.
  apply Qcmult_le_mono_nonneg_r; [|done].
  apply Qclt_le_weak. by apply Qcinv_pos.
Qed.

Lemma Qcdiv_0_l (z : Qc) : 0 / z = 0.
Proof. unfold Qcdiv. apply Qcmult_0_l. Qed.


(** ** [plot_cdf]: the normalised cumulative array *)

Section CDFFacts.
Import CDF.

Lemma last_elt_snoc (l : list Qc) (x : Qc) : last_elt (l ++ [x]) = x.
Proof. unfold last_elt. by rewrite last_snoc. Qed.

Lemma last_elt_app_running (fm : list Qc) (a x : Qc) (l : list Qc) :
last_elt (fm ++ running a (x :: l)) = last_elt (running a (x :: l)).
Proof.
unfold last_elt. rewrite last_app.
destruct (last (running a (x :: l))) eqn:E; [done|].
by apply last_None in E.
Qed.

(** The loop appends the running sums that start at the last entry. *)
Lemma fold_append_step (l fm : list Qc) :
fm ≠ [] →
fold_left append_step l fm = fm ++ running (last_elt fm) l.
Proof.
revert fm. induction l as [|x l IH]; intros fm Hfm; simpl.
- by rewrite app_nil_r.
- rewrite IH.
  + unfold append_step. rewrite last_elt_snoc. by rewrite <- app_assoc.
  + unfold append_step. by destruct fm.
Qed.

Lemma cumulate_running (m : list Qc) : cumulate m = 0 :: running 0 m.
Proof. unfold cumulate. by rewrite fold_append_step. Qed.

Lemma length_running (a : Qc) (l : list Qc) : length (running a l) = length l.
Proof. revert a. induction l as [|x l IH]; intros a; simpl; [done|by rewrite IH]. Qed.

Lemma running_last (a : Qc) (l : list Qc) :
last_elt (a :: running a l) = a + qsum l.
Proof.
revert a. induction l as [|x l IH]; intros a.
- unfold last_elt, qsum. simpl. by rewrite Qcplus_0_r.
- simpl running. unfold last_elt in *. rewrite last_cons_cons.
  by rewrite IH, qsum_cons, Qcplus_assoc.
Qed.

(** With nonnegative increments every running sum is at least the start. *)
Lemma running_lower (a : Qc) (l : list Qc) :
Forall (λ x, 0 ≤ x) l → Forall (λ y, a ≤ y) (running a l).
Proof.
intros Hl. revert a. induction Hl as [|x l Hx _ IH]; intros a; simpl.
- constructor.
- assert (Hax : a ≤ a + x).
  { rewrite <- (Qcplus_0_r a) at 1. by apply Qcplus_le_mono_l. }
  constructor; [done|].
  eapply Forall_impl; [apply IH|]. intros y Hy. by transitivity (a + x).
Qed.

Lemma running_nondecreasing (a : Qc) (l : list Qc) :
Forall (λ x, 0 ≤ x) l → nondecreasing (a :: running a l).
Proof.
intros Hl. revert a. induction Hl as [|x l Hx _ IH]; intros a i u v Hu Hv.
- by destruct i.
- destruct i as [|i]; simpl in *.
  + inversion Hu; inversion Hv; subst.
    rewrite <- (Qcplus_0_r u) at 1. by apply Qcplus_le_mono_l.
  + by apply (IH (a + x) i).
Qed.

(** Python's [max] of a nondecreasing nonempty sequence is its last entry. *)
Lemma fold_max_upper (l : list Qc) (a : Qc) :
a ≤ fold_left (λ a y, if decide (a < y) then y else a) l a ∧
Forall (λ y, y ≤ fold_left (λ a y, if decide (a < y) then y else a) l a) l.
Proof.
revert a. induction l as [|x l IH]; intros a; simpl; [by split|].
destruct (IH (if decide (a < x) then x else a)) as [H1 H2].
assert (Ha : a ≤ (if decide (a < x) then x else a) ∧
             x ≤ (if decide (a < x) then x else a)).
{ case_decide as Hlt; split; try done.
  - by apply Qclt_le_weak.
  - by apply Qcnot_lt_le. }
destruct Ha as [Ha Hx]. split; [by etransitivity|].
constructor; [by etransitivity|done].
Qed.

Lemma fold_max_elem (l : list Qc) (a : Qc) :
fold_left (λ a y, if decide (a < y) then y else a) l a ∈ a :: l.
Proof.
revert a. induction l as [|x l IH]; intros a; simpl; [set_solver|].
pose proof (IH (if decide (a < x) then x else a)) as IH'.
clear IH. rewrite !elem_of_cons in *.
destruct (decide (a < x)); destruct IH' as [->|?]; auto.
Qed.

Lemma py_max_upper (l : list Qc) : Forall (λ y, y ≤ py_max l) l.
Proof.
destruct l as [|x l]; [constructor|]. unfold py_max.
destruct (fold_max_upper l x). by constructor.
Qed.

Lemma py_max_elem (l : list Qc) : l ≠ [] → py_max l ∈ l.
Proof. destruct l as [|x l]; [done|]. intros _. apply fold_max_elem. Qed.

Lemma py_max_running (a : Qc) (l : list Qc) :
Forall (λ x, 0 ≤ x) l → py_max (a :: running a l) = a + qsum l.
Proof.
intros Hl. apply Qcle_antisym.
- assert (Hin : py_max (a :: running a l) ∈ a :: running a l)
    by by apply py_max_elem.
  clear -Hin Hl. revert Hin. generalize (py_max (a :: running a l)).
  intros mx. revert a. induction Hl as [|x l Hx Hl' IH]; intros a Hin.
  + apply list_elem_of_singleton in Hin as ->.
    unfold qsum; simpl. by rewrite Qcplus_0_r.
  + simpl in Hin. apply elem_of_cons in Hin as [->|Hin].
    * rewrite <- (Qcplus_0_r a) at 1. apply Qcplus_le_mono_l.
      apply qsum_nonneg. by constructor.
    * apply IH in Hin. by rewrite qsum_cons, Qcplus_assoc.
- rewrite <- running_last.
  pose proof (py_max_upper (a :: running a l)) as Hup.
  rewrite Forall_forall in Hup. apply Hup.
  unfold last_elt. destruct (last (a :: running a l)) as [y|] eqn:E.
  + apply last_Some in E as [l' E]. rewrite E. set_solver.
  + by apply last_None in E.
Qed.

Lemma nondecreasing_fmap_div (l : list Qc) (z : Qc) :
0 < z → nondecreasing l → nondecreasing ((λ x, x / z) <$> l).
Proof.
intros Hz Hl i u v Hu Hv.
rewrite list_lookup_fmap in Hu, Hv.
destruct (l !! i) as [x|] eqn:Ex; [|done].
destruct (l !! S i) as [y|] eqn:Ey; [|done].
simpl in *. inversion Hu; inversion Hv; subst.
apply Qcdiv_le_mono; [done|]. by apply (Hl i).
Qed.

End CDFFacts.

(** C9. In [plot_cdf], for every non-empty list of strictly positive
    masses the array [fm] is computed, it has one entry more than there are
    masses, after the division by its maximum it never decreases, every
    entry lies between 0 and 1, the maximum that normalises it is the sum
    of all masses, and the last entry is 1. *)
Theorem plot_cdf_normalised (m : list Qc) :
  m ≠ [] →
  Forall (λ x, 0 < x) m →
  ∃ fm, CDF.plot_cdf_fm m = Some fm ∧
        length fm = S (length m) ∧
        CDF.nondecreasing fm ∧
        Forall (λ x, 0 ≤ x ∧ x ≤ 1) fm ∧
        CDF.py_max (CDF.cumulate (CDF.sorted m)) = qsum m ∧
        last fm = Some 1.
Proof.
  intros Hne Hpos.
  assert (Hperm : CDF.sorted m ≡ₚ m) by apply merge_sort_Permutation.
  assert (Hspos : Forall (λ x, 0 < x) (CDF.sorted m)) by by rewrite Hperm.
  assert (Hsnn : Forall (λ x, 0 ≤ x) (CDF.sorted m)).
  { eapply Forall_impl; [exact Hspos|]. intros y Hy. by apply Qclt_le_weak. }
  assert (Hmax : CDF.py_max (CDF.cumulate (CDF.sorted m)) = qsum m).
  { rewrite cumulate_running, py_max_running by done.
    by rewrite Qcplus_0_l, (qsum_Permutation _ _ Hperm). }
  assert (Hsum : 0 < qsum m) by by apply qsum_pos.
  assert (Hnz : qsum m ≠ 0) by (intros E; rewrite E in Hsum; by apply (Qclt_not_eq 0 0)).
  unfold CDF.plot_cdf_fm, CDF.normalise. rewrite Hmax.
  rewrite decide_False by done. eexists; split; [done|].
  repeat split; try done; rewrite cumulate_running.
  - rewrite length_fmap. simpl. rewrite length_running.
    by rewrite Hperm.
  - apply nondecreasing_fmap_div; [done|]. by apply running_nondecreasing.
  - apply Forall_fmap, Forall_forall. intros x Hx. simpl.
    assert (H0 : 0 ≤ x).
    { apply elem_of_cons in Hx as [->|Hx]; [done|].
      pose proof (running_lower 0 _ Hsnn) as Hlow.
      rewrite Forall_forall in Hlow. by apply Hlow. }
    assert (H1 : x ≤ qsum m).
    { rewrite <- Hmax, cumulate_running.
      pose proof (py_max_upper (0 :: CDF.running 0 (CDF.sorted m))) as Hup.
      rewrite Forall_forall in Hup. by apply Hup. }
    split.
    + rewrite <- (Qcdiv_0_l (qsum m)). by apply Qcdiv_le_mono.
    + transitivity (qsum m / qsum m); [by apply Qcdiv_le_mono|].
      by rewrite Qcdiv_self.
  - rewrite fmap_last.
    pose proof (running_last 0 (CDF.sorted m)) as Hlast.
    unfold CDF.last_elt in Hlast.
    destruct (last (0 :: CDF.running 0 (CDF.sorted m))) as [y|] eqn:E.
    + simpl in *. subst y. rewrite Qcplus_0_l, (qsum_Permutation _ _ Hperm).
      by rewrite Qcdiv_self.
    + by apply last_None in E.
Qed.

(** Three sample masses: the preconditions hold, and so does the claim. *)
Lemma plot_cdf_normalised_witness :
  [qc 3 1; qc 1 2; qc 2 1] ≠ [] ∧
  Forall (λ x, 0 < x) [qc 3 1; qc 1 2; qc 2 1] ∧
  ∃ fm, CDF.plot_cdf_fm [qc 3 1; qc 1 2; qc 2 1] = Some fm ∧
        length fm = 4%nat ∧
        CDF.nondecreasing fm ∧
        Forall (λ x, 0 ≤ x ∧ x ≤ 1) fm ∧
        CDF.py_max (CDF.cumulate (CDF.sorted [qc 3 1; qc 1 2; qc 2 1]))
          = qsum [qc 3 1; qc 1 2; qc 2 1] ∧
        last fm = Some 1.
Proof.
  assert (Hne : [qc 3 1; qc 1 2; qc 2 1] ≠ []) by done.
  assert (Hpos : Forall (λ x, 0 < x) [qc 3 1; qc 1 2; qc 2 1])
    by repeat constructor.
  split; [exact Hne|]. split; [exact Hpos|].
  exact (plot_cdf_normalised [qc 3 1; qc 1 2; qc 2 1] Hne Hpos).
Defined.

(** ** The unit layer *)

Section UnitsFacts.
Import Units.
Context {num : Type}.
Variable of_Qc : Qc → num.
Variables nadd nsub nmul ndiv : num → num → num.
Variable nsqrt : num → num.
Variable npow : num → Qc → num.

Lemma compatible_spec (u v : unit) :
  compatible u v = true ↔ ∀ b, dimension u b = dimension v b.
Proof.
  unfold compatible, bases. simpl. split.
  - intros H b.
    repeat (apply andb_prop in H as [?%bool_decide_eq_true H]).
    by destruct b.
  - intros H. by rewrite !bool_decide_eq_true_2.
Qed.

Lemma incompatible_spec (u v : unit) :
  compatible u v = false ↔ ∃ b, dimension u b ≠ dimension v b.
Proof.
  split.
  - intros H. unfold compatible in H. apply not_true_iff_false in H.
    destruct (decide (Exists (λ b, dimension u b ≠ dimension v b) bases))
      as [Hex|Hnex].
    + apply Exists_exists in Hex as (b & _ & Hb). by exists b.
    + exfalso. apply H, forallb_forall. intros b Hb.
      apply bool_decide_eq_true.
      destruct (decide (dimension u b = dimension v b)) as [|Hne]; [done|].
      exfalso. apply Hnex, Exists_exists. exists b.
      split; [by apply list_elem_of_In|done].
  - intros [b Hb]. apply not_true_iff_false. intros H.
    apply compatible_spec with (b := b) in H. done.
Qed.

Lemma compatible_refl (u : unit) : compatible u u = true.
Proof. by apply compatible_spec. Qed.

(** The dimension of [(2*G*mstar/rstar).sqrt()] for a [G] in the
    declared units is that of a speed. *)
Lemma vesc_dimension (G : quantity num) (b : base) :
  unit_of G = units_G →
  dimension (unit_of (vesc of_Qc nmul ndiv nsqrt G)) b = speed b.
Proof.
  intros HG. unfold vesc, sqrt, div, mul, scale. simpl. rewrite HG.
  destruct b; apply Qc_is_canon; reflexivity.
Qed.
End UnitsFacts.

(** C3. Adding or subtracting two quantities whose unit tags differ in
    dimension fails with an error, and so does a conversion to a unit of
    another dimension; on compatible tags the sum succeeds and keeps the
    unit of its left operand.  The arithmetic of the notebooks succeeds
    with the derived tag: [(2*G*mstar/rstar).sqrt()] carries the expression
    [((G*MSun)/RSun)**(1/2)], whose dimension is that of a speed, and its
    conversion to [kms] succeeds; the sum of a model time in seconds and
    one hour is in seconds; the quotient of an energy in erg and a mass in
    MSun adds to a specific energy. *)
Theorem unit_arithmetic {num : Type} (of_Qc : Qc → num)
    (nadd nsub nmul ndiv : num → num → num) (nsqrt : num → num)
    (npow : num → Qc → num) :
  let add := Units.add of_Qc nadd nmul ndiv npow in
  let sub := Units.sub of_Qc nsub nmul ndiv npow in
  let in_ := Units.in_ of_Qc nmul ndiv npow in
  let vesc := Units.vesc of_Qc nmul ndiv nsqrt in
  (∀ q1 q2 : Units.quantity num,
     (∃ b, Units.dimension (Units.unit_of q1) b
             ≠ Units.dimension (Units.unit_of q2) b) →
     add q1 q2 = Units.IncompatibleUnits ∧
     sub q1 q2 = Units.IncompatibleUnits ∧
     in_ q1 (Units.unit_of q2) = Units.IncompatibleUnits) ∧
  (∀ q1 q2 : Units.quantity num,
     (∀ b, Units.dimension (Units.unit_of q1) b
             = Units.dimension (Units.unit_of q2) b) →
     ∃ r, add q1 q2 = Units.Ok r ∧ Units.unit_of r = Units.unit_of q1) ∧
  add (Units.mstar of_Qc) (Units.rstar of_Qc) = Units.IncompatibleUnits ∧
  (∀ G : Units.quantity num,
     Units.unit_of G = Units.units_G →
     Units.unit_of (vesc G)
       = Units.UPow (Units.UDiv (Units.UMul Units.units_G Units.MSun) Units.RSun)
                    (qc 1 2) ∧
     (∀ b, Units.dimension (Units.unit_of (vesc G)) b = Units.speed b) ∧
     ∃ r, Units.vesc_in_kms of_Qc nmul ndiv nsqrt npow G = Units.Ok r ∧
          Units.unit_of r = Units.kms) ∧
  (∀ t : num,
     ∃ r, add (Units.Quantity t Units.s) (Units.Quantity (of_Qc 1) Units.hour)
            = Units.Ok r ∧ Units.unit_of r = Units.s) ∧
  (∀ u0 e mass : num,
     ∃ r, add (Units.Quantity u0 (Units.UDiv Units.J Units.kg))
              (Units.div ndiv (Units.Quantity e Units.erg)
                              (Units.Quantity mass Units.MSun))
            = Units.Ok r ∧
          Units.unit_of r = Units.UDiv Units.J Units.kg).
Proof.
  intros add sub in_ vesc. repeat split.
  - apply incompatible_spec in H. unfold add, Units.add. by rewrite H.
  - apply incompatible_spec in H. unfold sub, Units.sub. by rewrite H.
  - apply incompatible_spec in H. unfold in_, Units.in_. by rewrite H.
  - intros q1 q2 H. apply compatible_spec in H.
    unfold add, Units.add. rewrite H. by eexists.
  - unfold vesc, Units.vesc, Units.sqrt, Units.div, Units.mul, Units.scale.
    simpl. by rewrite H.
  - intros b. by apply vesc_dimension.
  - unfold Units.vesc_in_kms, Units.in_.
    assert (Hc : Units.compatible
                   (Units.unit_of (Units.vesc of_Qc nmul ndiv nsqrt G))
                   Units.kms = true).
    { apply compatible_spec. intros b. rewrite vesc_dimension by done.
      destruct b; apply Qc_is_canon; reflexivity. }
    rewrite Hc. by eexists.
  - by eexists.
  - by eexists.
Qed.

(** ** Reasoning about notebook programs *)

Section WpRules.
Import Py.
Context {S : Type}.
Implicit Types (s : S) (tr : list event).

Lemma wp_mono {A} (m : Py S A) (Q Q' : A → S → list event → Prop)
    (E E' : exn → S → list event → Prop) s tr :
  (∀ a s' tr', Q a s' tr' → Q' a s' tr') →
  (∀ e s' tr', E e s' tr' → E' e s' tr') →
  wp m Q E s tr → wp m Q' E' s tr.
Proof. unfold wp. destruct (m s tr); auto. Qed.

Lemma wp_wand {A} (m : Py S A) (Q Q' : A → S → list event → Prop)
    (E E' : exn → S → list event → Prop) s tr :
  wp m Q E s tr →
  (∀ a s' tr', Q a s' tr' → Q' a s' tr') →
  (∀ e s' tr', E e s' tr' → E' e s' tr') →
  wp m Q' E' s tr.
Proof. intros H HQ HE. by eapply wp_mono. Qed.

Lemma wp_ret {A} (a : A) Q E s tr : Q a s tr → wp (mret a) Q E s tr.
Proof. done. Qed.

Lemma wp_skip Q E s tr : Q tt s tr → wp (skip : Py S unit) Q E s tr.
Proof. done. Qed.

Lemma wp_bind {A B} (m : Py S A) (f : A → Py S B) Q E s tr :
  wp m (λ a s' tr', wp (f a) Q E s' tr') E s tr → wp (m ≫= f) Q E s tr.
Proof. unfold wp, mbind, Py_bind. by destruct (m s tr). Qed.

Lemma wp_bind_inv {A B} (m : Py S A) (f : A → Py S B) Q E s tr :
  wp (m ≫= f) Q E s tr → wp m (λ a s' tr', wp (f a) Q E s' tr') E s tr.
Proof. unfold wp, mbind, Py_bind. by destruct (m s tr). Qed.

Lemma wp_emit (e : event) Q E s tr :
  Q tt s (tr ++ [e]) → wp (emit e) Q E s tr.
Proof. done. Qed.

Lemma wp_gets {A} (f : S → A) Q E s tr : Q (f s) s tr → wp (gets f) Q E s tr.
Proof. done. Qed.

Lemma wp_modify (f : S → S) Q E s tr : Q tt (f s) tr → wp (modify f) Q E s tr.
Proof. done. Qed.

Lemma wp_raise {A} (e : exn) (Q : A → S → list event → Prop) E s tr :
  E e s tr → wp (raise e) Q E s tr.
Proof. done. Qed.

Lemma wp_evolve (sv : solver) (target : option Qc) (step : S → exn + S)
    Q E s tr :
  match step s with
  | inl e => E e s (tr ++ [Evolve sv target])
  | inr s' => Q tt s' (tr ++ [Evolve sv target])
  end →
  wp (evolve_model sv target step) Q E s tr.
Proof.
  intros H. unfold evolve_model. apply wp_bind, wp_emit, wp_bind, wp_gets.
  destruct (step s); [by apply wp_raise|by apply wp_modify].
Qed.

(** A loop invariant carries over a [for] loop. *)
Lemma wp_for {A} (I : S → list event → Prop) (l : list A)
    (body : A → Py S unit) Q E s tr :
  I s tr →
  (∀ x s' tr', x ∈ l → I s' tr' → wp (body x) (λ _, I) E s' tr') →
  (∀ s' tr', I s' tr' → Q tt s' tr') →
  wp (for_ l body) Q E s tr.
Proof.
  intros HI Hbody HQ. revert s tr HI.
  induction l as [|x l IH]; intros s tr HI; simpl.
  - by apply wp_skip, HQ.
  - apply wp_bind.
    apply (wp_mono _ (λ _, I) _ E E); [| |apply Hbody; [set_solver|done]].
    + intros _ s' tr' HI'. apply IH; [|done].
      intros y s'' tr'' Hy. apply Hbody. set_solver.
    + done.
Qed.

(** And over a [while] loop, where it also yields the negated guard. *)
Lemma wp_while (I : S → list event → Prop) (fuel : nat) (cond : S → bool)
    (body : Py S unit) Q E s tr :
  I s tr →
  (∀ s' tr', I s' tr' → cond s' = true → wp body (λ _, I) E s' tr') →
  (∀ s' tr', I s' tr' → cond s' = false → Q tt s' tr') →
  wp (while_ fuel cond body) Q E s tr.
Proof.
  intros HI Hbody HQ. revert s tr HI.
  induction fuel as [|n IH]; intros s tr HI.
  - unfold wp. simpl. destruct (cond s) eqn:Hc; [done|]. by apply HQ.
  - unfold wp. simpl. destruct (cond s) eqn:Hc; [|by apply HQ].
    specialize (Hbody s tr HI Hc). unfold wp in Hbody.
    destruct (body s tr) as [[] s' tr'|e s' tr'|]; [|done|done].
    by apply IH.
Qed.

(** Reading a trace that was extended. *)
Lemma run_app {Q} (step : Q → event → option Q) (q : Q) (tr evs : list event) :
  run step q (tr ++ evs) = q' ← run step q tr; run step q' evs.
Proof.
  unfold run. rewrite foldl_app.
  destruct (foldl _ (Some q) tr) as [q'|]; [done|].
  simpl. induction evs as [|e evs IH]; [done|]. by simpl.
Qed.

Lemma run_snoc {Q} (step : Q → event → option Q) (q q' : Q)
    (tr : list event) (e : event) :
  run step q tr = Some q' → run step q (tr ++ [e]) = step q' e.
Proof. intros H. by rewrite run_app, H. Qed.
End WpRules.

(** Symbolic execution of straight-line notebook code. *)
Ltac wp_step :=
  lazymatch goal with
  | |- Py.wp (mbind _ _) _ _ _ _ => apply wp_bind
  | |- Py.wp (Py.emit _) _ _ _ _ => apply wp_emit
  | |- Py.wp (Py.evolve_model _ _ _) _ _ _ _ => apply wp_evolve
  | |- Py.wp (Py.gets _) _ _ _ _ => apply wp_gets
  | |- Py.wp (Py.modify _) _ _ _ _ => apply wp_modify
  | |- Py.wp (Py.raise _) _ _ _ _ => apply wp_raise
  | |- Py.wp Py.skip _ _ _ _ => apply wp_skip
  | |- Py.wp (mret _) _ _ _ _ => apply wp_ret
  end.

Ltac wp_run := repeat wp_step.

(** An [evolve_model] call splits the run: the code raises, which ends
    the run and is closed by [tac], or it returns. *)
Ltac wp_evolve_cases tac :=
  lazymatch goal with
  | |- Py.wp (Py.evolve_model _ _ _) _ _ _ _ => apply wp_evolve; cbv beta
  end;
  lazymatch goal with
  | |- match (match ?x with inl _ => _ | inr _ => _ end) with
       | inl _ => _ | inr _ => _ end =>
      destruct x; cbv beta iota; [by tac|]
  end.

Ltac wp_run_with tac :=
  repeat first [ wp_evolve_cases tac | wp_step ].

(** ** Runs that end *)

Section TwpRules.
Import Py Trace.
Context {S : Type}.
Implicit Types (s : S) (tr : list event).

Lemma twp_wp {A} (m : Py S A) Q E s tr : twp m Q E s tr → wp m Q E s tr.
Proof. unfold twp, wp. by destruct (m s tr). Qed.

Lemma twp_ends {A} (m : Py S A) Q E s tr : twp m Q E s tr → m s tr ≠ Diverged.
Proof. unfold twp. by destruct (m s tr). Qed.

Lemma twp_wand {A} (m : Py S A) (Q Q' : A → S → list event → Prop)
    (E E' : exn → S → list event → Prop) s tr :
  twp m Q E s tr →
  (∀ a s' tr', Q a s' tr' → Q' a s' tr') →
  (∀ e s' tr', E e s' tr' → E' e s' tr') →
  twp m Q' E' s tr.
Proof. unfold twp. destruct (m s tr); auto. Qed.

Lemma twp_ret {A} (a : A) Q E s tr : Q a s tr → twp (mret a) Q E s tr.
Proof. done. Qed.

Lemma twp_skip Q E s tr : Q tt s tr → twp (skip : Py S unit) Q E s tr.
Proof. done. Qed.

Lemma twp_bind {A B} (m : Py S A) (f : A → Py S B) Q E s tr :
  twp m (λ a s' tr', twp (f a) Q E s' tr') E s tr → twp (m ≫= f) Q E s tr.
Proof. unfold twp, mbind, Py_bind. by destruct (m s tr). Qed.

Lemma twp_emit (e : event) Q E s tr :
  Q tt s (tr ++ [e]) → twp (emit e) Q E s tr.
Proof. done. Qed.

Lemma twp_gets {A} (f : S → A) Q E s tr : Q (f s) s tr → twp (gets f) Q E s tr.
Proof. done. Qed.

Lemma twp_modify (f : S → S) Q E s tr :
  Q tt (f s) tr → twp (modify f) Q E s tr.
Proof. done. Qed.

Lemma twp_raise {A} (e : exn) (Q : A → S → list event → Prop) E s tr :
  E e s tr → twp (raise e) Q E s tr.
Proof. done. Qed.

Lemma twp_evolve (sv : solver) (target : option Qc) (step : S → exn + S)
    Q E s tr :
  match step s with
  | inl e => E e s (tr ++ [Evolve sv target])
  | inr s' => Q tt s' (tr ++ [Evolve sv target])
  end →
  twp (evolve_model sv target step) Q E s tr.
Proof.
  intros H. unfold evolve_model. apply twp_bind, twp_emit, twp_bind, twp_gets.
  destruct (step s); [by apply twp_raise|by apply twp_modify].
Qed.

(** A [for] loop always ends when its body does; the invariant follows
    the elements already visited. *)
Lemma twp_for_from {A} (I : list A → S → list event → Prop)
    (visited l : list A) (body : A → Py S unit) Q E s tr :
  I visited s tr →
  (∀ seen x rest s' tr',
     visited ++ l = seen ++ x :: rest → I seen s' tr' →
     twp (body x) (λ _, I (seen ++ [x])) E s' tr') →
  (∀ s' tr', I (visited ++ l) s' tr' → Q tt s' tr') →
  twp (for_ l body) Q E s tr.
Proof.
  revert visited s tr.
  induction l as [|x l IH]; intros visited s tr HI Hbody HQ; simpl.
  - apply twp_skip, HQ. by rewrite app_nil_r.
  - apply twp_bind.
    eapply twp_wand; [by apply (Hbody visited x l)| |done].
    intros [] s' tr' HI'. cbv beta in HI'.
    apply (IH (visited ++ [x])); [done| |].
    + intros seen y rest s'' tr''. rewrite <- app_assoc. apply Hbody.
    + intros s'' tr''. rewrite <- app_assoc. apply HQ.
Qed.

Lemma twp_for {A} (I : list A → S → list event → Prop) (l : list A)
    (body : A → Py S unit) Q E s tr :
  I [] s tr →
  (∀ seen x rest s' tr',
     l = seen ++ x :: rest → I seen s' tr' →
     twp (body x) (λ _, I (seen ++ [x])) E s' tr') →
  (∀ s' tr', I l s' tr' → Q tt s' tr') →
  twp (for_ l body) Q E s tr.
Proof. apply (twp_for_from I [] l). Qed.
End TwpRules.

Ltac twp_step :=
  lazymatch goal with
  | |- Trace.twp (mbind _ _) _ _ _ _ => apply twp_bind
  | |- Trace.twp (Py.emit _) _ _ _ _ => apply twp_emit
  | |- Trace.twp (Py.evolve_model _ _ _) _ _ _ _ => apply twp_evolve
  | |- Trace.twp (Py.gets _) _ _ _ _ => apply twp_gets
  | |- Trace.twp (Py.modify _) _ _ _ _ => apply twp_modify
  | |- Trace.twp (Py.raise _) _ _ _ _ => apply twp_raise
  | |- Trace.twp Py.skip _ _ _ _ => apply twp_skip
  | |- Trace.twp (mret _) _ _ _ _ => apply twp_ret
  end.

Ltac twp_run := repeat twp_step.

(** ** Channels *)

Section ParticlesFacts.
Import Particles.

Lemma find_key_Some (k : N) (ps : particles) (q : particle) :
  find_key k ps = Some q → key q = k ∧ q ∈ ps.
Proof.
  unfold find_key. intros H.
  destruct (list_find _ ps) as [[i q']|] eqn:Hf; [|done].
  simpl in H. inversion H; subst.
  apply list_find_Some in Hf as (Hl & Hk & _).
  split; [done|]. by eapply list_elem_of_lookup_2.
Qed.

Lemma key_copy_particle (src : particles) (p : particle) :
  key (copy_particle src p) = key p.
Proof. unfold copy_particle. by destruct (find_key _ _). Qed.

Lemma keys_channel_copy (src dst : particles) :
  keys (channel_copy src dst) = keys dst.
Proof.
  unfold keys, channel_copy. rewrite <- list_fmap_compose.
  apply list_fmap_ext. intros i p _. apply key_copy_particle.
Qed.

Lemma length_channel_copy (src dst : particles) :
  length (channel_copy src dst) = length dst.
Proof. unfold channel_copy. by rewrite length_fmap. Qed.

Lemma aligned_channel_copy (src dst : particles) :
  aligned src dst → aligned src (channel_copy src dst).
Proof. unfold aligned. by rewrite keys_channel_copy. Qed.

Lemma aligned_add_particles (set : particles) :
  aligned (add_particles [] set) set.
Proof. done. Qed.
End ParticlesFacts.

(** The copies the notebooks make are channel copies from the solver's
    particles. *)
Lemma notebook_copies (v : NBody.vars) (tr : list Py.event) :
  NBody.channel_copy_to_bodies v tr
    = Py.Done tt
        (NBody.Vars (NBody.gravity_particles v)
           (Particles.channel_copy (NBody.gravity_particles v) (NBody.bodies v)))
        (tr ++ [Py.Copy Py.gravity "bodies"]).
Proof. done. Qed.

(** C4. After a channel's [copy()] from a solver's particle set to the
    in-memory collection, a particle of the collection whose identity
    the solver holds keeps its place and identity, and each attribute the
    solver has for it equals the solver's value: the old value is replaced,
    whatever it was.  Attributes the solver does not have stay as they
    were. *)
Theorem channel_copy_overwrites (src dst : Particles.particles) (i : nat)
    (p q : Particles.particle) :
  dst !! i = Some p →
  Particles.find_key (Particles.key p) src = Some q →
  ∃ p', Particles.channel_copy src dst !! i = Some p' ∧
        Particles.key p' = Particles.key p ∧
        Particles.key q = Particles.key p ∧
        (∀ a v, Particles.attrs q !! a = Some v →
                Particles.attrs p' !! a = Some v) ∧
        (∀ a, Particles.attrs q !! a = None →
              Particles.attrs p' !! a = Particles.attrs p !! a).
Proof.
  intros Hp Hq. exists (Particles.copy_particle src p).
  unfold Particles.channel_copy. rewrite list_lookup_fmap, Hp.
  split; [done|]. split; [apply key_copy_particle|].
  split; [by apply find_key_Some in Hq as [? _]|].
  unfold Particles.copy_particle. rewrite Hq. simpl. split.
  - intros a v Ha. by apply lookup_union_Some_l.
  - intros a Ha. by apply lookup_union_r.
Qed.

(** A star that SeBa has evolved: the collection held a mass of 3 and no
    temperature. *)
Lemma channel_copy_overwrites_witness :
  let evolved := Particles.Particle 1 {[ "mass" := qc 2 1; "temperature" := qc 5 1 ]} in
  let star := Particles.Particle 1 {[ "mass" := qc 3 1 ]} in
  [star] !! 0%nat = Some star ∧
  Particles.find_key 1 [evolved] = Some evolved ∧
  ∃ p', Particles.channel_copy [evolved] [star] !! 0%nat = Some p' ∧
        Particles.key p' = 1%N ∧
        Particles.key evolved = 1%N ∧
        (∀ a v, Particles.attrs evolved !! a = Some v →
                Particles.attrs p' !! a = Some v) ∧
        (∀ a, Particles.attrs evolved !! a = None →
              Particles.attrs p' !! a = Particles.attrs star !! a).
Proof.
  intros evolved star.
  split; [reflexivity|]. split; [reflexivity|].
  apply (channel_copy_overwrites [evolved] [star] 0 star evolved); reflexivity.
Defined.

(** ** Alignment of the solver's particles and the collection *)

Section AlignmentFacts.
Import Py Particles.

Lemma nbody_iteration_aligned ph4_evolve multiple_of_10 get_binaries
    (keys0 : list N) (time : Qc) (v : NBody.vars) (tr : list event) :
  (∀ t ps ps', ph4_evolve t ps = inr ps' → keys ps' = keys ps) →
  nbody_aligned keys0 v →
  wp (NBody.iteration ph4_evolve multiple_of_10 get_binaries time)
     (λ _ v' _, nbody_aligned keys0 v') (λ _ v' _, nbody_aligned keys0 v')
     v tr.
Proof.
  intros Hev [Hal Hk]. unfold NBody.iteration, NBody.channel_copy_to_bodies.
  wp_run. destruct (ph4_evolve time _) as [e|ps] eqn:Hps; [done|].
  apply Hev in Hps.
  assert (Hinv : nbody_aligned keys0
            (NBody.Vars ps (channel_copy ps (NBody.bodies v)))).
  { split; simpl.
    - apply aligned_channel_copy. unfold aligned in *. congruence.
    - by rewrite keys_channel_copy. }
  wp_run. destruct (multiple_of_10 time); wp_run;
    case_bool_decide; by wp_run.
Qed.

Lemma stellar_iteration_aligned seba_evolve (kkeys skeys : list N)
    (time : Qc) (v : Stellar.vars) (tr : list event) :
  (∀ sv t ps ps', seba_evolve sv t ps = inr ps' → keys ps' = keys ps) →
  stellar_aligned kkeys skeys v →
  wp (Stellar.iteration seba_evolve time)
     (λ _ v' _, stellar_aligned kkeys skeys v')
     (λ _ v' _, stellar_aligned kkeys skeys v') v tr.
Proof.
  intros Hev (Hk & Hs & Hkk & Hsk). unfold Stellar.iteration.
  wp_run. destruct (seba_evolve kstellar time _) as [e|ps] eqn:Hps; [done|].
  apply Hev in Hps. wp_run. simpl.
  destruct (seba_evolve sstellar time _) as [e|ps'] eqn:Hps'.
  - repeat split; simpl; try done.
    + apply aligned_channel_copy. unfold aligned in *. congruence.
    + by rewrite keys_channel_copy.
  - apply Hev in Hps'. wp_run. repeat split; simpl.
    + apply aligned_channel_copy. unfold aligned in *. congruence.
    + apply aligned_channel_copy. unfold aligned in *. congruence.
    + by rewrite keys_channel_copy.
    + by rewrite keys_channel_copy.
Qed.
End AlignmentFacts.

(** C5. A channel copy keeps the number of particles of the collection and
    their identities in order, and a collection that is aligned with the
    solver's particles stays aligned.  In the N-body notebook and in the
    stellar-evolution notebook, where the solvers start empty and an
    [evolve_model] that returns keeps the identities of the solver's
    particles, every pass of the loop keeps solver and collection aligned,
    and so are they when the notebook ends or an exception stops it; the
    collection holds the identities it started with. *)
Theorem copies_stay_aligned :
  (∀ src dst : Particles.particles,
     length (Particles.channel_copy src dst) = length dst ∧
     Particles.keys (Particles.channel_copy src dst) = Particles.keys dst ∧
     (Particles.aligned src dst →
      Particles.aligned src (Particles.channel_copy src dst))) ∧
  (∀ ph4_evolve multiple_of_10 get_binaries with_legend v tr,
     (∀ t ps ps', ph4_evolve t ps = inr ps' →
                  Particles.keys ps' = Particles.keys ps) →
     NBody.gravity_particles v = [] →
     Py.wp (NBody.notebook ph4_evolve multiple_of_10 get_binaries with_legend)
        (λ _ v' _, nbody_aligned (Particles.keys (NBody.bodies v)) v')
        (λ _ v' _, nbody_aligned (Particles.keys (NBody.bodies v)) v') v tr) ∧
  (∀ seba_evolve times v tr,
     (∀ sv t ps ps', seba_evolve sv t ps = inr ps' →
                     Particles.keys ps' = Particles.keys ps) →
     Stellar.kstellar_particles v = [] →
     Stellar.sstellar_particles v = [] →
     Py.wp (Stellar.notebook seba_evolve times)
        (λ _ v' _, stellar_aligned (Particles.keys (Stellar.k_stars v))
                                   (Particles.keys (Stellar.s_stars v)) v')
        (λ _ v' _, stellar_aligned (Particles.keys (Stellar.k_stars v))
                                   (Particles.keys (Stellar.s_stars v)) v')
        v tr).
Proof.
  split; [|split].
  - intros src dst. split; [apply length_channel_copy|].
    split; [apply keys_channel_copy|apply aligned_channel_copy].
  - intros ph4_evolve m10 gb leg v tr Hev Hempty.
    unfold NBody.notebook, NBody.generate_masses, NBody.check_mass_function,
      NBody.make_cluster, NBody.plot_snapshot, NBody.start_gravity,
      NBody.evolution_loop, NBody.final_plots.
    wp_run. destruct leg; wp_run.
    all: apply wp_for with
           (I := λ v' _, nbody_aligned (Particles.keys (NBody.bodies v)) v').
    all: try (intros; by apply nbody_iteration_aligned).
    all: try (intros; by wp_run).
    all: rewrite Hempty; by split.
  - intros seba_evolve times v tr Hev Hk Hs.
    unfold Stellar.notebook, Stellar.make_stars, Stellar.start_kstellar,
      Stellar.start_sstellar, Stellar.start_stellar_code,
      Stellar.evolution_loop, Stellar.final_plots.
    wp_run.
    apply wp_for with
      (I := λ v' _, stellar_aligned (Particles.keys (Stellar.k_stars v))
                                    (Particles.keys (Stellar.s_stars v)) v').
    + simpl. rewrite Hk, Hs. by repeat split.
    + intros. by apply stellar_iteration_aligned.
    + intros. by wp_run.
Qed.

(** A ph4 that moves every particle and keeps the set: from an empty
    solver the N-body notebook keeps [gravity.particles] and [bodies]
    aligned. *)
Lemma copies_stay_aligned_witness :
  let ph4_evolve := λ (t : Qc) (ps : Particles.particles),
    inr ((λ p, Particles.Particle (Particles.key p)
                 (<["x" := t]> (Particles.attrs p))) <$> ps)
    : Py.exn + Particles.particles in
  let v := NBody.Vars [] [Particles.Particle 7 {[ "mass" := qc 1 2 ]};
                          Particles.Particle 4 {[ "mass" := qc 3 1 ]}] in
  (∀ t ps ps', ph4_evolve t ps = inr ps' →
               Particles.keys ps' = Particles.keys ps) ∧
  NBody.gravity_particles v = [] ∧
  Py.wp (NBody.notebook ph4_evolve (λ _, false) (λ _, 0%nat) false)
     (λ _ v' _, nbody_aligned [7%N; 4%N] v')
     (λ _ v' _, nbody_aligned [7%N; 4%N] v') v [].
Proof.
  intros ph4_evolve v.
  assert (Hkeys : ∀ t ps ps', ph4_evolve t ps = inr ps' →
                              Particles.keys ps' = Particles.keys ps).
  { intros t ps ps' H. inversion H. unfold Particles.keys.
    rewrite <- list_fmap_compose. by apply list_fmap_ext. }
  split; [exact Hkeys|]. split; [reflexivity|].
  exact (proj1 (proj2 copies_stay_aligned) ph4_evolve (λ _, false) (λ _, 0%nat)
               false v [] Hkeys eq_refl).
Defined.

(** ** The supernova energy *)

Section SupernovaFacts.
Import Supernova.

Lemma elem_of_select (pred : sph → bool) (gas : list sph) (i : nat) :
  i ∈ select pred gas ↔ ∃ p, gas !! i = Some p ∧ pred p = true.
Proof.
  unfold select. rewrite list_elem_of_fmap. split.
  - intros ([j p] & -> & Hin). apply list_elem_of_filter in Hin as [Hp Hin].
    apply elem_of_lookup_imap in Hin as (k & y & Heq & Hk).
    inversion Heq; subst. by exists y.
  - intros (p & Hi & Hp). exists (i, p). split; [done|].
    apply list_elem_of_filter. split; [done|].
    apply elem_of_lookup_imap. by exists i, p.
Qed.

Lemma inside_spec (R : Qc) (p : sph) :
  inside R p = true ↔ length_squared (position p) < R * R.
Proof. unfold inside. apply bool_decide_eq_true. Qed.

Lemma lookup_iadd_u (delta : Qc) (inner : list nat) (gas : list sph)
    (i : nat) (p : sph) :
  gas !! i = Some p →
  iadd_u delta inner gas !! i
    = Some (if bool_decide (i ∈ inner) then add_u delta p else p).
Proof. intros Hp. unfold iadd_u. by rewrite list_lookup_imap, Hp. Qed.

Lemma total_mass_nil (gas : list sph) : total_mass [] gas = 0.
Proof. done. Qed.

Lemma total_mass_pos (pred : sph → bool) (gas : list sph) :
  Forall (λ p, 0 < mass p) gas →
  select pred gas ≠ [] →
  0 < total_mass (select pred gas) gas.
Proof.
  intros Hpos Hne. unfold total_mass. apply qsum_pos.
  - destruct (select pred gas) as [|i inner] eqn:Hsel; [done|].
    assert (Hi : i ∈ select pred gas) by (rewrite Hsel; set_solver).
    apply elem_of_select in Hi as (p & Hp & _).
    unfold rows. simpl. by rewrite Hp.
  - apply Forall_fmap, Forall_forall. intros p Hp. simpl.
    apply list_elem_of_omap in Hp as (i & _ & Hi).
    rewrite Forall_forall in Hpos. apply Hpos.
    by eapply list_elem_of_lookup_2.
Qed.

Lemma select_snoc (pred : sph → bool) (l : list sph) (x : sph) :
  select pred (l ++ [x])
    = select pred l ++ (if pred x then [length l] else []).
Proof.
  unfold select. rewrite imap_app, filter_app, fmap_app. f_equal. simpl.
  destruct (pred x) eqn:Hx.
  - rewrite filter_cons_True by (simpl; by rewrite Hx).
    simpl. by rewrite Nat.add_0_r.
  - rewrite filter_cons_False by (simpl; by rewrite Hx). done.
Qed.

Lemma select_lt (pred : sph → bool) (gas : list sph) (i : nat) :
  i ∈ select pred gas → (i < length gas)%nat.
Proof.
  intros Hi. apply elem_of_select in Hi as (p & Hp & _).
  by eapply lookup_lt_Some.
Qed.

Lemma rows_app_l (inner : list nat) (l k : list sph) :
  (∀ i, i ∈ inner → (i < length l)%nat) → rows inner (l ++ k) = rows inner l.
Proof.
  unfold rows. induction inner as [|i inner IH]; intros Hlt; [done|].
  csimpl. rewrite lookup_app_l by (apply Hlt; set_solver).
  rewrite IH; [done|]. intros j Hj. apply Hlt. set_solver.
Qed.

(** A subset stands for the particles that meet the selection. *)
Lemma rows_select (pred : sph → bool) (gas : list sph) :
  rows (select pred gas) gas = filter (λ p, pred p = true) gas.
Proof.
  induction gas as [|x l IH] using rev_ind; [done|].
  rewrite select_snoc, filter_app. unfold rows. rewrite omap_app.
  fold (rows (select pred l) (l ++ [x])).
  rewrite rows_app_l by apply select_lt. rewrite IH. f_equal.
  destruct (pred x) eqn:Hx.
  - rewrite filter_cons_True by done. simpl.
    by rewrite lookup_app_r, Nat.sub_diag by lia.
  - rewrite filter_cons_False by (by rewrite Hx). done.
Qed.

Lemma length_select (pred : sph → bool) (gas : list sph) :
  length (select pred gas) = length (filter (λ p, pred p = true) gas).
Proof.
  induction gas as [|x l IH] using rev_ind; [done|].
  rewrite select_snoc, filter_app, !length_app, IH. f_equal.
  destruct (pred x) eqn:Hx.
  - by rewrite filter_cons_True.
  - rewrite filter_cons_False by (by rewrite Hx). done.
Qed.

Lemma inject_result (gas : list sph) (E R : Qc) :
  (inject_supernova_energy gas E R).2
    = if decide (total_mass (select (inside R) gas) gas = 0)
      then match select (inside R) gas with
           | [] => inr gas
           | _ :: _ => inl (if decide (0 < E) then PosInf
                            else if decide (E < 0) then NegInf else NaN)
           end
      else inr (iadd_u (E / total_mass (select (inside R) gas) gas)
                       (select (inside R) gas) gas).
Proof.
  unfold inject_supernova_energy, py_div. simpl.
  by destruct (decide (total_mass _ gas = 0)).
Qed.
End SupernovaFacts.

(** C8. [inject_supernova_energy] selects the particles whose squared
    distance from the origin is strictly below the square of
    [exploding_region]; the mass it divides by is the sum of their masses.
    When that mass is not zero, each selected particle's [u] grows by
    exactly [explosion_energy] over it, its other attributes are
    unchanged, and the particles outside the region are unchanged.  With
    positive masses and at least one particle inside the region the mass
    is not zero.  With no particle inside, the division is over zero: the
    quotient printed is no number, and the call returns with the gas as it
    was. *)
Theorem inject_supernova_energy_frame (gas : list Supernova.sph)
    (explosion_energy exploding_region : Qc) :
  let within := λ p : Supernova.sph,
    Supernova.length_squared (Supernova.position p)
      < exploding_region * exploding_region in
  let inner := Supernova.select (Supernova.inside exploding_region) gas in
  let total := qsum (Supernova.mass <$> filter within gas) in
  let call := Supernova.inject_supernova_energy
                gas explosion_energy exploding_region in
  (∀ i, i ∈ inner ↔ ∃ p, gas !! i = Some p ∧ within p) ∧
  Supernova.total_mass inner gas = total ∧
  (total ≠ 0 →
   ∃ gas', call.2 = inr gas' ∧ length gas' = length gas ∧
     call.1 !! 1%nat
       = Some [Supernova.OStr "Adding";
               Supernova.ONum (explosion_energy / total);
               Supernova.OStr
                 "of supernova (specific internal) energy to each of the n=";
               Supernova.OInt (length (filter within gas));
               Supernova.OStr "SPH particles."] ∧
     ∀ i p, gas !! i = Some p →
       ∃ p', gas' !! i = Some p' ∧
         Supernova.key p' = Supernova.key p ∧
         Supernova.mass p' = Supernova.mass p ∧
         Supernova.position p' = Supernova.position p ∧
         Supernova.velocity p' = Supernova.velocity p ∧
         Supernova.other p' = Supernova.other p ∧
         (within p → Supernova.u p' = Supernova.u p + explosion_energy / total) ∧
         (¬ within p → p' = p)) ∧
  (Forall (λ p, 0 < Supernova.mass p) gas → (∃ p, p ∈ gas ∧ within p) →
   total ≠ 0) ∧
  ((∀ p, p ∈ gas → ¬ within p) →
   total = 0 ∧ call.2 = inr gas ∧
   ∃ x, call.1 !! 1%nat
          = Some [Supernova.OStr "Adding"; Supernova.ONonFinite x;
                  Supernova.OStr
                    "of supernova (specific internal) energy to each of the n=";
                  Supernova.OInt 0; Supernova.OStr "SPH particles."] ∧
        (0 < explosion_energy → x = Supernova.PosInf)).
Proof.
  intros within inner total call.
  assert (Hrows : Supernova.rows inner gas = filter within gas).
  { unfold inner. rewrite rows_select. apply list_filter_iff.
    intros p. apply inside_spec. }
  assert (Hlen : length inner = length (filter within gas)).
  { unfold inner. rewrite length_select. f_equal. apply list_filter_iff.
    intros p. apply inside_spec. }
  assert (Htotal : Supernova.total_mass inner gas = total).
  { unfold Supernova.total_mass, total. by rewrite Hrows. }
  assert (Hsel : ∀ i p, gas !! i = Some p → i ∈ inner ↔ within p).
  { intros i p Hp. unfold inner. rewrite elem_of_select. split.
    - intros (q & Hq & Hin). rewrite Hp in Hq. inversion Hq; subst.
      by apply inside_spec.
    - intros Hin. exists p. split; [done|]. by apply inside_spec. }
  split_and!.
  - intros i. unfold inner. rewrite elem_of_select.
    split; intros (p & Hp & Hin); exists p; (split; [done|]);
      by apply inside_spec.
  - done.
  - intros Hne. unfold call. rewrite inject_result.
    fold inner. rewrite Htotal, decide_False by done.
    eexists. split; [done|]. split.
    { unfold Supernova.iadd_u. by rewrite length_imap. }
    split.
    { unfold Supernova.inject_supernova_energy, Supernova.py_div. simpl.
      fold inner. by rewrite Htotal, decide_False, Hlen by done. }
    intros i p Hp. eexists. split; [by apply lookup_iadd_u|].
    pose proof (Hsel i p Hp) as Hiff.
    case_bool_decide as Hin; simpl; repeat split; try done.
    + intros Hw. destruct Hw. by apply Hiff.
    + intros Hw. destruct Hin. by apply Hiff.
  - intros Hpos (p & Hp & Hw) H0.
    apply list_elem_of_lookup in Hp as [i Hi].
    assert (Hne : inner ≠ []).
    { intros Hnil. apply (Hsel i p Hi) in Hw. rewrite Hnil in Hw.
      by apply elem_of_nil in Hw. }
    pose proof (total_mass_pos _ _ Hpos Hne) as Hlt.
    fold inner in Hlt. rewrite Htotal, H0 in Hlt.
    by apply (Qclt_not_eq 0 0).
  - intros Hnone.
    assert (Hnil : inner = []).
    { apply elem_of_nil_inv. intros i Hi. unfold inner in Hi.
      apply elem_of_select in Hi as (p & Hp & Hin).
      apply (Hnone p); [by eapply list_elem_of_lookup_2|by apply inside_spec]. }
    assert (H0 : total = 0).
    { rewrite <- Htotal, Hnil. apply total_mass_nil. }
    split; [done|]. split.
    + unfold call. rewrite inject_result. fold inner.
      by rewrite Htotal, decide_True, Hnil by done.
    + eexists. unfold call, Supernova.inject_supernova_energy, Supernova.py_div.
      simpl. fold inner. rewrite Htotal, decide_True, Hnil by done.
      split; [done|]. intros Hpos. by rewrite decide_True.
Qed.

(** Three particles of mass 2, at distances 0, 1/2 and 3 from the origin,
    and a region of radius 1: the first two share an energy of 8. *)
Example inject_supernova_energy_example :
  let gas := [ Supernova.Sph 1 (qc 2 1) (0, 0, 0) (0, 0, 0) (qc 5 1) ∅;
               Supernova.Sph 2 (qc 2 1) (qc 1 2, 0, 0) (0, 0, 0) (qc 7 1) ∅;
               Supernova.Sph 3 (qc 2 1) (qc 3 1, 0, 0) (0, 0, 0) (qc 9 1) ∅ ] in
  Supernova.select (Supernova.inside 1) gas = [0; 1]%nat ∧
  Supernova.u <$> (match (Supernova.inject_supernova_energy gas (qc 8 1) 1).2 with
                   | inr gas' => gas'
                   | inl _ => []
                   end)
    = [qc 7 1; qc 9 1; qc 9 1].
Proof. by vm_compute. Qed.

(** A single particle far from the origin: nothing is selected, the
    quotient printed is [inf], the call returns and the gas is as it
    was.  A massless particle at the origin is selected: the call returns
    and the particle's [u] is [inf], no number. *)
Example inject_supernova_energy_over_zero :
  let far := [Supernova.Sph 1 (qc 2 1) (qc 3 1, 0, 0) (0, 0, 0) (qc 9 1) ∅] in
  let massless := [Supernova.Sph 1 0 (0, 0, 0) (0, 0, 0) (qc 9 1) ∅] in
  Supernova.inject_supernova_energy far (qc 8 1) 1
    = ([[Supernova.OInt 0; Supernova.OStr "innermost particles selected."];
        [Supernova.OStr "Adding"; Supernova.ONonFinite Supernova.PosInf;
         Supernova.OStr
           "of supernova (specific internal) energy to each of the n=";
         Supernova.OInt 0; Supernova.OStr "SPH particles."]],
       inr far) ∧
  (Supernova.inject_supernova_energy massless (qc 8 1) 1).2
    = inl Supernova.PosInf ∧
  (Supernova.inject_stored
     ((λ p, Supernova.Stored p None) <$> massless) (qc 8 1) 1).2
    = [Supernova.Stored (Supernova.Sph 1 0 (0, 0, 0) (0, 0, 0) (qc 9 1) ∅)
                        (Some Supernova.PosInf)].
Proof. by vm_compute. Qed.

(** On the gas of the first example the mass inside the region is not
    zero, and the frame property follows. *)
Lemma inject_supernova_energy_frame_witness :
  let gas := [ Supernova.Sph 1 (qc 2 1) (0, 0, 0) (0, 0, 0) (qc 5 1) ∅;
               Supernova.Sph 2 (qc 2 1) (qc 1 2, 0, 0) (0, 0, 0) (qc 7 1) ∅;
               Supernova.Sph 3 (qc 2 1) (qc 3 1, 0, 0) (0, 0, 0) (qc 9 1) ∅ ] in
  let within := λ p : Supernova.sph,
    Supernova.length_squared (Supernova.position p) < 1 * 1 in
  let total := qsum (Supernova.mass <$> filter within gas) in
  total = qc 4 1 ∧ total ≠ 0 ∧
  ∃ gas', (Supernova.inject_supernova_energy gas (qc 8 1) 1).2 = inr gas' ∧
    length gas' = length gas ∧
    (Supernova.inject_supernova_energy gas (qc 8 1) 1).1 !! 1%nat
      = Some [Supernova.OStr "Adding"; Supernova.ONum (qc 8 1 / total);
              Supernova.OStr
                "of supernova (specific internal) energy to each of the n=";
              Supernova.OInt (length (filter within gas));
              Supernova.OStr "SPH particles."] ∧
    ∀ i p, gas !! i = Some p →
      ∃ p', gas' !! i = Some p' ∧
        Supernova.key p' = Supernova.key p ∧
        Supernova.mass p' = Supernova.mass p ∧
        Supernova.position p' = Supernova.position p ∧
        Supernova.velocity p' = Supernova.velocity p ∧
        Supernova.other p' = Supernova.other p ∧
        (within p → Supernova.u p' = Supernova.u p + qc 8 1 / total) ∧
        (¬ within p → p' = p).
Proof.
  intros gas within total.
  assert (Heq : total = qc 4 1) by (by vm_compute).
  assert (Hne : total ≠ 0) by (by vm_compute).
  split; [exact Heq|]. split; [exact Hne|].
  exact (proj1 (proj2 (proj2
           (inject_supernova_energy_frame gas (qc 8 1) 1))) Hne).
Defined.

(** ** The last loop of the supernova notebook *)

Lemma least_search (P : nat → Prop) (m : nat) :
  (∀ n, Decision (P n)) →
  (∀ k, (k < m)%nat → ¬ P k) ∨
  ∃ n, (n < m)%nat ∧ P n ∧ ∀ k, (k < n)%nat → ¬ P k.
Proof.
  intros Hdec. induction m as [|m [IH|(n & Hn & HPn & Hleast)]].
  - left. intros k Hk. lia.
  - destruct (decide (P m)) as [HPm|HPm].
    + right. exists m. split; [lia|done].
    + left. intros k Hk. destruct (decide (k = m)) as [->|]; [done|].
      apply IH. lia.
  - right. exists n. split; [lia|done].
Qed.

Lemma least_below (P : nat → Prop) (m : nat) :
  (∀ n, Decision (P n)) → P m →
  ∃ n, (n ≤ m)%nat ∧ P n ∧ ∀ k, (k < n)%nat → ¬ P k.
Proof.
  intros Hdec Hm. destruct (least_search P m Hdec) as [Hnone|(n & Hn & H)].
  - exists m. split; [lia|done].
  - exists n. split; [lia|done].
Qed.

Section HydroLoop.
Import Py SPH Monitor.
Variable fi_evolve : Qc → hydro → exn + hydro.
Hypothesis fi_evolve_target :
  ∀ t h, ∃ h', fi_evolve t h = inr h' ∧ model_time h' = t.

Lemma hydro_iteration_run (v : vars) (tr : list event) :
  ∃ v', hydro_iteration fi_evolve v tr
          = Done tt v' (tr ++ iteration_events (model_time (fi v))) ∧
        model_time (fi v') = model_time (fi v) + qc 3600 1.
Proof.
  destruct (fi_evolve_target (model_time (fi v) + qc 3600 1) (fi v))
    as (h' & Hev & Ht).
  exists (set_fi h' v). split; [|done].
  unfold hydro_iteration, hydro_evolve, hydro_plot, evolve_model.
  cbv [mbind Py_bind gets emit modify raise]. rewrite Hev.
  unfold iteration_events. by rewrite <- !app_assoc.
Qed.

Lemma hours_succ (t : Qc) (k : nat) :
  t + qc 3600 1 + hours k = t + hours (Datatypes.S k).
Proof. simpl. by rewrite Qcplus_assoc. Qed.

Lemma evolve_count_app (sv : solver) (tr evs : list event) :
  evolve_count sv (tr ++ evs) = (evolve_count sv tr + evolve_count sv evs)%nat.
Proof. unfold evolve_count. by rewrite filter_app, length_app. Qed.

(** The loop runs exactly as many times as hours are missing. *)
Lemma hydro_loop_exact (n fuel : nat) (v : vars) (tr : list event) :
  (n ≤ fuel)%nat →
  (∀ k, (k < n)%nat → model_time (fi v) + hours k < qc 25920 1) →
  ¬ model_time (fi v) + hours n < qc 25920 1 →
  ∃ v' evs, hydro_loop fi_evolve fuel v tr = Done tt v' (tr ++ evs) ∧
            evolve_count hydro_code evs = n ∧
            model_time (fi v') = model_time (fi v) + hours n.
Proof.
  revert fuel v tr. induction n as [|n IH]; intros fuel v tr Hfuel Hlt Hge.
  - exists v, []. simpl in Hge. rewrite Qcplus_0_r in Hge.
    unfold hydro_loop. destruct fuel; simpl;
      rewrite bool_decide_eq_false_2 by done;
      by rewrite app_nil_r, Qcplus_0_r.
  - destruct fuel as [|fuel]; [lia|].
    assert (H0 : model_time (fi v) < qc 25920 1).
    { specialize (Hlt 0%nat). simpl in Hlt. rewrite Qcplus_0_r in Hlt.
      apply Hlt. lia. }
    destruct (hydro_iteration_run v tr) as (v1 & Hrun & Ht1).
    destruct (IH fuel v1 (tr ++ iteration_events (model_time (fi v))))
      as (v' & evs & Hloop & Hcount & Ht').
    + lia.
    + intros k Hk. rewrite Ht1, hours_succ. apply Hlt. lia.
    + by rewrite Ht1, hours_succ.
    + exists v', (iteration_events (model_time (fi v)) ++ evs).
      split; [|split].
      * unfold hydro_loop in *. simpl.
        rewrite bool_decide_eq_true_2 by done. rewrite Hrun, Hloop.
        by rewrite <- app_assoc.
      * rewrite evolve_count_app, Hcount. done.
      * by rewrite Ht', Ht1, hours_succ.
Qed.

Lemma first_runs_run (v : vars) (tr : list event) :
  ∃ v1 evs1, first_runs fi_evolve v tr = Done tt v1 (tr ++ evs1) ∧
             model_time (fi v1) = qc 3600 1.
Proof.
  destruct (fi_evolve_target (qc 10 1) (fi v)) as (h1 & Hev1 & Ht1).
  destruct (fi_evolve_target (qc 60 1) h1) as (h2 & Hev2 & Ht2).
  destruct (fi_evolve_target (qc 3600 1) h2) as (h3 & Hev3 & Ht3).
  exists (set_fi h3 v). eexists. split; [|done].
  unfold first_runs, hydro_evolve, hydro_plot, evolve_model.
  cbv [mbind Py_bind gets emit modify raise]. rewrite Hev1. simpl.
  rewrite Hev2. simpl. rewrite Hev3. simpl.
  rewrite <- !app_assoc. reflexivity.
Qed.
End HydroLoop.

(** C10. The last [while] loop of the supernova notebook terminates.  When
    [evolve_model(t)] returns with [model_time] set to [t], one pass of the
    loop returns with [model_time] exactly one hour later, after one
    [evolve_model] call; from any non-negative [model_time] the loop ends
    after at most 8 passes with [model_time] no longer below 0.3 day
    (25920 s); and in the notebook, where the cells before it leave
    [model_time] at one hour, it makes exactly 7 passes. *)
Theorem hydro_loop_terminates (fi_evolve : Qc → SPH.hydro → Py.exn + SPH.hydro) :
  (∀ t h, ∃ h', fi_evolve t h = inr h' ∧ SPH.model_time h' = t) →
  (∀ v tr, ∃ v' evs,
     SPH.hydro_iteration fi_evolve v tr = Py.Done tt v' (tr ++ evs) ∧
     SPH.model_time (SPH.fi v') = SPH.model_time (SPH.fi v) + qc 3600 1 ∧
     Monitor.evolve_count Py.hydro_code evs = 1%nat) ∧
  (∀ fuel v tr,
     (8 ≤ fuel)%nat → 0 ≤ SPH.model_time (SPH.fi v) →
     ∃ v' evs,
       SPH.hydro_loop fi_evolve fuel v tr = Py.Done tt v' (tr ++ evs) ∧
       (Monitor.evolve_count Py.hydro_code evs ≤ 8)%nat ∧
       ¬ SPH.model_time (SPH.fi v') < qc 25920 1) ∧
  (∀ fuel v tr,
     (7 ≤ fuel)%nat →
     ∃ v1 evs1 v' evs,
       SPH.first_runs fi_evolve v tr = Py.Done tt v1 (tr ++ evs1) ∧
       SPH.model_time (SPH.fi v1) = qc 3600 1 ∧
       SPH.hydro_loop fi_evolve fuel v1 (tr ++ evs1)
         = Py.Done tt v' ((tr ++ evs1) ++ evs) ∧
       Monitor.evolve_count Py.hydro_code evs = 7%nat ∧
       SPH.model_time (SPH.fi v') = qc 28800 1).
Proof.
  intros Htarget. split; [|split].
  - intros v tr.
    destruct (hydro_iteration_run fi_evolve Htarget v tr) as (v' & Hrun & Ht).
    by exists v', (iteration_events (SPH.model_time (SPH.fi v))).
  - intros fuel v tr Hfuel Hnonneg.
    destruct (least_below
                (λ n, ¬ SPH.model_time (SPH.fi v) + SPH.hours n < qc 25920 1) 8)
      as (n & Hn & Hge & Hleast).
    + intros n. apply _.
    + apply Qcle_not_lt. transitivity (0 + SPH.hours 8); [done|].
      by apply Qcplus_le_mono_r.
    + destruct (hydro_loop_exact fi_evolve Htarget n fuel v tr)
        as (v' & evs & Hloop & Hcount & Ht); [lia| |done|].
      * intros k Hk. specialize (Hleast k Hk).
        destruct (decide (SPH.model_time (SPH.fi v) + SPH.hours k < qc 25920 1));
          [done|by exfalso; apply Hleast].
      * exists v', evs. split; [done|]. split; [lia|]. by rewrite Ht.
  - intros fuel v tr Hfuel.
    destruct (first_runs_run fi_evolve Htarget v tr) as (v1 & evs1 & Hrun & Ht1).
    destruct (hydro_loop_exact fi_evolve Htarget 7 fuel v1 (tr ++ evs1))
      as (v' & evs & Hloop & Hcount & Ht); [done| | |].
    + intros k Hk. rewrite Ht1.
      do 7 (destruct k as [|k]; [done|]). lia.
    + by rewrite Ht1.
    + exists v1, evs1, v', evs. repeat split; try done.
      rewrite Ht, Ht1. by apply Qc_is_canon.
Qed.

(** An [evolve_model] that does set the model time to its target. *)
Lemma hydro_loop_terminates_witness :
  let fi_evolve := λ (t : Qc) (h : SPH.hydro),
    inr (SPH.Hydro t (SPH.gas_particles h) (SPH.dm_particles h))
    : Py.exn + SPH.hydro in
  (∀ t h, ∃ h', fi_evolve t h = inr h' ∧ SPH.model_time h' = t) ∧
  (∀ fuel v tr,
     (7 ≤ fuel)%nat →
     ∃ v1 evs1 v' evs,
       SPH.first_runs fi_evolve v tr = Py.Done tt v1 (tr ++ evs1) ∧
       SPH.model_time (SPH.fi v1) = qc 3600 1 ∧
       SPH.hydro_loop fi_evolve fuel v1 (tr ++ evs1)
         = Py.Done tt v' ((tr ++ evs1) ++ evs) ∧
       Monitor.evolve_count Py.hydro_code evs = 7%nat ∧
       SPH.model_time (SPH.fi v') = qc 28800 1).
Proof.
  intros fi_evolve.
  assert (H : ∀ t h, ∃ h', fi_evolve t h = inr h' ∧ SPH.model_time h' = t).
  { intros t h. by eexists. }
  split; [exact H|]. apply (hydro_loop_terminates fi_evolve H).
Defined.

(** ** Exceptions *)

Section TryExcept.
Import Py.
Context {S A : Type}.

Lemma wp_try (globals : gset string) (body : Py S A) (cls : string)
    (handler : exn → Py S A) Q E (s : S) (tr : list event) :
  wp body Q
     (λ e s' tr',
        if bool_decide (cls ∈ globals) then
          if isinstance e cls then wp (handler e) Q E s' tr' else E e s' tr'
        else E NameError s' tr') s tr →
  wp (try_except globals body cls handler) Q E s tr.
Proof.
  unfold wp, try_except. destruct (body s tr) as [a s' tr'|e s' tr'|]; try done.
  destruct (bool_decide (cls ∈ globals)); [|done].
  by destruct (isinstance e cls).
Qed.
End TryExcept.

(** [inject_supernova_energy] in the notebook only prints, then replaces
    the gas particles. *)
Lemma wp_inject (I : list Py.event → Prop) Q E (v : SPH.vars)
    (tr : list Py.event) :
  I tr →
  (∀ tr', I tr' → I (tr' ++ [Py.Print "inject_supernova_energy"])) →
  (∀ v' tr', I tr' → Q tt v' tr') →
  Py.wp SPH.inject Q E v tr.
Proof.
  intros HI Hprint HQ. unfold SPH.inject. wp_run.
  destruct (Supernova.inject_stored _ _ _) as [lines gas'].
  wp_run. apply wp_for with (I := λ v' tr', v' = v ∧ I tr').
  - done.
  - intros _ v' tr' _ [-> HI']. wp_run. split; [done|by apply Hprint].
  - intros v' tr' [-> HI']. wp_run. by apply HQ.
Qed.

(** ** Persistent storage *)

Section WritesFacts.
Import Py Monitor.

Lemma writes_app (tr evs : list event) :
  writes (tr ++ evs) = writes tr ++ writes evs.
Proof. unfold writes. by rewrite filter_app. Qed.

Lemma writes_snoc (tr : list event) (e : event) :
  is_persistent_write e = false → writes (tr ++ [e]) = writes tr.
Proof.
  intros He. rewrite writes_app. unfold writes at 2.
  rewrite filter_cons_False; [by rewrite filter_nil, app_nil_r|].
  by rewrite He.
Qed.

Lemma writes_snoc_pickle (tr : list event) (path : string) (st : star) :
  writes (tr ++ [Pickle path st]) = writes tr ++ [Pickle path st].
Proof. by rewrite writes_app. Qed.
End WritesFacts.

(** The trace assertions of this part are closed by rewriting. *)
Ltac writes_solve :=
  repeat (rewrite writes_snoc by reflexivity); try done.

Section WritesNotebooks.
Import Py Monitor.

Lemma nbody_writes ph4_evolve multiple_of_10 get_binaries with_legend v tr :
  wp (NBody.notebook ph4_evolve multiple_of_10 get_binaries with_legend)
     (λ _ _ tr', writes tr' = writes tr) (λ _ _ tr', writes tr' = writes tr)
     v tr.
Proof.
  unfold NBody.notebook, NBody.generate_masses, NBody.check_mass_function,
    NBody.make_cluster, NBody.plot_snapshot, NBody.start_gravity,
    NBody.evolution_loop, NBody.final_plots.
  wp_run. destruct with_legend; wp_run.
  all: apply wp_for with (I := λ _ tr', writes tr' = writes tr);
    [writes_solve| |intros; wp_run; by writes_solve].
  all: intros t v' tr' _ Hw;
    unfold NBody.iteration, NBody.channel_copy_to_bodies; wp_run;
    destruct (ph4_evolve t _); [by writes_solve|];
    wp_run; destruct (multiple_of_10 t); wp_run;
    case_bool_decide; wp_run; by writes_solve.
Qed.

Lemma stellar_writes seba_evolve times v tr :
  wp (Stellar.notebook seba_evolve times)
     (λ _ _ tr', writes tr' = writes tr) (λ _ _ tr', writes tr' = writes tr)
     v tr.
Proof.
  unfold Stellar.notebook, Stellar.make_stars, Stellar.start_kstellar,
    Stellar.start_sstellar, Stellar.start_stellar_code,
    Stellar.evolution_loop, Stellar.final_plots.
  wp_run.
  apply wp_for with (I := λ _ tr', writes tr' = writes tr);
    [writes_solve| |intros; wp_run; by writes_solve].
  intros t v' tr' _ Hw. unfold Stellar.iteration. wp_run.
  destruct (seba_evolve kstellar t _); [by writes_solve|].
  wp_run. simpl. destruct (seba_evolve sstellar t _); [by writes_solve|].
  wp_run. by writes_solve.
Qed.

Lemma mesa_loop_writes mesa_evolve fuel v tr :
  wp (SPH.mesa_loop mesa_evolve fuel)
     (λ _ _ tr', writes tr' = writes tr) (λ _ _ tr', writes tr' = writes tr)
     v tr.
Proof.
  unfold SPH.mesa_loop.
  apply wp_while with (I := λ _ tr', writes tr' = writes tr); [done| |done].
  intros v' tr' Hw _. unfold SPH.mesa_iteration. wp_run.
  destruct (mesa_evolve _); [by writes_solve|]. wp_run. by writes_solve.
Qed.

Lemma setup_writes globals results_dir mesa_evolve fuel v tr :
  wp (SPH.setup_stellar_evolution_model globals results_dir mesa_evolve fuel)
     (λ path v' tr',
        path = SPH.out_pickle_file results_dir ∧
        writes tr' = writes tr ++ [Pickle path (SPH.mesa_star v')])
     (λ _ _ tr', writes tr' = writes tr) v tr.
Proof.
  unfold SPH.setup_stellar_evolution_model. wp_run. apply wp_try.
  eapply wp_wand; [apply mesa_loop_writes| |].
  - intros [] v' tr' Hw. simpl in Hw. wp_run. split; [done|].
    rewrite writes_snoc by reflexivity. rewrite writes_snoc_pickle, Hw.
    by writes_solve.
  - intros e v' tr' Hw. simpl in Hw.
    case_bool_decide; [|by rewrite Hw; writes_solve].
    destruct (isinstance e "AmuseException"); [|by rewrite Hw; writes_solve].
    wp_run. split; [done|].
    rewrite writes_snoc by reflexivity.
    rewrite writes_snoc_pickle. writes_solve. rewrite Hw. by writes_solve.
Qed.

Lemma sph_notebook_writes globals results_dir mesa_evolve core fi_evolve
    fuel v tr :
  wp (SPH.notebook globals results_dir mesa_evolve core fi_evolve fuel)
     (λ _ _ tr', ∃ st,
        writes tr' = writes tr ++ [Pickle (SPH.out_pickle_file results_dir) st])
     (λ _ _ tr',
        writes tr' = writes tr ∨
        ∃ st, writes tr'
              = writes tr ++ [Pickle (SPH.out_pickle_file results_dir) st])
     v tr.
Proof.
  unfold SPH.notebook. apply wp_bind.
  eapply wp_wand; [apply setup_writes| |by left].
  intros path v1 tr1 [-> Hw]. simpl in Hw.
  set (W := writes tr ++ [Pickle (SPH.out_pickle_file results_dir)
                                 (SPH.mesa_star v1)]) in *.
  apply wp_wand with (Q := λ _ _ tr', writes tr' = W)
                     (E := λ _ _ tr', writes tr' = W);
    [|intros; by eexists|intros; right; by eexists].
  unfold SPH.make_sph_model, SPH.plot_star. wp_run.
  apply wp_inject with (I := λ tr', writes tr' = W).
  { by writes_solve. }
  { intros tr' Hw'. by writes_solve. }
  intros v2 tr2 Hw2. unfold SPH.start_hydro, SPH.first_runs, SPH.hydro_plot,
    SPH.hydro_evolve.
  wp_run_with writes_solve.
  unfold SPH.hydro_loop.
  apply wp_while with (I := λ _ tr', writes tr' = W).
  - by writes_solve.
  - intros v3 tr3 Hw3 _. unfold SPH.hydro_iteration, SPH.hydro_plot,
      SPH.hydro_evolve.
    wp_run_with writes_solve. by writes_solve.
  - intros v3 tr3 Hw3 _. unfold SPH.finish. wp_run. by writes_solve.
Qed.
End WritesNotebooks.

(** C7. Whatever the framework returns, no run of the N-body notebook or
    of the stellar-evolution notebook writes to persistent storage.
    [setup_stellar_evolution_model] writes once when it returns, the
    pickled stellar model of the star MESA holds, and nothing when an
    exception escapes it; a run of the supernova notebook that completes
    has made that one write and no other, and a run that an exception
    stops has made at most that one.  No particle collection is written by
    any notebook. *)
Theorem only_the_stellar_model_is_written :
  (∀ ph4_evolve multiple_of_10 get_binaries with_legend v,
     Py.wp (NBody.notebook ph4_evolve multiple_of_10 get_binaries with_legend)
        (λ _ _ tr, Monitor.writes tr = [])
        (λ _ _ tr, Monitor.writes tr = []) v []) ∧
  (∀ seba_evolve times v,
     Py.wp (Stellar.notebook seba_evolve times)
        (λ _ _ tr, Monitor.writes tr = [])
        (λ _ _ tr, Monitor.writes tr = []) v []) ∧
  (∀ globals results_dir mesa_evolve fuel v,
     Py.wp (SPH.setup_stellar_evolution_model globals results_dir mesa_evolve fuel)
        (λ path v' tr,
           path = SPH.out_pickle_file results_dir ∧
           Monitor.writes tr = [Py.Pickle path (SPH.mesa_star v')])
        (λ _ _ tr, Monitor.writes tr = []) v []) ∧
  (∀ globals results_dir mesa_evolve core fi_evolve fuel v,
     Py.wp (SPH.notebook globals results_dir mesa_evolve core fi_evolve fuel)
        (λ _ _ tr, ∃ st,
           Monitor.writes tr = [Py.Pickle (SPH.out_pickle_file results_dir) st])
        (λ _ _ tr,
           Monitor.writes tr = [] ∨
           ∃ st, Monitor.writes tr
                 = [Py.Pickle (SPH.out_pickle_file results_dir) st])
        v []).
Proof.
  split; [|split; [|split]].
  - intros. apply nbody_writes.
  - intros. apply stellar_writes.
  - intros. apply setup_writes.
  - intros. apply sph_notebook_writes.
Qed.

(** ** The life of a solver *)

Lemma run_snoc_Some {Q} (step : Q → Py.event → option Q) (q0 q q' : Q)
    (tr : list Py.event) (e : Py.event) :
  Py.run step q0 tr = Some q → step q e = Some q' →
  Py.run step q0 (tr ++ [e]) = Some q'.
Proof. intros H He. by rewrite (run_snoc _ _ _ _ _ H). Qed.

(** Reading the events a run added, from the monitor state [H] gives for
    the trace it started with. *)
Ltac run_trace H :=
  lazymatch goal with
  | |- Py.run _ _ (_ ++ [_]) = _ =>
      eapply run_snoc_Some; [run_trace H|lazy; reflexivity]
  | |- _ => exact H
  end.

Ltac elem_solve :=
  simpl;
  repeat first [ apply list_elem_of_here | apply list_elem_of_further ].

Ltac reaches_solve H :=
  eexists; split; [run_trace H|elem_solve].

(** The cases of a monitor state known to lie in a list. *)
Ltac elem_cases H :=
  simpl in H;
  repeat first [ apply elem_of_cons in H as [->|H]
               | by apply elem_of_nil in H ].

Ltac reaches_cases H :=
  let q := fresh "q" in
  let Hrun := fresh "Hrun" in
  let Hin := fresh "Hin" in
  destruct H as (q & Hrun & Hin);
  lazymatch type of q with
  | (_ * unit)%type => destruct q as [? []]
  | _ => idtac
  end;
  elem_cases Hin.

Section LifecycleFacts.
Import Py Monitor.

Lemma nbody_lifecycle (sv : solver) ph4_evolve multiple_of_10 get_binaries
    with_legend v :
  wp (NBody.notebook ph4_evolve multiple_of_10 get_binaries with_legend)
     (λ _ _ tr, follows sv phases tr) (λ _ _ tr, follows sv phases tr) v [].
Proof.
  assert (H0 : run (both (lifecycle sv) call_arguments) (Absent, tt) []
               = Some (Absent, tt)) by done.
  unfold NBody.notebook, NBody.generate_masses, NBody.check_mass_function,
    NBody.make_cluster, NBody.plot_snapshot, NBody.start_gravity,
    NBody.evolution_loop, NBody.final_plots.
  wp_run. destruct with_legend; wp_run.
  all: apply wp_for with
    (I := λ _ tr, follows sv (if bool_decide (sv = gravity)
                              then [Loaded; Advanced] else [Absent]) tr).
  all: try (destruct sv; by reaches_solve H0).
  all: try (intros v' tr' H; wp_run; destruct sv; reaches_cases H;
            by reaches_solve Hrun).
  all: intros t v' tr' _ H; unfold NBody.iteration, NBody.channel_copy_to_bodies.
  all: destruct sv; reaches_cases H.
  all: wp_run_with ltac:(reaches_solve Hrun).
  all: destruct (multiple_of_10 t); wp_run; case_bool_decide; wp_run.
  all: by reaches_solve Hrun.
Qed.

Lemma stellar_lifecycle (sv : solver) seba_evolve times v :
  wp (Stellar.notebook seba_evolve times)
     (λ _ _ tr, follows sv match sv with
                           | kstellar | sstellar => [Stopped]
                           | _ => [Absent]
                           end tr)
     (λ _ _ tr, follows sv phases tr) v [].
Proof.
  assert (H0 : run (both (lifecycle sv) call_arguments) (Absent, tt) []
               = Some (Absent, tt)) by done.
  unfold Stellar.notebook, Stellar.make_stars, Stellar.start_kstellar,
    Stellar.start_sstellar, Stellar.start_stellar_code,
    Stellar.evolution_loop, Stellar.final_plots.
  wp_run.
  apply wp_for with
    (I := λ _ tr, follows sv match sv with
                             | kstellar | sstellar => [Loaded; Advanced]
                             | _ => [Absent]
                             end tr).
  - destruct sv; by reaches_solve H0.
  - intros t v' tr' _ H. unfold Stellar.iteration.
    destruct sv; reaches_cases H.
    all: wp_run_with ltac:(reaches_solve Hrun).
    all: by reaches_solve Hrun.
  - intros v' tr' H. wp_run. destruct sv; reaches_cases H.
    all: by reaches_solve Hrun.
Qed.

Lemma mesa_loop_lifecycle (sv : solver) mesa_evolve fuel v tr :
  follows sv match sv with
             | stellar_evolution => [Loaded; Advanced]
             | _ => [Absent]
             end tr →
  wp (SPH.mesa_loop mesa_evolve fuel)
     (λ _ _ tr', follows sv match sv with
                            | stellar_evolution => [Loaded; Advanced]
                            | _ => [Absent]
                            end tr')
     (λ _ _ tr', follows sv match sv with
                            | stellar_evolution => [Loaded; Advanced]
                            | _ => [Absent]
                            end tr') v tr.
Proof.
  intros H. unfold SPH.mesa_loop.
  apply wp_while with
    (I := λ _ tr', follows sv match sv with
                              | stellar_evolution => [Loaded; Advanced]
                              | _ => [Absent]
                              end tr'); [done| |done].
  intros v' tr' H' _. unfold SPH.mesa_iteration.
  destruct sv; reaches_cases H'.
  all: wp_run_with ltac:(reaches_solve Hrun).
  all: by reaches_solve Hrun.
Qed.

Lemma setup_lifecycle (sv : solver) globals results_dir mesa_evolve fuel v :
  wp (SPH.setup_stellar_evolution_model globals results_dir mesa_evolve fuel)
     (λ _ _ tr, follows sv match sv with
                           | stellar_evolution => [Stopped]
                           | _ => [Absent]
                           end tr)
     (λ _ _ tr, follows sv phases tr) v [].
Proof.
  assert (H0 : run (both (lifecycle sv) call_arguments) (Absent, tt) []
               = Some (Absent, tt)) by done.
  unfold SPH.setup_stellar_evolution_model. wp_run. apply wp_try.
  eapply wp_wand; [apply (mesa_loop_lifecycle sv)| |].
  - destruct sv; by reaches_solve H0.
  - intros [] v' tr' H. wp_run. destruct sv; reaches_cases H.
    all: by reaches_solve Hrun.
  - intros e v' tr' H. simpl in H.
    case_bool_decide; [destruct (isinstance e "AmuseException")|].
    all: wp_run; destruct sv; reaches_cases H.
    all: by reaches_solve Hrun.
Qed.

Lemma sph_lifecycle (sv : solver) globals results_dir mesa_evolve core
    fi_evolve fuel v :
  wp (SPH.notebook globals results_dir mesa_evolve core fi_evolve fuel)
     (λ _ _ tr, follows sv match sv with
                           | stellar_evolution | hydro_code => [Stopped]
                           | _ => [Absent]
                           end tr)
     (λ _ _ tr, follows sv phases tr) v [].
Proof.
  unfold SPH.notebook. apply wp_bind.
  eapply wp_wand; [apply (setup_lifecycle sv)| |done].
  intros path v1 tr1 H. simpl in H.
  unfold SPH.make_sph_model, SPH.plot_star. wp_run.
  apply wp_inject with
    (I := follows sv match sv with
                     | stellar_evolution => [Stopped]
                     | _ => [Absent]
                     end).
  { destruct sv; reaches_cases H; by reaches_solve Hrun. }
  { intros tr' H'. destruct sv; reaches_cases H'; by reaches_solve Hrun. }
  intros v2 tr2 H2. unfold SPH.start_hydro, SPH.first_runs, SPH.hydro_plot,
    SPH.hydro_evolve.
  assert (Hinv : ∀ v' tr',
    follows sv match sv with
               | stellar_evolution => [Stopped]
               | hydro_code => [Advanced]
               | _ => [Absent]
               end tr' →
    wp (SPH.hydro_loop fi_evolve fuel)
       (λ _ v'' tr'',
          wp SPH.finish
             (λ _ _ tr, follows sv match sv with
                                   | stellar_evolution | hydro_code => [Stopped]
                                   | _ => [Absent]
                                   end tr)
             (λ _ _ tr, follows sv phases tr) v'' tr'')
       (λ _ _ tr, follows sv phases tr) v' tr').
  { intros v' tr' H'. unfold SPH.hydro_loop.
    apply wp_while with
      (I := λ _ tr, follows sv match sv with
                               | stellar_evolution => [Stopped]
                               | hydro_code => [Advanced]
                               | _ => [Absent]
                               end tr); [done| |].
    - intros v3 tr3 H3 _. unfold SPH.hydro_iteration, SPH.hydro_plot,
        SPH.hydro_evolve.
      destruct sv; reaches_cases H3.
      all: wp_run_with ltac:(reaches_solve Hrun).
      all: by reaches_solve Hrun.
    - intros v3 tr3 H3 _. unfold SPH.finish. wp_run.
      destruct sv; reaches_cases H3; by reaches_solve Hrun. }
  destruct sv; reaches_cases H2.
  all: wp_run_with ltac:(reaches_solve Hrun).
  all: apply Hinv; by reaches_solve Hrun.
Qed.
End LifecycleFacts.

(** C2, as the notebooks have it.  For every solver object the calls come
    in the order construction, parameters, [add_particles] (with MESA's
    [commit_particles] and the channels), [evolve_model], with copies only
    after an [evolve_model] and nothing after [stop]; this holds for every
    run, also one that an exception stops.  ph4 and Fi are constructed with
    a unit converter, SeBa and MESA without one, and every [evolve_model]
    names a target time except MESA's.  In every run that completes, the
    two SeBa instances, MESA and Fi end stopped. *)
Theorem solver_lifecycle (sv : Py.solver) :
  (∀ ph4_evolve multiple_of_10 get_binaries with_legend v,
     Py.wp (NBody.notebook ph4_evolve multiple_of_10 get_binaries with_legend)
        (λ _ _ tr, Monitor.follows sv Monitor.phases tr)
        (λ _ _ tr, Monitor.follows sv Monitor.phases tr) v []) ∧
  (∀ seba_evolve times v,
     Py.wp (Stellar.notebook seba_evolve times)
        (λ _ _ tr, Monitor.follows sv
                     match sv with
                     | Py.kstellar | Py.sstellar => [Monitor.Stopped]
                     | _ => [Monitor.Absent]
                     end tr)
        (λ _ _ tr, Monitor.follows sv Monitor.phases tr) v []) ∧
  (∀ globals results_dir mesa_evolve core fi_evolve fuel v,
     Py.wp (SPH.notebook globals results_dir mesa_evolve core fi_evolve fuel)
        (λ _ _ tr, Monitor.follows sv
                     match sv with
                     | Py.stellar_evolution | Py.hydro_code => [Monitor.Stopped]
                     | _ => [Monitor.Absent]
                     end tr)
        (λ _ _ tr, Monitor.follows sv Monitor.phases tr) v []).
Proof.
  split; [|split].
  - intros. apply nbody_lifecycle.
  - intros. apply stellar_lifecycle.
  - intros. apply sph_lifecycle.
Qed.

(** A run of the stellar-evolution notebook over one time, with a SeBa
    that leaves its particles as they are, and a call of
    [setup_stellar_evolution_model] with a MESA that reaches 1 Myr in one
    step: neither code is constructed with a unit converter, and MESA's
    [evolve_model] has no target time. *)
Lemma seba_and_mesa_take_no_converter :
  match Stellar.notebook (λ _ _ ps, inr ps) [qc 1 1]
          (Stellar.Vars [] [] [] []) [] with
  | Py.Done _ _ tr =>
      filter (λ e, Monitor.is_construct e = true) tr
        = [Py.Construct Py.kstellar Py.SeBa None;
           Py.Construct Py.sstellar Py.SeBa None]
  | _ => False
  end ∧
  match SPH.setup_stellar_evolution_model SPH.notebook_globals "results"
          (λ st, inr (Py.Star (Py.star_mass st) 1 (Py.star_radius st)
                              (Py.star_type st) 1))
          5
          (SPH.Vars (Py.Star (qc 15 1) 0 (qc 5 1) 1 0) [] (SPH.Hydro 0 [] []))
          [] with
  | Py.Done _ _ tr =>
      filter (λ e, Monitor.is_construct e = true) tr
        = [Py.Construct Py.stellar_evolution Py.MESA None] ∧
      filter (λ e, Monitor.is_evolve Py.stellar_evolution e = true) tr
        = [Py.Evolve Py.stellar_evolution None]
  | _ => False
  end.
Proof. split; [|split]; by vm_compute. Qed.

(** ** The order of the work *)

Section PassFacts.
Import Py Monitor Trace.

Lemma nbody_pass_shape ph4_evolve multiple_of_10 get_binaries time v tr :
  twp (NBody.iteration ph4_evolve multiple_of_10 get_binaries time)
      (λ _ _ tr', ∃ shown, tr' = tr ++ nbody_pass_events time shown ∧
                           outputs shown)
      (λ _ _ tr', tr' = tr ++ [Evolve gravity (Some time)]) v tr.
Proof.
  unfold NBody.iteration, NBody.channel_copy_to_bodies. twp_run.
  destruct (ph4_evolve time _); cbv beta iota; [done|].
  twp_run. destruct (multiple_of_10 time); twp_run;
    case_bool_decide; twp_run;
    (eexists; split;
     [unfold nbody_pass_events; rewrite <- !app_assoc; simpl; reflexivity
     |split; [done|repeat constructor]]).
Qed.

Lemma stellar_pass_shape seba_evolve time v tr :
  twp (Stellar.iteration seba_evolve time)
      (λ _ _ tr', tr' = tr ++ stellar_pass_events time)
      (λ _ _ tr',
         tr' = tr ++ [Evolve kstellar (Some time)] ∨
         tr' = tr ++ [Evolve kstellar (Some time); Copy kstellar "k_stars";
                      Evolve sstellar (Some time)]) v tr.
Proof.
  unfold Stellar.iteration. twp_run.
  destruct (seba_evolve kstellar time _); cbv beta iota; [by left|].
  twp_run. cbn [Stellar.sstellar_particles].
  destruct (seba_evolve sstellar time _); cbv beta iota.
  - right. by rewrite <- !app_assoc.
  - twp_run. unfold stellar_pass_events. by rewrite <- !app_assoc.
Qed.

Lemma mesa_pass_shape mesa_evolve v tr :
  twp (SPH.mesa_iteration mesa_evolve)
      (λ _ _ tr', tr' = tr ++ mesa_pass_events)
      (λ _ _ tr', tr' = tr ++ [Evolve stellar_evolution None]) v tr.
Proof.
  unfold SPH.mesa_iteration. twp_run.
  destruct (mesa_evolve _); cbv beta iota; [done|].
  twp_run. unfold mesa_pass_events. by rewrite <- !app_assoc.
Qed.

Lemma hydro_pass_shape fi_evolve v tr :
  twp (SPH.hydro_iteration fi_evolve)
      (λ _ _ tr', tr' = tr ++ iteration_events (SPH.model_time (SPH.fi v)))
      (λ _ _ tr',
         tr' = tr ++ [Evolve hydro_code
                        (Some (SPH.model_time (SPH.fi v) + qc 3600 1))]) v tr.
Proof.
  unfold SPH.hydro_iteration, SPH.hydro_evolve, SPH.hydro_plot. twp_run.
  destruct (fi_evolve _ _); cbv beta iota; [done|].
  twp_run. unfold iteration_events. by rewrite <- !app_assoc.
Qed.

Lemma quiet_snoc (evs : list event) (e : event) :
  quiet evs → is_step_or_copy e = false → quiet (evs ++ [e]).
Proof. intros H He. apply Forall_app. split; [done|by constructor]. Qed.

Lemma nbody_run_shape ph4_evolve multiple_of_10 get_binaries with_legend v :
  twp (NBody.notebook ph4_evolve multiple_of_10 get_binaries with_legend)
      (λ _ _ tr, ∃ opening shows closing,
         tr = opening
              ++ concat (zip_with nbody_pass_events NBody.times shows)
              ++ closing ∧
         quiet opening ∧ length shows = length NBody.times ∧
         Forall outputs shows ∧ outputs closing)
      (λ _ _ tr, ∃ opening seen t rest shows,
         tr = opening ++ concat (zip_with nbody_pass_events seen shows)
              ++ [Evolve gravity (Some t)] ∧
         NBody.times = seen ++ t :: rest ∧
         quiet opening ∧ length shows = length seen ∧ Forall outputs shows)
      v [].
Proof.
  unfold NBody.notebook, NBody.generate_masses, NBody.check_mass_function,
    NBody.make_cluster, NBody.plot_snapshot, NBody.start_gravity,
    NBody.evolution_loop, NBody.final_plots.
  generalize NBody.times. intros times.
  twp_run. destruct with_legend; twp_run;
    (lazymatch goal with
     | |- twp _ _ _ _ ?tr0 => set (opening := tr0)
     end;
     assert (Hquiet : quiet opening)
       by (unfold opening; repeat (apply quiet_snoc; [|done]); constructor);
     clearbody opening;
     apply twp_for with
       (I := λ seen _ tr', ∃ shows,
          tr' = opening ++ concat (zip_with nbody_pass_events seen shows) ∧
          length shows = length seen ∧ Forall outputs shows);
     [ exists []; by rewrite app_nil_r
     | intros seen t rest v' tr' Htimes (shows & -> & Hlen & Hout);
       eapply twp_wand; [apply nbody_pass_shape| |];
       [ intros [] v'' tr'' (shown & -> & Hshown);
         exists (shows ++ [shown]); split_and!;
         [ rewrite zip_with_app, concat_app by done; simpl;
           by rewrite ?app_nil_r, <- !app_assoc
         | rewrite !length_app; simpl; lia
         | apply Forall_app; split; [done|by constructor] ]
       | intros e v'' tr'' ->; exists opening, seen, t, rest, shows;
         split_and!; try done; by rewrite <- !app_assoc ]
     | intros v' tr' (shows & -> & Hlen & Hout); twp_run;
       exists opening, shows, [Plot "RL25"; Plot "Rvir"; Plot "show"];
       split_and!; try done;
       [ by rewrite <- !app_assoc
       | split; [done|repeat constructor] ] ]).
Qed.

Lemma stellar_run_shape seba_evolve times v :
  twp (Stellar.notebook seba_evolve times)
      (λ _ _ tr, ∃ opening closing,
         tr = opening ++ concat (stellar_pass_events <$> times) ++ closing ∧
         quiet opening ∧ quiet closing)
      (λ _ _ tr, ∃ opening seen t rest,
         (tr = opening ++ concat (stellar_pass_events <$> seen)
               ++ [Evolve kstellar (Some t)] ∨
          tr = opening ++ concat (stellar_pass_events <$> seen)
               ++ [Evolve kstellar (Some t); Copy kstellar "k_stars";
                   Evolve sstellar (Some t)]) ∧
         times = seen ++ t :: rest ∧ quiet opening)
      v [].
Proof.
  unfold Stellar.notebook, Stellar.make_stars, Stellar.start_kstellar,
    Stellar.start_sstellar, Stellar.start_stellar_code,
    Stellar.evolution_loop, Stellar.final_plots.
  twp_run.
  lazymatch goal with
  | |- twp _ _ _ _ ?tr0 => set (opening := tr0)
  end.
  assert (Hquiet : quiet opening)
    by (unfold opening; repeat (apply quiet_snoc; [|done]); constructor).
  clearbody opening.
  apply twp_for with
    (I := λ seen _ tr',
       tr' = opening ++ concat (stellar_pass_events <$> seen)).
  - by rewrite app_nil_r.
  - intros seen t rest v' tr' Htimes ->.
    eapply twp_wand; [apply stellar_pass_shape| |].
    + intros [] v'' tr'' ->. rewrite fmap_app, concat_app. simpl.
      by rewrite ?app_nil_r, <- !app_assoc.
    + intros e v'' tr'' [-> | ->]; exists opening, seen, t, rest;
        (split_and!; [|done|done]); [left|right]; by rewrite <- !app_assoc.
  - intros v' tr' ->. twp_run.
    exists opening,
      [Stop kstellar; Stop sstellar; Print "mean-mass for Kroupa=";
       Print "mean-mass for Salpeter="; Plot "relative mean mass";
       Plot "show"; Plot "temperature-luminosity"; Plot "show"].
    split_and!; [by rewrite <- !app_assoc|done|repeat constructor].
Qed.

(** The passes of the two [while] loops, when the loop ends.  A loop that
    made no pass found its guard false at the start. *)
Lemma mesa_loop_passes mesa_evolve fuel v tr :
  wp (SPH.mesa_loop mesa_evolve fuel)
     (λ _ _ tr', ∃ n,
        tr' = tr ++ concat (replicate n mesa_pass_events) ∧
        (n = 0%nat → ¬ star_model_time (SPH.mesa_star v) < qc 12 100))
     (λ _ _ tr', ∃ n,
        tr' = tr ++ concat (replicate n mesa_pass_events)
              ++ [Evolve stellar_evolution None])
     v tr.
Proof.
  unfold SPH.mesa_loop.
  apply wp_while with
    (I := λ v' tr', ∃ n,
       tr' = tr ++ concat (replicate n mesa_pass_events) ∧
       (n = 0%nat → v' = v)).
  - exists 0%nat. by rewrite app_nil_r.
  - intros v' tr' (n & -> & Hn) _. apply twp_wp.
    eapply twp_wand; [apply mesa_pass_shape| |].
    + intros [] v'' tr'' ->. exists (Datatypes.S n). split; [|done].
      rewrite replicate_S_end, concat_app. simpl.
      by rewrite ?app_nil_r, <- !app_assoc.
    + intros e v'' tr'' ->. exists n. by rewrite <- !app_assoc.
  - intros v' tr' (n & -> & Hn) Hguard. exists n. split; [done|].
    intros H0. rewrite <- (Hn H0). by apply bool_decide_eq_false in Hguard.
Qed.

Lemma hydro_loop_passes fi_evolve fuel v tr :
  wp (SPH.hydro_loop fi_evolve fuel)
     (λ _ _ tr', ∃ ts,
        tr' = tr ++ concat (iteration_events <$> ts) ∧
        (ts = [] → ¬ SPH.model_time (SPH.fi v) < qc 25920 1))
     (λ _ _ tr', ∃ ts t,
        tr' = tr ++ concat (iteration_events <$> ts)
              ++ [Evolve hydro_code (Some (t + qc 3600 1))])
     v tr.
Proof.
  unfold SPH.hydro_loop.
  apply wp_while with
    (I := λ v' tr', ∃ ts,
       tr' = tr ++ concat (iteration_events <$> ts) ∧
       (ts = [] → v' = v)).
  - exists []. by rewrite app_nil_r.
  - intros v' tr' (ts & -> & Hts) _. apply twp_wp.
    eapply twp_wand; [apply hydro_pass_shape| |].
    + intros [] v'' tr'' ->. exists (ts ++ [SPH.model_time (SPH.fi v')]).
      split; [|by intros [_ [=]]%app_nil].
      rewrite fmap_app, concat_app. simpl.
      by rewrite ?app_nil_r, <- !app_assoc.
    + intros e v'' tr'' ->. exists ts, (SPH.model_time (SPH.fi v')).
      by rewrite <- !app_assoc.
  - intros v' tr' (ts & -> & Hts) Hguard. exists ts. split; [done|].
    intros H0. rewrite <- (Hts H0). by apply bool_decide_eq_false in Hguard.
Qed.
End PassFacts.

Section LinearOrderFacts.
Import Py Monitor.

Lemma nbody_linear ph4_evolve multiple_of_10 get_binaries with_legend v :
  wp (NBody.notebook ph4_evolve multiple_of_10 get_binaries with_legend)
     (λ _ _ tr, ordered_and_shown tr) (λ _ _ tr, accepted tr) v [].
Proof.
  assert (H0 : run linear_order start [] = Some start) by done.
  unfold NBody.notebook, NBody.generate_masses, NBody.check_mass_function,
    NBody.make_cluster, NBody.plot_snapshot, NBody.start_gravity,
    NBody.evolution_loop, NBody.final_plots.
  wp_run. destruct with_legend; wp_run.
  all: apply wp_for with
    (I := λ _ tr, ordered [nbody_progress []; nbody_progress [gravity]] tr).
  all: try by reaches_solve H0.
  all: try (intros v' tr' H; wp_run; reaches_cases H; by reaches_solve Hrun).
  all: intros t v' tr' _ H; unfold NBody.iteration, NBody.channel_copy_to_bodies.
  all: reaches_cases H.
  all: wp_run_with ltac:(reaches_solve Hrun).
  all: destruct (multiple_of_10 t); wp_run; case_bool_decide; wp_run.
  all: by reaches_solve Hrun.
Qed.

Lemma stellar_linear seba_evolve times v :
  wp (Stellar.notebook seba_evolve times)
     (λ _ _ tr, ordered_and_shown tr) (λ _ _ tr, accepted tr) v [].
Proof.
  assert (H0 : run linear_order start [] = Some start) by done.
  unfold Stellar.notebook, Stellar.make_stars, Stellar.start_kstellar,
    Stellar.start_sstellar, Stellar.start_stellar_code,
    Stellar.evolution_loop, Stellar.final_plots.
  wp_run.
  apply wp_for with
    (I := λ _ tr, ordered [stellar_progress [];
                           stellar_progress [sstellar; kstellar]] tr).
  - by reaches_solve H0.
  - intros t v' tr' _ H. unfold Stellar.iteration. reaches_cases H.
    all: wp_run_with ltac:(reaches_solve Hrun).
    all: by reaches_solve Hrun.
  - intros v' tr' H. wp_run. reaches_cases H; by reaches_solve Hrun.
Qed.

Lemma setup_linear globals results_dir mesa_evolve fuel v :
  wp (SPH.setup_stellar_evolution_model globals results_dir mesa_evolve fuel)
     (λ _ _ tr, ordered [mesa_progress [] true;
                         mesa_progress [stellar_evolution] true] tr)
     (λ _ _ tr, accepted tr) v [].
Proof.
  assert (H0 : run linear_order start [] = Some start) by done.
  unfold SPH.setup_stellar_evolution_model. wp_run. apply wp_try.
  unfold SPH.mesa_loop.
  apply wp_while with
    (I := λ _ tr, ordered [mesa_progress [] true;
                           mesa_progress [stellar_evolution] true] tr).
  - by reaches_solve H0.
  - intros v' tr' H _. unfold SPH.mesa_iteration. reaches_cases H.
    all: apply wp_bind, wp_evolve.
    all: destruct (mesa_evolve _); [|wp_run; by reaches_solve Hrun].
    all: case_bool_decide; [destruct (isinstance e "AmuseException")|].
    all: wp_run; by reaches_solve Hrun.
  - intros v' tr' H _. wp_run. reaches_cases H; by reaches_solve Hrun.
Qed.

Lemma sph_linear globals results_dir mesa_evolve core fi_evolve fuel v :
  wp (SPH.notebook globals results_dir mesa_evolve core fi_evolve fuel)
     (λ _ _ tr, ordered_and_shown tr) (λ _ _ tr, accepted tr) v [].
Proof.
  unfold SPH.notebook. apply wp_bind.
  eapply wp_wand; [apply setup_linear| |done].
  intros path v1 tr1 H. simpl in H.
  unfold SPH.make_sph_model, SPH.plot_star. wp_run.
  apply wp_inject with
    (I := ordered [model_progress []; model_progress [stellar_evolution]]).
  { reaches_cases H; by reaches_solve Hrun. }
  { intros tr' H'. reaches_cases H'; by reaches_solve Hrun. }
  intros v2 tr2 H2. unfold SPH.start_hydro, SPH.first_runs, SPH.hydro_plot,
    SPH.hydro_evolve.
  assert (Hinv : ∀ v' tr',
    ordered [hydro_progress [hydro_code; stellar_evolution] [hydro_code];
             hydro_progress [hydro_code; stellar_evolution]
                            [hydro_code; stellar_evolution]] tr' →
    wp (SPH.hydro_loop fi_evolve fuel)
       (λ _ v'' tr'',
          wp SPH.finish (λ _ _ tr, ordered_and_shown tr)
             (λ _ _ tr, accepted tr) v'' tr'')
       (λ _ _ tr, accepted tr) v' tr').
  { intros v' tr' H'. unfold SPH.hydro_loop.
    apply wp_while with
      (I := λ _ tr,
         ordered [hydro_progress [hydro_code; stellar_evolution] [hydro_code];
                  hydro_progress [hydro_code; stellar_evolution]
                                 [hydro_code; stellar_evolution]] tr);
      [done| |].
    - intros v3 tr3 H3 _. unfold SPH.hydro_iteration, SPH.hydro_plot,
        SPH.hydro_evolve.
      reaches_cases H3.
      all: wp_run_with ltac:(reaches_solve Hrun).
      all: by reaches_solve Hrun.
    - intros v3 tr3 H3 _. unfold SPH.finish. wp_run.
      reaches_cases H3; by reaches_solve Hrun. }
  reaches_cases H2.
  all: wp_run_with ltac:(reaches_solve Hrun).
  all: apply Hinv; by reaches_solve Hrun.
Qed.
End LinearOrderFacts.

(** The monitors do reject the orders they are meant to exclude:
    particles handed over before they were built, a solver advanced
    before it was loaded. *)
Example monitors_reject :
  Py.run Monitor.linear_order Monitor.start
    [Py.AddParticles Py.gravity "bodies"; Py.Build "new_king_model" ["bodies"]]
    = None ∧
  Py.run (Monitor.lifecycle Py.gravity) Monitor.Absent
    [Py.Construct Py.gravity Py.ph4 (Some "converter");
     Py.Evolve Py.gravity (Some 1)] = None.
Proof. by vm_compute. Qed.

(** The stages do accept a script that is linear. *)
Example literal_order_accepts :
  Py.run Monitor.literal_order Monitor.Building
    [Py.Build "new_king_model" ["bodies"];
     Py.Construct Py.gravity Py.ph4 (Some "converter");
     Py.AddParticles Py.gravity "bodies";
     Py.Evolve Py.gravity (Some 1); Py.Copy Py.gravity "bodies";
     Py.Plot "show"] = Some Monitor.Running.
Proof. by vm_compute. Qed.

(** C6, as the notebooks have it.  Every pass of the N-body loop is the
    [evolve_model] call, then the channel copy, then only diagnostics and
    prints; every pass of the stellar-evolution loop is, for [kstellar]
    and then for [sstellar], the [evolve_model] call and then its copy,
    and the diagnostic last.  A pass in which [evolve_model] raises ends
    with that call: no copy and no diagnostic follows.  The passes of
    MESA's loop and of the last Fi loop are the [evolve_model] call
    followed by prints and plots, with no channel copy.  With the
    framework's other calls returning, a run of the N-body or of the
    stellar-evolution notebook always ends, and is: calls
    among which nothing is stepped or copied, then one pass per time, in
    the order of the times, then again calls among which nothing is
    stepped or copied; a run that an exception ends stops in such a pass.
    The two [while] loops make whole passes only, at least one unless the
    guard was false at the start.  Over a whole notebook the order holds
    as precedence: particles are handed to a solver only after they were
    built, a solver is advanced only after it received particles, a copy
    is made only from a solver that was advanced, and a run that completes
    ends with a diagnostic, print or plot after its last step or copy. *)
Theorem work_is_sequential :
  (∀ ph4_evolve multiple_of_10 get_binaries time v tr,
     Trace.twp (NBody.iteration ph4_evolve multiple_of_10 get_binaries time)
       (λ _ _ tr', ∃ shown, tr' = tr ++ nbody_pass_events time shown ∧
                            outputs shown)
       (λ _ _ tr', tr' = tr ++ [Py.Evolve Py.gravity (Some time)]) v tr) ∧
  (∀ seba_evolve time v tr,
     Trace.twp (Stellar.iteration seba_evolve time)
       (λ _ _ tr', tr' = tr ++ stellar_pass_events time)
       (λ _ _ tr',
          tr' = tr ++ [Py.Evolve Py.kstellar (Some time)] ∨
          tr' = tr ++ [Py.Evolve Py.kstellar (Some time);
                       Py.Copy Py.kstellar "k_stars";
                       Py.Evolve Py.sstellar (Some time)]) v tr) ∧
  (∀ mesa_evolve v tr,
     Trace.twp (SPH.mesa_iteration mesa_evolve)
       (λ _ _ tr', tr' = tr ++ mesa_pass_events)
       (λ _ _ tr', tr' = tr ++ [Py.Evolve Py.stellar_evolution None]) v tr) ∧
  (∀ fi_evolve v tr,
     Trace.twp (SPH.hydro_iteration fi_evolve)
       (λ _ _ tr', tr' = tr ++ iteration_events (SPH.model_time (SPH.fi v)))
       (λ _ _ tr',
          tr' = tr ++ [Py.Evolve Py.hydro_code
                         (Some (SPH.model_time (SPH.fi v) + qc 3600 1))])
       v tr) ∧
  (∀ ph4_evolve multiple_of_10 get_binaries with_legend v,
     Trace.twp (NBody.notebook ph4_evolve multiple_of_10 get_binaries with_legend)
       (λ _ _ tr, ∃ opening shows closing,
          tr = opening
               ++ concat (zip_with nbody_pass_events NBody.times shows)
               ++ closing ∧
          quiet opening ∧ length shows = length NBody.times ∧
          Forall outputs shows ∧ outputs closing)
       (λ _ _ tr, ∃ opening seen t rest shows,
          tr = opening ++ concat (zip_with nbody_pass_events seen shows)
               ++ [Py.Evolve Py.gravity (Some t)] ∧
          NBody.times = seen ++ t :: rest ∧
          quiet opening ∧ length shows = length seen ∧ Forall outputs shows)
       v []) ∧
  (∀ seba_evolve times v,
     Trace.twp (Stellar.notebook seba_evolve times)
       (λ _ _ tr, ∃ opening closing,
          tr = opening ++ concat (stellar_pass_events <$> times) ++ closing ∧
          quiet opening ∧ quiet closing)
       (λ _ _ tr, ∃ opening seen t rest,
          (tr = opening ++ concat (stellar_pass_events <$> seen)
                ++ [Py.Evolve Py.kstellar (Some t)] ∨
           tr = opening ++ concat (stellar_pass_events <$> seen)
                ++ [Py.Evolve Py.kstellar (Some t);
                    Py.Copy Py.kstellar "k_stars";
                    Py.Evolve Py.sstellar (Some t)]) ∧
          times = seen ++ t :: rest ∧ quiet opening)
       v []) ∧
  (∀ mesa_evolve fuel v tr,
     Py.wp (SPH.mesa_loop mesa_evolve fuel)
       (λ _ _ tr', ∃ n,
          tr' = tr ++ concat (replicate n mesa_pass_events) ∧
          (n = 0%nat → ¬ Py.star_model_time (SPH.mesa_star v) < qc 12 100))
       (λ _ _ tr', ∃ n,
          tr' = tr ++ concat (replicate n mesa_pass_events)
                ++ [Py.Evolve Py.stellar_evolution None])
       v tr) ∧
  (∀ fi_evolve fuel v tr,
     Py.wp (SPH.hydro_loop fi_evolve fuel)
       (λ _ _ tr', ∃ ts,
          tr' = tr ++ concat (iteration_events <$> ts) ∧
          (ts = [] → ¬ SPH.model_time (SPH.fi v) < qc 25920 1))
       (λ _ _ tr', ∃ ts t,
          tr' = tr ++ concat (iteration_events <$> ts)
                ++ [Py.Evolve Py.hydro_code (Some (t + qc 3600 1))])
       v tr) ∧
  (∀ ph4_evolve multiple_of_10 get_binaries with_legend v,
     Py.wp (NBody.notebook ph4_evolve multiple_of_10 get_binaries with_legend)
        (λ _ _ tr, ordered_and_shown tr) (λ _ _ tr, accepted tr) v []) ∧
  (∀ seba_evolve times v,
     Py.wp (Stellar.notebook seba_evolve times)
        (λ _ _ tr, ordered_and_shown tr) (λ _ _ tr, accepted tr) v []) ∧
  (∀ globals results_dir mesa_evolve core fi_evolve fuel v,
     Py.wp (SPH.notebook globals results_dir mesa_evolve core fi_evolve fuel)
        (λ _ _ tr, ordered_and_shown tr) (λ _ _ tr, accepted tr) v []).
Proof.
  split_and!; intros.
  - apply nbody_pass_shape.
  - apply stellar_pass_shape.
  - apply mesa_pass_shape.
  - apply hydro_pass_shape.
  - apply nbody_run_shape.
  - apply stellar_run_shape.
  - apply mesa_loop_passes.
  - apply hydro_loop_passes.
  - apply nbody_linear.
  - apply stellar_linear.
  - apply sph_linear.
Qed.

(** The notebooks do not follow the stages build, hand to solver, step,
    copy back, plot or print.  A run of the stellar-evolution notebook
    over one time, with a SeBa that leaves its particles as they are: the
    mean masses are printed and the mass functions plotted before SeBa is
    constructed.  A run of the N-body notebook in which ph4 raises at
    once: [plot_cdf] is called before the King model is built. *)
Lemma output_comes_before_the_solvers :
  match Stellar.notebook (λ _ _ ps, inr ps) [qc 1 1]
          (Stellar.Vars [] [] [] []) [] with
  | Py.Done _ _ tr =>
      Py.run Monitor.literal_order Monitor.Building tr = None ∧
      take 10 tr
        = [Py.Build "new_kroupa_mass_distribution" ["mkroupa"];
           Py.Build "Particles" ["k_stars"];
           Py.Build "new_salpeter_mass_distribution" ["msalpeter"];
           Py.Build "Particles" ["s_stars"];
           Py.Print "mean-mass for Kroupa=";
           Py.Print "mean-mass for Salpeter=";
           Py.Plot "Kroupa IMF"; Py.Plot "Salpeter IMF"; Py.Plot "show";
           Py.Construct Py.kstellar Py.SeBa None]
  | _ => False
  end ∧
  match NBody.notebook (λ _ _, inl (Py.Exn ["Exception"; "BaseException"]))
          (λ _, false) (λ _, 0%nat) false (NBody.Vars [] []) [] with
  | Py.Raised _ _ tr =>
      Py.run Monitor.literal_order Monitor.Building tr = None ∧
      take 4 tr
        = [Py.Build "new_powerlaw_mass_distribution" ["m_stars"];
           Py.Plot "plot_cdf";
           Py.Build "nbody_to_si" ["converter"];
           Py.Build "new_king_model" ["bodies"]]
  | _ => False
  end.
Proof. split; by vm_compute. Qed.

(** ** Recovery of the stellar model *)

Section SetupFacts.
Import Py Monitor SPH.
Variable globals : gset string.
Variable results_dir : string.
Variable mesa_evolve : star → exn + star.

Lemma set_star_same (v : vars) : set_star (mesa_star v) v = v.
Proof. by destruct v. Qed.

Lemma set_star_twice (st st' : star) (v : vars) :
  set_star st (set_star st' v) = set_star st v.
Proof. done. Qed.

Lemma evolve_count_snoc_other (sv : solver) (tr : list event) (e : event) :
  is_evolve sv e = false → evolve_count sv (tr ++ [e]) = evolve_count sv tr.
Proof.
  intros He. unfold evolve_count. rewrite filter_app, length_app.
  rewrite filter_cons_False by (by rewrite He). simpl. lia.
Qed.

Lemma mesa_iteration_run (v : vars) (tr : list event) :
  mesa_iteration mesa_evolve v tr
    = match mesa_evolve (mesa_star v) with
      | inl e => Raised e v (tr ++ [Evolve stellar_evolution None])
      | inr st =>
          Done tt (set_star st v)
               ((tr ++ [Evolve stellar_evolution None]) ++ [Print "star:"])
      end.
Proof.
  unfold mesa_iteration, evolve_model.
  cbv [mbind Py_bind gets emit modify raise].
  by destruct (mesa_evolve (mesa_star v)).
Qed.

Lemma mesa_loop_succ (fuel : nat) (v : vars) (tr : list event) :
  mesa_loop mesa_evolve (Datatypes.S fuel) v tr
    = if bool_decide (star_model_time (mesa_star v) < qc 12 100) then
        match mesa_iteration mesa_evolve v tr with
        | Done _ v' tr' => mesa_loop mesa_evolve fuel v' tr'
        | Raised e v' tr' => Raised e v' tr'
        | Diverged => Diverged
        end
      else Done tt v tr.
Proof. done. Qed.

(** The loop in the program does what MESA does call by call. *)
Lemma mesa_loop_run (fuel : nat) (v : vars) (tr : list event) :
  match mesa_run mesa_evolve fuel (mesa_star v) with
  | Completed st n =>
      ∃ evs, mesa_loop mesa_evolve fuel v tr = Done tt (set_star st v) (tr ++ evs) ∧
             evolve_count stellar_evolution evs = n ∧ writes evs = []
  | Failed e st n =>
      ∃ evs, mesa_loop mesa_evolve fuel v tr = Raised e (set_star st v) (tr ++ evs) ∧
             evolve_count stellar_evolution evs = n ∧ writes evs = [] ∧
             last evs = Some (Evolve stellar_evolution None)
  | NoFuel => mesa_loop mesa_evolve fuel v tr = Diverged
  end.
Proof.
  revert v tr. induction fuel as [|fuel IH]; intros v tr.
  - unfold mesa_loop. simpl. case_bool_decide; [done|].
    exists []. by rewrite app_nil_r, set_star_same.
  - rewrite mesa_loop_succ, mesa_iteration_run. simpl.
    case_bool_decide as Hlt.
    2:{ exists []. by rewrite app_nil_r, set_star_same. }
    destruct (mesa_evolve (mesa_star v)) as [e|st'] eqn:Hev.
    + exists [Evolve stellar_evolution None]. by rewrite set_star_same.
    + specialize (IH (set_star st' v)
                     ((tr ++ [Evolve stellar_evolution None]) ++ [Print "star:"])).
      simpl in IH.
      destruct (mesa_run mesa_evolve fuel st') as [st'' n|e st'' n|].
      * destruct IH as (evs & Hloop & Hn & Hw).
        exists ([Evolve stellar_evolution None; Print "star:"] ++ evs).
        rewrite Hloop. rewrite <- !app_assoc. split; [done|].
        split; [|done]. rewrite evolve_count_app. by rewrite Hn.
      * destruct IH as (evs & Hloop & Hn & Hw & Hlast).
        exists ([Evolve stellar_evolution None; Print "star:"] ++ evs).
        rewrite Hloop. rewrite <- !app_assoc. split; [done|].
        split; [rewrite evolve_count_app; by rewrite Hn|].
        split; [done|]. rewrite last_app, Hlast. done.
      * done.
Qed.

(** The function around the loop. *)
Lemma setup_unfold (fuel : nat) (v : vars) :
  setup_stellar_evolution_model globals results_dir mesa_evolve fuel v []
    = match try_except globals (mesa_loop mesa_evolve fuel) "AmuseException"
              (λ _, emit (Print "Evolved star to") ;; emit (Print "Radius:"))
              v setup_prefix with
      | Done _ v' tr' =>
          Done (out_pickle_file results_dir) v'
               ((tr' ++ [Pickle (out_pickle_file results_dir) (mesa_star v')])
                     ++ [Stop stellar_evolution])
      | Raised e v' tr' => Raised e v' tr'
      | Diverged => Diverged
      end.
Proof.
  unfold setup_stellar_evolution_model, setup_prefix.
  cbv [mbind Py_bind gets emit mret Py_ret]. simpl.
  by destruct (try_except _ _ _ _ _ _).
Qed.
End SetupFacts.

Section SetupTheorem.
Import Py Monitor SPH.

Lemma setup_prefix_counts :
  writes setup_prefix = [] ∧ evolve_count stellar_evolution setup_prefix = 0%nat.
Proof. done. Qed.

Lemma setup_by_cases globals results_dir mesa_evolve fuel v :
  let path := out_pickle_file results_dir in
  let result :=
    setup_stellar_evolution_model globals results_dir mesa_evolve fuel v [] in
  match mesa_run mesa_evolve fuel (mesa_star v) with
  | Completed st n =>
      ∃ tr, result = Done path (set_star st v) tr ∧
            writes tr = [Pickle path st] ∧
            evolve_count stellar_evolution tr = n
  | Failed e st n =>
      if isinstance e "AmuseException" then
        "AmuseException" ∈ globals →
        ∃ tr, result = Done path (set_star st v) tr ∧
              writes tr = [Pickle path st] ∧
              evolve_count stellar_evolution tr = n
      else
        ∃ tr, result = Raised (if bool_decide ("AmuseException" ∈ globals)
                               then e else NameError) (set_star st v) tr ∧
              writes tr = [] ∧
              evolve_count stellar_evolution tr = n
  | NoFuel => result = Diverged
  end.
Proof.
  intros path result. unfold result. rewrite setup_unfold. unfold try_except.
  pose proof (mesa_loop_run mesa_evolve fuel v setup_prefix) as Hrun.
  destruct setup_prefix_counts as [Hw0 Hc0].
  destruct (mesa_run mesa_evolve fuel (mesa_star v)) as [st n|e st n|].
  - destruct Hrun as (evs & -> & Hn & Hw). eexists. split; [done|].
    rewrite !writes_app, !evolve_count_app, Hw0, Hc0, Hw, Hn. simpl.
    split; [done|]. unfold evolve_count. simpl. lia.
  - destruct Hrun as (evs & -> & Hn & Hw & _).
    destruct (isinstance e "AmuseException") eqn:Hisa.
    + intros Hbound. rewrite bool_decide_eq_true_2 by done.
      cbv [mbind Py_bind emit]. eexists. split; [done|].
      rewrite !writes_app, !evolve_count_app, Hw0, Hc0, Hw, Hn. simpl.
      split; [done|]. unfold evolve_count. simpl. lia.
    + eexists. split.
      * by destruct (bool_decide ("AmuseException" ∈ globals)).
      * by rewrite !writes_app, !evolve_count_app, Hw0, Hc0, Hw, Hn.
  - by rewrite Hrun.
Qed.
End SetupTheorem.

(** C1, as the code has it.  The [while] loop of
    [setup_stellar_evolution_model] sits in a [try] whose handler names the
    class [AmuseException].  When the loop ends normally the function
    pickles the star MESA then holds and returns the pickle-file path.  When
    [evolve_model] raises an exception that is not an instance of
    [AmuseException], the handler does not catch it: an exception escapes
    the function and nothing is pickled.  When it raises an instance of
    [AmuseException] and that name is bound where the function runs, the
    handler catches it and the function pickles the last star before the
    failure and returns the path.  In every case [evolve_model] is called
    exactly as often as MESA was asked, so never again after it raised.
    The loops of the other notebooks have no handler: an exception of
    their [evolve_model] ends the pass. *)
Theorem setup_recovers_last_model :
  (∀ globals results_dir mesa_evolve fuel v,
     let path := SPH.out_pickle_file results_dir in
     let result :=
       SPH.setup_stellar_evolution_model globals results_dir mesa_evolve fuel v [] in
     match SPH.mesa_run mesa_evolve fuel (SPH.mesa_star v) with
     | SPH.Completed st n =>
         ∃ tr, result = Py.Done path (SPH.set_star st v) tr ∧
               Monitor.writes tr = [Py.Pickle path st] ∧
               Monitor.evolve_count Py.stellar_evolution tr = n
     | SPH.Failed e st n =>
         if Py.isinstance e "AmuseException" then
           "AmuseException" ∈ globals →
           ∃ tr, result = Py.Done path (SPH.set_star st v) tr ∧
                 Monitor.writes tr = [Py.Pickle path st] ∧
                 Monitor.evolve_count Py.stellar_evolution tr = n
         else
           ∃ tr, result = Py.Raised (if bool_decide ("AmuseException" ∈ globals)
                                     then e else Py.NameError)
                                    (SPH.set_star st v) tr ∧
                 Monitor.writes tr = [] ∧
                 Monitor.evolve_count Py.stellar_evolution tr = n
     | SPH.NoFuel => result = Py.Diverged
     end) ∧
  (∀ ph4_evolve multiple_of_10 get_binaries time v tr e,
     ph4_evolve time (NBody.gravity_particles v) = inl e →
     NBody.iteration ph4_evolve multiple_of_10 get_binaries time v tr
       = Py.Raised e v (tr ++ [Py.Evolve Py.gravity (Some time)])) ∧
  (∀ seba_evolve time v tr e,
     seba_evolve Py.kstellar time (Stellar.kstellar_particles v) = inl e →
     Stellar.iteration seba_evolve time v tr
       = Py.Raised e v (tr ++ [Py.Evolve Py.kstellar (Some time)])) ∧
  (∀ fi_evolve t v tr e,
     fi_evolve t (SPH.fi v) = inl e →
     SPH.hydro_evolve fi_evolve t v tr
       = Py.Raised e v (tr ++ [Py.Evolve Py.hydro_code (Some t)])).
Proof.
  split; [|split; [|split]].
  - intros. apply setup_by_cases.
  - intros ph4_evolve m10 gb time v tr e He.
    unfold NBody.iteration, Py.evolve_model.
    cbv [mbind Py.Py_bind Py.gets Py.emit Py.raise]. by rewrite He.
  - intros seba_evolve time v tr e He.
    unfold Stellar.iteration, Py.evolve_model.
    cbv [mbind Py.Py_bind Py.gets Py.emit Py.raise]. by rewrite He.
  - intros fi_evolve t v tr e He.
    unfold SPH.hydro_evolve, Py.evolve_model.
    cbv [mbind Py.Py_bind Py.gets Py.emit Py.raise]. by rewrite He.
Qed.

(** A MESA that raises a [RuntimeError] on its first step: where the
    notebook runs, and also where [AmuseException] is bound, an exception
    escapes [setup_stellar_evolution_model] and nothing is pickled. *)
Lemma handler_misses_other_exceptions :
  let runtime_error := Py.Exn ["RuntimeError"; "Exception"; "BaseException"] in
  let v := SPH.Vars (Py.Star (qc 15 1) 0 (qc 5 1) 1 0) [] (SPH.Hydro 0 [] []) in
  SPH.setup_stellar_evolution_model SPH.notebook_globals "results"
      (λ _, inl runtime_error) 5 v []
    = Py.Raised Py.NameError v
        (setup_prefix ++ [Py.Evolve Py.stellar_evolution None]) ∧
  SPH.setup_stellar_evolution_model
      (SPH.notebook_globals ∪ {["AmuseException"]}) "results"
      (λ _, inl runtime_error) 5 v []
    = Py.Raised runtime_error v
        (setup_prefix ++ [Py.Evolve Py.stellar_evolution None]) ∧
  Monitor.writes (setup_prefix ++ [Py.Evolve Py.stellar_evolution None]) = [].
Proof. repeat split; by vm_compute. Qed.

(** With [AmuseException] bound, a MESA that advances the star twice and
    then raises an [AmuseException] is recovered from: the star of the
    second step is pickled. *)
Example handler_recovers_amuse_exception :
  let amuse_error := Py.Exn ["AmuseException"; "Exception"; "BaseException"] in
  let v := SPH.Vars (Py.Star (qc 15 1) 0 (qc 5 1) 1 0) [] (SPH.Hydro 0 [] []) in
  let mesa := λ st : Py.star,
    if bool_decide (Py.star_model_time st < qc 2 100)
    then inr (Py.Star (Py.star_mass st) (Py.star_age st + qc 1 100)
                      (Py.star_radius st) (Py.star_type st)
                      (Py.star_model_time st + qc 1 100))
    else inl amuse_error in
  match SPH.setup_stellar_evolution_model
          (SPH.notebook_globals ∪ {["AmuseException"]}) "results" mesa 5 v [] with
  | Py.Done path v' tr =>
      path = "results/super_giant_stellar_structure.pkl" ∧
      Py.star_model_time (SPH.mesa_star v') = qc 2 100 ∧
      Monitor.writes tr = [Py.Pickle path (SPH.mesa_star v')] ∧
      Monitor.evolve_count Py.stellar_evolution tr = 3%nat
  | _ => False
  end.
Proof. vm_compute. repeat split; by apply Qc_is_canon. Qed.

(** * Further properties of the notebooks' code *)

(** ** [plot_cdf]: what is drawn *)

Section CurveFacts.
Import CDF.

Lemma running_lookup (a : Qc) (l : list Qc) (i : nat) :
  (i ≤ length l)%nat →
  (a :: running a l) !! i = Some (a + qsum (take i l)).
Proof.
  revert a i. induction l as [|x l IH]; intros a i Hi.
  - destruct i; [|simpl in Hi; lia]. simpl. unfold qsum. simpl.
    by rewrite Qcplus_0_r.
  - destruct i as [|i].
    + simpl. unfold qsum. simpl. by rewrite Qcplus_0_r.
    + simpl in Hi. change ((a :: running a (x :: l)) !! S i)
        with (((a + x) :: running (a + x) l) !! i).
      rewrite IH by lia. simpl. by rewrite qsum_cons, Qcplus_assoc.
Qed.

Lemma qsum_take_drop (l : list Qc) (i : nat) :
  qsum l = qsum (take i l) + qsum (drop i l).
Proof. by rewrite <- qsum_app, take_drop. Qed.

Lemma qsum_take_lt (l : list Qc) (i : nat) :
  Forall (λ x, 0 < x) l → (i < length l)%nat → qsum (take i l) < qsum l.
Proof.
  intros Hpos Hi. rewrite (qsum_take_drop l i).
  apply (Qcle_lt_trans _ (qsum (take i l) + 0)); [by rewrite Qcplus_0_r|].
  apply Qcplus_lt_mono_l. apply qsum_pos.
  - intros Hnil. apply (f_equal length) in Hnil.
    rewrite length_drop in Hnil. simpl in Hnil. lia.
  - by apply Forall_drop.
Qed.

Lemma Qcdiv_lt_1 (x z : Qc) : 0 < z → x < z → x / z < 1.
Proof.
  intros Hz Hx. unfold Qcdiv.
  assert (Hne : z ≠ 0) by (intros ->; by apply (Qclt_not_eq 0 0)).
  rewrite <- (Qcmult_inv_r z Hne).
  apply Qcmult_lt_compat_r; [by apply Qcinv_pos|done].
Qed.

Lemma sorted_Permutation (m m' : list Qc) : m ≡ₚ m' → sorted m = sorted m'.
Proof.
  intros Hperm. unfold sorted.
  apply (Sorted_unique Qcle); try apply Sorted_merge_sort; try apply _.
  by rewrite !merge_sort_Permutation.
Qed.

Lemma py_max_cumulate (l : list Qc) :
  Forall (λ x, 0 ≤ x) l → py_max (cumulate l) = qsum l.
Proof.
  intros Hl. by rewrite cumulate_running, py_max_running, Qcplus_0_l.
Qed.

Lemma qsum_zero (l : list Qc) :
  Forall (λ x, 0 ≤ x) l → qsum l = 0 ↔ Forall (λ x, x = 0) l.
Proof.
  intros Hl. induction Hl as [|x l Hx Hl IH].
  - split; [constructor|done].
  - rewrite qsum_cons. split.
    + intros Hsum.
      assert (Hq : 0 ≤ qsum l) by by apply qsum_nonneg.
      assert (Hx0 : x = 0).
      { apply Qcle_antisym; [|done]. rewrite <- Hsum.
        rewrite <- (Qcplus_0_r x) at 1. by apply Qcplus_le_mono_l. }
      subst x. rewrite Qcplus_0_l in Hsum. constructor; [done|by apply IH].
    + intros Hall. inversion Hall as [|? ? -> Hall']; subst.
      rewrite Qcplus_0_l. by apply IH.
Qed.
End CurveFacts.

(** X1. For a non-empty list of strictly positive masses, [plot_cdf]
    draws one point per star, over the masses in ascending order; the
    ordinate of the [i]-th point is the summed mass of the [i] lighter
    stars over the total mass.  The curve therefore starts at 0 and stays
    strictly below 1: the slice [fm[:len(m)]] drops the last entry. *)
Theorem plot_cdf_curve_lags (m : list Qc) :
  m ≠ [] →
  Forall (λ x, 0 < x) m →
  ∃ curve, CDF.plot_cdf_curve m = Some curve ∧
           curve.*1 = CDF.sorted m ∧
           length curve = length m ∧
           curve.*2 !! 0%nat = Some 0 ∧
           ∀ i y, curve.*2 !! i = Some y →
                  y = qsum (take i (CDF.sorted m)) / qsum m ∧ 0 ≤ y ∧ y < 1.
Proof.
  intros Hne Hpos.
  assert (Hperm : CDF.sorted m ≡ₚ m) by apply merge_sort_Permutation.
  assert (Hlen : length (CDF.sorted m) = length m) by by rewrite Hperm.
  assert (Hspos : Forall (λ x, 0 < x) (CDF.sorted m)) by by rewrite Hperm.
  assert (Hsnn : Forall (λ x, 0 ≤ x) (CDF.sorted m)).
  { eapply Forall_impl; [exact Hspos|]. intros y Hy. by apply Qclt_le_weak. }
  assert (Hsum : 0 < qsum m) by by apply qsum_pos.
  assert (Hnz : qsum m ≠ 0)
    by (intros E; rewrite E in Hsum; by apply (Qclt_not_eq 0 0)).
  assert (Hmax : CDF.py_max (CDF.cumulate (CDF.sorted m)) = qsum m).
  { rewrite py_max_cumulate by done. by apply qsum_Permutation. }
  unfold CDF.plot_cdf_curve, CDF.plot_cdf_fm, CDF.normalise.
  rewrite Hmax, decide_False by done. simpl. eexists. split; [done|].
  assert (Hfm : length (take (length m)
                   ((λ x, x / qsum m) <$> CDF.cumulate (CDF.sorted m)))
                = length m).
  { rewrite length_take, length_fmap, cumulate_running. simpl.
    rewrite length_running. lia. }
  assert (Hsnd : (zip (CDF.sorted m)
                    (take (length m)
                       ((λ x, x / qsum m) <$> CDF.cumulate (CDF.sorted m)))).*2
                 = take (length m)
                     ((λ x, x / qsum m) <$> CDF.cumulate (CDF.sorted m))).
  { apply snd_zip. lia. }
  assert (Hlook : ∀ i y,
    take (length m) ((λ x, x / qsum m) <$> CDF.cumulate (CDF.sorted m)) !! i
      = Some y →
    (i < length m)%nat ∧ y = qsum (take i (CDF.sorted m)) / qsum m).
  { intros i y Hy.
    assert (Hi : (i < length m)%nat).
    { apply lookup_lt_Some in Hy. lia. }
    split; [done|]. rewrite lookup_take_lt in Hy by done.
    rewrite list_lookup_fmap, cumulate_running in Hy.
    rewrite running_lookup in Hy by lia. simpl in Hy.
    rewrite Qcplus_0_l in Hy. by inversion Hy. }
  split; [apply fst_zip; lia|].
  split; [rewrite length_zip; lia|].
  rewrite Hsnd. split.
  - destruct m as [|x m']; [done|]. simpl length. rewrite lookup_take_lt by lia.
    rewrite list_lookup_fmap, cumulate_running. simpl.
    by rewrite Qcdiv_0_l.
  - intros i y Hy. destruct (Hlook i y Hy) as [Hi ->]. split; [done|]. split.
    + rewrite <- (Qcdiv_0_l (qsum m)). apply Qcdiv_le_mono; [done|].
      apply qsum_nonneg. by apply Forall_take.
    + apply Qcdiv_lt_1; [done|].
      rewrite <- (qsum_Permutation _ _ Hperm). apply qsum_take_lt; [done|lia].
Qed.

Lemma plot_cdf_curve_lags_witness :
  [qc 3 1; qc 1 2; qc 2 1] ≠ [] ∧
  Forall (λ x, 0 < x) [qc 3 1; qc 1 2; qc 2 1] ∧
  ∃ curve, CDF.plot_cdf_curve [qc 3 1; qc 1 2; qc 2 1] = Some curve ∧
           curve.*1 = CDF.sorted [qc 3 1; qc 1 2; qc 2 1] ∧
           length curve = 3%nat ∧
           curve.*2 !! 0%nat = Some 0 ∧
           ∀ i y, curve.*2 !! i = Some y →
                  y = qsum (take i (CDF.sorted [qc 3 1; qc 1 2; qc 2 1]))
                      / qsum [qc 3 1; qc 1 2; qc 2 1] ∧ 0 ≤ y ∧ y < 1.
Proof.
  assert (Hne : [qc 3 1; qc 1 2; qc 2 1] ≠ []) by done.
  assert (Hpos : Forall (λ x, 0 < x) [qc 3 1; qc 1 2; qc 2 1])
    by repeat constructor.
  split; [exact Hne|]. split; [exact Hpos|].
  exact (plot_cdf_curve_lags [qc 3 1; qc 1 2; qc 2 1] Hne Hpos).
Defined.

(** X2. [plot_cdf] sorts its input first, so the array it computes and
    the curve it draws do not depend on the order of the stars. *)
Theorem plot_cdf_order_independent (m m' : list Qc) :
  m ≡ₚ m' →
  CDF.plot_cdf_fm m = CDF.plot_cdf_fm m' ∧
  CDF.plot_cdf_curve m = CDF.plot_cdf_curve m'.
Proof.
  intros Hperm. unfold CDF.plot_cdf_curve, CDF.plot_cdf_fm.
  rewrite (sorted_Permutation m m' Hperm).
  by rewrite (Permutation_length Hperm).
Qed.

Lemma plot_cdf_order_independent_witness :
  [qc 3 1; qc 1 2] ≡ₚ [qc 1 2; qc 3 1] ∧
  CDF.plot_cdf_fm [qc 3 1; qc 1 2] = CDF.plot_cdf_fm [qc 1 2; qc 3 1] ∧
  CDF.plot_cdf_curve [qc 3 1; qc 1 2] = CDF.plot_cdf_curve [qc 1 2; qc 3 1].
Proof.
  assert (H : [qc 3 1; qc 1 2] ≡ₚ [qc 1 2; qc 3 1]) by apply perm_swap.
  split; [exact H|]. exact (plot_cdf_order_independent _ _ H).
Defined.

(** X3. For masses that are not negative, [plot_cdf] has no array to
    draw exactly when every mass is zero, the empty list included: the
    division [fm /= max(fm)] is then by zero. *)
Theorem plot_cdf_fails_iff_massless (m : list Qc) :
  Forall (λ x, 0 ≤ x) m →
  CDF.plot_cdf_fm m = None ↔ Forall (λ x, x = 0) m.
Proof.
  intros Hnn.
  assert (Hperm : CDF.sorted m ≡ₚ m) by apply merge_sort_Permutation.
  assert (Hsnn : Forall (λ x, 0 ≤ x) (CDF.sorted m)) by by rewrite Hperm.
  unfold CDF.plot_cdf_fm, CDF.normalise.
  rewrite py_max_cumulate, (qsum_Permutation _ _ Hperm) by done.
  rewrite <- (qsum_zero m Hnn). by case_decide.
Qed.

Lemma plot_cdf_fails_iff_massless_witness :
  Forall (λ x, 0 ≤ x) [0; 0] ∧
  (CDF.plot_cdf_fm [0; 0] = None ↔ Forall (λ x, x = 0) [0; 0]).
Proof.
  assert (H : Forall (λ x, 0 ≤ x) [0; 0]).
  { constructor; [done|]. constructor; [done|]. constructor. }
  split; [exact H|]. exact (plot_cdf_fails_iff_massless [0; 0] H).
Defined.

(** ** [inject_supernova_energy]: the energy budget *)

Section InjectFacts.
Import Supernova.

Lemma select_ext (pred pred' : sph → bool) (gas : list sph) :
  (∀ p, pred p = pred' p) → select pred gas = select pred' gas.
Proof.
  intros Hext. induction gas as [|x l IH] using rev_ind; [done|].
  by rewrite !select_snoc, IH, Hext.
Qed.

Lemma select_fmap (pred : sph → bool) (f : sph → sph) (gas : list sph) :
  (∀ p, pred (f p) = pred p) → select pred (f <$> gas) = select pred gas.
Proof.
  intros Hf. induction gas as [|x l IH] using rev_ind; [done|].
  rewrite fmap_app. change (f <$> [x]) with [f x].
  by rewrite !select_snoc, IH, length_fmap, Hf.
Qed.

(** Writing through a subset changes the particles that meet the
    selection. *)
Lemma iadd_u_select (delta : Qc) (pred : sph → bool) (gas : list sph) :
  iadd_u delta (select pred gas) gas
    = (λ p, if pred p then add_u delta p else p) <$> gas.
Proof.
  apply list_eq. intros i. unfold iadd_u.
  rewrite list_lookup_imap, list_lookup_fmap.
  destruct (gas !! i) as [p|] eqn:Hp; [|done]. simpl. f_equal.
  case_bool_decide as Hi.
  - apply elem_of_select in Hi as (p' & Hp' & Hpred).
    rewrite Hp in Hp'. inversion Hp'; subst. by rewrite Hpred.
  - destruct (pred p) eqn:Hpred; [|done].
    exfalso. apply Hi, elem_of_select. by exists p.
Qed.

Lemma thermal_energy_heated (delta : Qc) (pred : sph → bool) (gas : list sph) :
  Gas.thermal_energy ((λ p, if pred p then add_u delta p else p) <$> gas)
    = Gas.thermal_energy gas
      + delta * qsum (mass <$> filter (λ p, pred p = true) gas).
Proof.
  unfold Gas.thermal_energy. induction gas as [|x l IH].
  - unfold qsum. simpl. ring.
  - rewrite !fmap_cons, !qsum_cons, IH. destruct (pred x) eqn:Hx.
    + rewrite filter_cons_True by done. rewrite fmap_cons, qsum_cons.
      simpl. ring.
    + rewrite filter_cons_False by (by rewrite Hx). ring.
Qed.

Lemma mass_heated (delta : Qc) (pred : sph → bool) (gas : list sph) :
  mass <$> ((λ p, if pred p then add_u delta p else p) <$> gas) = mass <$> gas.
Proof.
  rewrite <- list_fmap_compose. apply list_fmap_ext.
  intros i p _. simpl. by destruct (pred p).
Qed.

Lemma inside_heated (delta R : Qc) (pred : sph → bool) (p : sph) :
  inside R (if pred p then add_u delta p else p) = inside R p.
Proof. by destruct (pred p). Qed.

Lemma filter_heated (delta R : Qc) (gas : list sph) :
  mass <$> filter (λ p, inside R p = true)
             ((λ p, if inside R p then add_u delta p else p) <$> gas)
    = mass <$> filter (λ p, inside R p = true) gas.
Proof.
  induction gas as [|x l IH]; [done|]. rewrite fmap_cons.
  destruct (inside R x) eqn:Hx.
  - rewrite !filter_cons_True by done. rewrite !fmap_cons. by rewrite IH.
  - rewrite !filter_cons_False by (by rewrite Hx). done.
Qed.

Lemma total_mass_heated (delta R : Qc) (gas : list sph) :
  total_mass
    (select (inside R) ((λ p, if inside R p then add_u delta p else p) <$> gas))
    ((λ p, if inside R p then add_u delta p else p) <$> gas)
    = total_mass (select (inside R) gas) gas.
Proof. unfold total_mass. rewrite !rows_select. by rewrite filter_heated. Qed.

Lemma Qc_square_nonneg (x : Qc) : 0 ≤ x * x.
Proof.
  destruct (Qclt_le_dec x 0) as [Hneg|Hpos].
  - replace (x * x) with ((- x) * (- x)) by ring.
    assert (H : 0 ≤ - x).
    { apply Qclt_le_weak in Hneg. apply Qcopp_le_compat in Hneg.
      by replace (- 0) with 0 in Hneg by ring. }
    rewrite <- (Qcmult_0_l (- x)). by apply Qcmult_le_compat_r.
  - rewrite <- (Qcmult_0_l x). by apply Qcmult_le_compat_r.
Qed.

Lemma length_squared_nonneg (pos : Qc * Qc * Qc) : 0 ≤ length_squared pos.
Proof.
  destruct pos as [[x y] z]. simpl.
  repeat apply Qcplus_nonneg_nonneg; apply Qc_square_nonneg.
Qed.
End InjectFacts.

(** X4. When the total mass inside the region is not zero,
    [inject_supernova_energy] raises the thermal energy of the gas, the sum
    of mass times [u], by exactly [explosion_energy]; the mass of the gas
    is unchanged. *)
Theorem inject_adds_the_energy (gas : list Supernova.sph)
    (explosion_energy exploding_region : Qc) :
  Supernova.total_mass
    (Supernova.select (Supernova.inside exploding_region) gas) gas ≠ 0 →
  ∃ gas', (Supernova.inject_supernova_energy
             gas explosion_energy exploding_region).2 = inr gas' ∧
          Gas.thermal_energy gas' = Gas.thermal_energy gas + explosion_energy ∧
          Gas.mass_of gas' = Gas.mass_of gas.
Proof.
  intros Hne. rewrite inject_result, decide_False by done.
  eexists. split; [done|]. rewrite iadd_u_select. split.
  - rewrite thermal_energy_heated. f_equal.
    unfold Supernova.total_mass in *. rewrite rows_select in *.
    rewrite Qcmult_comm. by apply Qcmult_div_r.
  - unfold Gas.mass_of. by rewrite mass_heated.
Qed.

Lemma inject_adds_the_energy_witness :
  let gas := [ Supernova.Sph 1 (qc 2 1) (0, 0, 0) (0, 0, 0) (qc 5 1) ∅;
               Supernova.Sph 2 (qc 3 1) (qc 1 2, 0, 0) (0, 0, 0) (qc 7 1) ∅;
               Supernova.Sph 3 (qc 2 1) (qc 3 1, 0, 0) (0, 0, 0) (qc 9 1) ∅ ] in
  Supernova.total_mass (Supernova.select (Supernova.inside 1) gas) gas ≠ 0 ∧
  ∃ gas', (Supernova.inject_supernova_energy gas (qc 8 1) 1).2 = inr gas' ∧
          Gas.thermal_energy gas' = Gas.thermal_energy gas + qc 8 1 ∧
          Gas.mass_of gas' = Gas.mass_of gas.
Proof.
  intros gas.
  assert (Hne : Supernova.total_mass
                  (Supernova.select (Supernova.inside 1) gas) gas ≠ 0)
    by (by vm_compute).
  split; [exact Hne|]. exact (inject_adds_the_energy gas (qc 8 1) 1 Hne).
Defined.

(** X5. Injecting leaves the selection and its total mass as they were, so
    injections into the same region add up: an injection of [e1] followed
    by one of [e2] gives the gas that one injection of [e1 + e2] gives. *)
Theorem inject_twice (gas : list Supernova.sph) (e1 e2 exploding_region : Qc) :
  Supernova.total_mass
    (Supernova.select (Supernova.inside exploding_region) gas) gas ≠ 0 →
  ∃ gas1, (Supernova.inject_supernova_energy gas e1 exploding_region).2
            = inr gas1 ∧
          Supernova.select (Supernova.inside exploding_region) gas1
            = Supernova.select (Supernova.inside exploding_region) gas ∧
          (Supernova.inject_supernova_energy gas1 e2 exploding_region).2
            = (Supernova.inject_supernova_energy
                 gas (e1 + e2) exploding_region).2.
Proof.
  intros Hne.
  set (total := Supernova.total_mass
                  (Supernova.select (Supernova.inside exploding_region) gas) gas)
    in *.
  exists ((λ p, if Supernova.inside exploding_region p
                then Supernova.add_u (e1 / total) p else p) <$> gas).
  split.
  { rewrite inject_result. fold total. rewrite decide_False by done.
    by rewrite iadd_u_select. }
  split; [apply select_fmap; intros p; apply inside_heated|].
  rewrite !inject_result. rewrite total_mass_heated. fold total.
  rewrite !decide_False by done.
  rewrite (select_fmap (Supernova.inside exploding_region))
    by (intros p; apply inside_heated).
  f_equal. unfold Supernova.iadd_u. rewrite imap_fmap. apply imap_ext.
  intros i p Hp. simpl.
  assert (Hiff : i ∈ Supernova.select (Supernova.inside exploding_region) gas
                 ↔ Supernova.inside exploding_region p = true).
  { rewrite elem_of_select. split; [|by exists p].
    intros (q & Hq & Hin). congruence. }
  case_bool_decide as Hi.
  - apply Hiff in Hi. rewrite Hi. unfold Supernova.add_u. simpl. f_equal.
    unfold Qcdiv. ring.
  - destruct (Supernova.inside exploding_region p) eqn:Hin; [|done].
    exfalso. by apply Hi, Hiff.
Qed.

Lemma inject_twice_witness :
  let gas := [ Supernova.Sph 1 (qc 2 1) (0, 0, 0) (0, 0, 0) (qc 5 1) ∅;
               Supernova.Sph 3 (qc 2 1) (qc 3 1, 0, 0) (0, 0, 0) (qc 9 1) ∅ ] in
  Supernova.total_mass (Supernova.select (Supernova.inside 1) gas) gas ≠ 0 ∧
  ∃ gas1, (Supernova.inject_supernova_energy gas (qc 8 1) 1).2 = inr gas1 ∧
          Supernova.select (Supernova.inside 1) gas1
            = Supernova.select (Supernova.inside 1) gas ∧
          (Supernova.inject_supernova_energy gas1 (qc 4 1) 1).2
            = (Supernova.inject_supernova_energy gas (qc 8 1 + qc 4 1) 1).2.
Proof.
  intros gas.
  assert (Hne : Supernova.total_mass
                  (Supernova.select (Supernova.inside 1) gas) gas ≠ 0)
    by (by vm_compute).
  split; [exact Hne|]. exact (inject_twice gas (qc 8 1) (qc 4 1) 1 Hne).
Defined.

(** X6. The selection is by strict comparison with the square of
    [exploding_region].  With a region of radius 0 nothing is selected,
    not even a particle at the origin, and the first line printed says that
    0 particles were selected, whatever the gas.  A negative radius selects
    what its absolute value selects, and the call does the same. *)
Theorem inject_region_edges (gas : list Supernova.sph)
    (explosion_energy exploding_region : Qc) :
  Supernova.select (Supernova.inside 0) gas = [] ∧
  head (Supernova.inject_supernova_energy gas explosion_energy 0).1
    = Some [Supernova.OInt 0; Supernova.OStr "innermost particles selected."] ∧
  Supernova.select (Supernova.inside (- exploding_region)) gas
    = Supernova.select (Supernova.inside exploding_region) gas ∧
  Supernova.inject_supernova_energy gas explosion_energy (- exploding_region)
    = Supernova.inject_supernova_energy gas explosion_energy exploding_region.
Proof.
  assert (Hzero : Supernova.select (Supernova.inside 0) gas = []).
  { apply elem_of_nil_inv. intros i Hi.
    apply elem_of_select in Hi as (p & _ & Hin).
    apply inside_spec in Hin. rewrite Qcmult_0_l in Hin.
    by apply (Qcle_not_lt _ _ (length_squared_nonneg (Supernova.position p))). }
  assert (Hneg : Supernova.select (Supernova.inside (- exploding_region)) gas
                 = Supernova.select (Supernova.inside exploding_region) gas).
  { apply select_ext. intros p. unfold Supernova.inside.
    by replace (- exploding_region * - exploding_region)
      with (exploding_region * exploding_region) by ring. }
  split_and!; [done| |done|].
  - unfold Supernova.inject_supernova_energy. simpl. by rewrite Hzero.
  - unfold Supernova.inject_supernova_energy. by rewrite Hneg.
Qed.

(** ** [setup_stellar_evolution_model]: every way it ends *)

Section SetupShape.
Import Py Monitor Trace SPH.
Variable globals : gset string.
Variable results_dir : string.
Variable mesa_evolve : star → exn + star.

(** Where MESA's loop ends: past the limit when it completes, before it
    and on the star that failed when it raises. *)
Lemma mesa_run_end (fuel : nat) (st : star) :
  match mesa_run mesa_evolve fuel st with
  | Completed st' _ => ¬ star_model_time st' < qc 12 100
  | Failed e st' _ =>
      star_model_time st' < qc 12 100 ∧ mesa_evolve st' = inl e
  | NoFuel => True
  end.
Proof.
  revert st. induction fuel as [|fuel IH]; intros st; simpl.
  - by case_bool_decide.
  - case_bool_decide as Hlt; [|done].
    destruct (mesa_evolve st) as [e|st'] eqn:Hev; [done|].
    specialize (IH st'). by destruct (mesa_run mesa_evolve fuel st').
Qed.

Lemma mesa_loop_shape (fuel : nat) (v : vars) (tr : list event) :
  wp (mesa_loop mesa_evolve fuel)
     (λ _ _ tr', ∃ evs, tr' = tr ++ evs ∧ Forall mesa_loop_event evs)
     (λ _ _ tr', ∃ evs, tr' = tr ++ evs ∧ Forall mesa_loop_event evs) v tr.
Proof.
  unfold mesa_loop.
  apply wp_while with
    (I := λ _ tr', ∃ evs, tr' = tr ++ evs ∧ Forall mesa_loop_event evs).
  - exists []. by rewrite app_nil_r.
  - intros v' tr' (evs & -> & Hevs) _. unfold mesa_iteration. wp_run.
    destruct (mesa_evolve _).
    + exists (evs ++ [Evolve stellar_evolution None]).
      rewrite app_assoc. split; [done|].
      apply Forall_app. split; [done|]. repeat constructor.
    + wp_run.
      exists (evs ++ [Evolve stellar_evolution None; Print "star:"]).
      rewrite <- !app_assoc. split; [done|].
      apply Forall_app. split; [done|].
      constructor; [by left|]. constructor; [by right|]. constructor.
  - done.
Qed.

Lemma mesa_loop_events_filters (evs : list event) :
  Forall mesa_loop_event evs →
  writes evs = [] ∧ stops evs = [] ∧ constructs evs = [].
Proof.
  induction 1 as [|e evs [->| ->] _ (Hw & Hs & Hc)]; [done| |];
    unfold writes, stops, constructs in *;
    rewrite !filter_cons_False by (simpl; discriminate); done.
Qed.

(** The result of the function in each case of MESA's loop. *)
Lemma setup_shape (fuel : nat) (v : vars) :
  let path := out_pickle_file results_dir in
  let result :=
    setup_stellar_evolution_model globals results_dir mesa_evolve fuel v [] in
  match mesa_run mesa_evolve fuel (mesa_star v) with
  | Completed st n =>
      ∃ evs, Forall mesa_loop_event evs ∧
             result = Done path (set_star st v)
                        (setup_prefix ++ evs
                           ++ [Pickle path st; Stop stellar_evolution])
  | Failed e st n =>
      ∃ evs, Forall mesa_loop_event evs ∧
             result =
               if bool_decide ("AmuseException" ∈ globals) then
                 if isinstance e "AmuseException" then
                   Done path (set_star st v)
                     (setup_prefix ++ evs
                        ++ [Print "Evolved star to"; Print "Radius:";
                            Pickle path st; Stop stellar_evolution])
                 else Raised e (set_star st v) (setup_prefix ++ evs)
               else Raised NameError (set_star st v) (setup_prefix ++ evs)
  | NoFuel => result = Diverged
  end.
Proof.
  intros path result. unfold result. rewrite setup_unfold. unfold try_except.
  pose proof (mesa_loop_run mesa_evolve fuel v setup_prefix) as Hrun.
  pose proof (mesa_loop_shape fuel v setup_prefix) as Hshape.
  unfold wp in Hshape.
  destruct (mesa_run mesa_evolve fuel (mesa_star v)) as [st n|e st n|].
  - destruct Hrun as (evs & Hloop & _). rewrite Hloop in *.
    destruct Hshape as (evs' & Heq & Hevs).
    apply app_inv_head in Heq. subst evs'. exists evs. split; [done|].
    by rewrite <- !app_assoc.
  - destruct Hrun as (evs & Hloop & _). rewrite Hloop in *.
    destruct Hshape as (evs' & Heq & Hevs).
    apply app_inv_head in Heq. subst evs'. exists evs. split; [done|].
    case_bool_decide; [|done].
    destruct (isinstance e "AmuseException"); [|done].
    cbv [mbind Py_bind emit]. by rewrite <- !app_assoc.
  - by rewrite Hrun.
Qed.
End SetupShape.

Section SetupEnds.
Import Py Monitor Trace SPH.

Lemma setup_prefix_filters :
  writes setup_prefix = [] ∧ stops setup_prefix = [] ∧
  constructs setup_prefix = [Construct stellar_evolution MESA None].
Proof. done. Qed.

Lemma AmuseException_unbound : "AmuseException" ∉ notebook_globals.
Proof. apply (bool_decide_eq_false_1 _). by vm_compute. Qed.

Lemma mesa_run_bound (mesa_evolve : star → exn + star) (dt : Qc) (n : nat) :
  (∀ st st', mesa_evolve st = inr st' →
             star_model_time st + dt ≤ star_model_time st') →
  ∀ fuel st,
    (n ≤ fuel)%nat →
    qc 12 100 ≤ star_model_time st + advance n dt →
    match mesa_run mesa_evolve fuel st with
    | Completed _ k | Failed _ _ k => (k ≤ n)%nat
    | NoFuel => False
    end.
Proof.
  intros Hstep. induction n as [|n IH]; intros fuel st Hfuel Hreach.
  - simpl in Hreach. rewrite Qcplus_0_r in Hreach.
    apply Qcle_not_lt in Hreach.
    destruct fuel; simpl; by rewrite bool_decide_eq_false_2.
  - destruct fuel as [|fuel]; [lia|]. simpl.
    case_bool_decide; [|lia].
    destruct (mesa_evolve st) as [e|st'] eqn:Hev; [lia|].
    specialize (IH fuel st'). apply Hstep in Hev.
    destruct (mesa_run mesa_evolve fuel st'); try (apply le_n_S, IH); try apply IH;
      try lia.
    all: simpl in Hreach; rewrite Qcplus_assoc in Hreach.
    all: etransitivity; [exact Hreach|]; by apply Qcplus_le_mono_r.
Qed.
End SetupEnds.

(** X7. The loop of [setup_stellar_evolution_model] ends when MESA makes
    progress: if every [evolve_model()] that returns advances the model
    time by at least [dt], and [n] such steps reach 0.12 Myr from the
    star's model time, then with fuel for [n] passes the function does not
    run on: it makes at most [n] calls of [evolve_model()]. *)
Theorem mesa_loop_ends_when_mesa_advances (globals : gset string)
    (results_dir : string) (mesa_evolve : Py.star → Py.exn + Py.star)
    (dt : Qc) (n fuel : nat) (v : SPH.vars) :
  (∀ st st', mesa_evolve st = inr st' →
             Py.star_model_time st + dt ≤ Py.star_model_time st') →
  (n ≤ fuel)%nat →
  qc 12 100 ≤ Py.star_model_time (SPH.mesa_star v) + Trace.advance n dt →
  SPH.setup_stellar_evolution_model globals results_dir mesa_evolve fuel v []
    ≠ Py.Diverged ∧
  match SPH.mesa_run mesa_evolve fuel (SPH.mesa_star v) with
  | SPH.Completed _ k | SPH.Failed _ _ k => (k ≤ n)%nat
  | SPH.NoFuel => False
  end.
Proof.
  intros Hstep Hfuel Hreach.
  pose proof (mesa_run_bound mesa_evolve dt n Hstep fuel _ Hfuel Hreach) as Hb.
  split; [|done].
  pose proof (setup_shape globals results_dir mesa_evolve fuel v) as Hs.
  cbv zeta in Hs.
  destruct (SPH.mesa_run mesa_evolve fuel (SPH.mesa_star v)); [| |done].
  - destruct Hs as (evs & _ & ->). done.
  - destruct Hs as (evs & _ & ->).
    case_bool_decide; [|done]. by destruct (Py.isinstance e "AmuseException").
Qed.

Lemma mesa_loop_ends_when_mesa_advances_witness :
  let mesa := λ st : Py.star,
    inr (Py.Star (Py.star_mass st) (Py.star_age st) (Py.star_radius st)
                 (Py.star_type st) (Py.star_model_time st + qc 1 100))
    : Py.exn + Py.star in
  let v := SPH.Vars (Py.Star (qc 15 1) 0 (qc 5 1) 1 0) [] (SPH.Hydro 0 [] []) in
  (∀ st st', mesa st = inr st' →
             Py.star_model_time st + qc 1 100 ≤ Py.star_model_time st') ∧
  (12 ≤ 12)%nat ∧
  qc 12 100 ≤ Py.star_model_time (SPH.mesa_star v) + Trace.advance 12 (qc 1 100) ∧
  SPH.setup_stellar_evolution_model SPH.notebook_globals "results" mesa 12 v []
    ≠ Py.Diverged ∧
  match SPH.mesa_run mesa 12 (SPH.mesa_star v) with
  | SPH.Completed _ k | SPH.Failed _ _ k => (k ≤ 12)%nat
  | SPH.NoFuel => False
  end.
Proof.
  intros mesa v.
  assert (H1 : ∀ st st', mesa st = inr st' →
             Py.star_model_time st + qc 1 100 ≤ Py.star_model_time st').
  { intros st st' H. inversion H. simpl. apply Qcle_refl. }
  assert (H2 : (12 ≤ 12)%nat) by lia.
  assert (H3 : qc 12 100 ≤ Py.star_model_time (SPH.mesa_star v)
                           + Trace.advance 12 (qc 1 100)) by (by vm_compute).
  split; [exact H1|]. split; [exact H2|]. split; [exact H3|].
  exact (mesa_loop_ends_when_mesa_advances SPH.notebook_globals "results"
           mesa (qc 1 100) 12 12 v H1 H2 H3).
Defined.

(** X8. Whenever [setup_stellar_evolution_model] returns, it has written
    exactly one pickle, of the star MESA holds, to the path it returns, and
    has stopped MESA once.  That star is the first one at or past 0.12 Myr,
    unless the handler caught an [AmuseException]: then it is the star,
    still before 0.12 Myr, on which [evolve_model()] raised. *)
Theorem pickled_star_is_last_valid (globals : gset string)
    (results_dir : string) (mesa_evolve : Py.star → Py.exn + Py.star)
    (fuel : nat) (v v' : SPH.vars) (path : string) (tr : list Py.event) :
  SPH.setup_stellar_evolution_model globals results_dir mesa_evolve fuel v []
    = Py.Done path v' tr →
  path = SPH.out_pickle_file results_dir ∧
  Monitor.writes tr = [Py.Pickle path (SPH.mesa_star v')] ∧
  Trace.stops tr = [Py.Stop Py.stellar_evolution] ∧
  (¬ Py.star_model_time (SPH.mesa_star v') < qc 12 100 ∨
   (Py.star_model_time (SPH.mesa_star v') < qc 12 100 ∧
    "AmuseException" ∈ globals ∧
    ∃ e, mesa_evolve (SPH.mesa_star v') = inl e ∧
         Py.isinstance e "AmuseException" = true)).
Proof.
  intros Hdone.
  pose proof (setup_shape globals results_dir mesa_evolve fuel v) as Hs.
  pose proof (mesa_run_end mesa_evolve fuel (SPH.mesa_star v)) as Hend.
  cbv zeta in Hs.
  destruct setup_prefix_filters as (Hw0 & Hs0 & _).
  destruct (SPH.mesa_run mesa_evolve fuel (SPH.mesa_star v)) as [st n|e st n|];
    [| |by rewrite Hs in Hdone].
  - destruct Hs as (evs & Hevs & Heq). rewrite Heq in Hdone.
    assert (Hp : SPH.out_pickle_file results_dir = path) by congruence.
    assert (Hv : SPH.set_star st v = v') by congruence.
    assert (Ht : setup_prefix ++ evs ++
                 [Py.Pickle (SPH.out_pickle_file results_dir) st;
                  Py.Stop Py.stellar_evolution] = tr) by congruence.
    clear Hdone Heq. subst path v' tr.
    destruct (mesa_loop_events_filters evs Hevs) as (Hw & Hst & _).
    unfold Trace.stops in *.
    rewrite !writes_app, !filter_app, Hw0, Hs0, Hw, Hst.
    repeat split; try done. by left.
  - destruct Hs as (evs & Hevs & Heq). destruct Hend as [Hlt Hev].
    case_bool_decide as Hbound; [|by rewrite Heq in Hdone].
    destruct (Py.isinstance e "AmuseException") eqn:Hisa;
      [|by rewrite Heq in Hdone].
    rewrite Heq in Hdone.
    assert (Hp : SPH.out_pickle_file results_dir = path) by congruence.
    assert (Hv : SPH.set_star st v = v') by congruence.
    assert (Ht : setup_prefix ++ evs ++
                 [Py.Print "Evolved star to"; Py.Print "Radius:";
                  Py.Pickle (SPH.out_pickle_file results_dir) st;
                  Py.Stop Py.stellar_evolution] = tr) by congruence.
    clear Hdone Heq. subst path v' tr.
    destruct (mesa_loop_events_filters evs Hevs) as (Hw & Hst & _).
    unfold Trace.stops in *.
    rewrite !writes_app, !filter_app, Hw0, Hs0, Hw, Hst.
    repeat split; try done. right. repeat split; try done. by exists e.
Qed.

Lemma pickled_star_is_last_valid_witness :
  let mesa := λ st : Py.star,
    inr (Py.Star (Py.star_mass st) (Py.star_age st) (Py.star_radius st)
                 (Py.star_type st) (Py.star_model_time st + qc 1 10))
    : Py.exn + Py.star in
  let v := SPH.Vars (Py.Star (qc 15 1) 0 (qc 5 1) 1 0) [] (SPH.Hydro 0 [] []) in
  ∃ v' tr,
    SPH.setup_stellar_evolution_model SPH.notebook_globals "results" mesa 5 v []
      = Py.Done "results/super_giant_stellar_structure.pkl" v' tr ∧
    Monitor.writes tr
      = [Py.Pickle "results/super_giant_stellar_structure.pkl" (SPH.mesa_star v')] ∧
    Trace.stops tr = [Py.Stop Py.stellar_evolution].
Proof.
  intros mesa v.
  destruct (SPH.setup_stellar_evolution_model SPH.notebook_globals "results"
              mesa 5 v []) as [path v' tr| |] eqn:Hrun;
    [|by vm_compute in Hrun|by vm_compute in Hrun].
  assert (Hpath : path = "results/super_giant_stellar_structure.pkl").
  { vm_compute in Hrun. by inversion Hrun. }
  subst path. exists v', tr. split; [done|].
  destruct (pickled_star_is_last_valid SPH.notebook_globals "results" mesa 5
              v v' _ tr Hrun) as (_ & Hw & Hs & _).
  by split.
Defined.

(** X9. As the notebook is written, the name [AmuseException] is bound
    nowhere, so the handler's class lookup fails: whatever exception
    [evolve_model()] raises in the loop, an [AmuseException] included, a
    [NameError] escapes [setup_stellar_evolution_model]; nothing is
    pickled and MESA is not stopped. *)
Theorem handler_name_is_unbound (results_dir : string)
    (mesa_evolve : Py.star → Py.exn + Py.star) (fuel : nat) (v : SPH.vars)
    (e : Py.exn) (st : Py.star) (n : nat) :
  SPH.mesa_run mesa_evolve fuel (SPH.mesa_star v) = SPH.Failed e st n →
  ∃ tr, SPH.setup_stellar_evolution_model SPH.notebook_globals results_dir
          mesa_evolve fuel v []
          = Py.Raised Py.NameError (SPH.set_star st v) tr ∧
        Monitor.writes tr = [] ∧ Trace.stops tr = [].
Proof.
  intros Hrun.
  pose proof (setup_shape SPH.notebook_globals results_dir mesa_evolve fuel v)
    as Hs.
  cbv zeta in Hs. rewrite Hrun in Hs.
  rewrite bool_decide_eq_false_2 in Hs by apply AmuseException_unbound.
  destruct Hs as (evs & Hevs & ->). eexists. split; [done|].
  destruct setup_prefix_filters as (Hw0 & Hs0 & _).
  destruct (mesa_loop_events_filters evs Hevs) as (Hw & Hst & _).
  unfold Trace.stops in *. by rewrite writes_app, filter_app, Hw0, Hs0, Hw, Hst.
Qed.

Lemma handler_name_is_unbound_witness :
  let amuse_error := Py.Exn ["AmuseException"; "Exception"; "BaseException"] in
  let st := Py.Star (qc 15 1) 0 (qc 5 1) 1 0 in
  let v := SPH.Vars st [] (SPH.Hydro 0 [] []) in
  SPH.mesa_run (λ _, inl amuse_error) 5 (SPH.mesa_star v)
    = SPH.Failed amuse_error st 1 ∧
  ∃ tr, SPH.setup_stellar_evolution_model SPH.notebook_globals "results"
          (λ _, inl amuse_error) 5 v []
          = Py.Raised Py.NameError (SPH.set_star st v) tr ∧
        Monitor.writes tr = [] ∧ Trace.stops tr = [].
Proof.
  intros amuse_error st v.
  assert (H : SPH.mesa_run (λ _, inl amuse_error) 5 (SPH.mesa_star v)
              = SPH.Failed amuse_error st 1) by (by vm_compute).
  split; [exact H|].
  exact (handler_name_is_unbound "results" (λ _, inl amuse_error) 5 v
           amuse_error st 1 H).
Defined.

(** ** Calls read off an extended trace *)

Section TraceFacts.
Import Py Monitor Trace.

Lemma stops_snoc_other (tr : list event) (e : event) :
  is_stop e = false → stops (tr ++ [e]) = stops tr.
Proof.
  intros He. unfold stops. rewrite filter_app, filter_cons_False.
  - by rewrite filter_nil, app_nil_r.
  - by rewrite He.
Qed.

Lemma stops_snoc_stop (tr : list event) (sv : solver) :
  stops (tr ++ [Stop sv]) = stops tr ++ [Stop sv].
Proof. unfold stops. by rewrite filter_app. Qed.

Lemma constructs_snoc_other (tr : list event) (e : event) :
  is_construct e = false → constructs (tr ++ [e]) = constructs tr.
Proof.
  intros He. unfold constructs. rewrite filter_app, filter_cons_False.
  - by rewrite filter_nil, app_nil_r.
  - by rewrite He.
Qed.

Lemma constructs_snoc_construct (tr : list event) sv c conv :
  constructs (tr ++ [Construct sv c conv])
    = constructs tr ++ [Construct sv c conv].
Proof. unfold constructs. by rewrite filter_app. Qed.

Lemma evolve_targets_snoc_other (sv : solver) (tr : list event) (e : event) :
  evolve_targets sv [e] = [] →
  evolve_targets sv (tr ++ [e]) = evolve_targets sv tr.
Proof.
  intros He. unfold evolve_targets in *. by rewrite omap_app, He, app_nil_r.
Qed.

Lemma evolve_targets_snoc_evolve (sv : solver) (tr : list event)
    (target : option Qc) :
  evolve_targets sv (tr ++ [Evolve sv target]) = evolve_targets sv tr ++ [target].
Proof.
  unfold evolve_targets. rewrite omap_app. simpl.
  by rewrite bool_decide_eq_true_2.
Qed.

Lemma copy_count_snoc_other (sv : solver) (tr : list event) (e : event) :
  is_copy sv e = false → copy_count sv (tr ++ [e]) = copy_count sv tr.
Proof.
  intros He. unfold copy_count. rewrite filter_app, filter_cons_False.
  - by rewrite filter_nil, app_nil_r.
  - by rewrite He.
Qed.

Lemma copy_count_snoc_copy (sv : solver) (tr : list event) (set : string) :
  copy_count sv (tr ++ [Copy sv set]) = Datatypes.S (copy_count sv tr).
Proof.
  unfold copy_count. rewrite filter_app, length_app, filter_cons_True.
  - simpl. lia.
  - simpl. by rewrite bool_decide_eq_true_2.
Qed.

Lemma length_nbody_times : length NBody.times = 1000%nat.
Proof. unfold NBody.times. by rewrite length_fmap, length_seq. Qed.
End TraceFacts.

Ltac trace_solve :=
  repeat first
    [ rewrite stops_snoc_other by reflexivity
    | rewrite constructs_snoc_other by reflexivity
    | rewrite evolve_targets_snoc_other by reflexivity
    | rewrite copy_count_snoc_other by reflexivity
    | rewrite stops_snoc_stop
    | rewrite constructs_snoc_construct
    | rewrite evolve_targets_snoc_evolve
    | rewrite copy_count_snoc_copy ].

(** X10. With the framework's other calls returning, a run of the N-body
    notebook always ends, and ph4 is never stopped.  A run that completes has asked ph4 to evolve to each of the
    1000 times of [times], in their order, with one channel copy after each
    call.  A run that an exception ends was stopped by ph4 itself, in
    [evolve_model] at some time [t] of [times]: the calls made are those
    for the times up to and including [t], and the copies those for the
    times before it. *)
Theorem nbody_run_follows_times :
  ∀ ph4_evolve multiple_of_10 get_binaries with_legend v,
    Trace.twp (NBody.notebook ph4_evolve multiple_of_10 get_binaries with_legend)
      (λ _ _ tr,
         Trace.evolve_targets Py.gravity tr = Some <$> NBody.times ∧
         Trace.copy_count Py.gravity tr = 1000%nat ∧
         Trace.stops tr = [])
      (λ e v' tr, ∃ seen t rest,
         NBody.times = seen ++ t :: rest ∧
         ph4_evolve t (NBody.gravity_particles v') = inl e ∧
         Trace.evolve_targets Py.gravity tr = Some <$> (seen ++ [t]) ∧
         Trace.copy_count Py.gravity tr = length seen ∧
         Trace.stops tr = [])
      v [].
Proof.
  intros ph4_evolve multiple_of_10 get_binaries with_legend v.
  unfold NBody.notebook, NBody.generate_masses, NBody.check_mass_function,
    NBody.make_cluster, NBody.plot_snapshot, NBody.start_gravity,
    NBody.evolution_loop, NBody.final_plots.
  pose proof length_nbody_times as Hlen. revert Hlen.
  generalize NBody.times. intros times Hlen.
  twp_run. destruct with_legend; twp_run;
    (apply twp_for with
       (I := λ seen _ tr',
          Trace.evolve_targets Py.gravity tr' = Some <$> seen ∧
          Trace.copy_count Py.gravity tr' = length seen ∧
          Trace.stops tr' = []);
     [ split_and!; trace_solve; done
     | intros seen t rest v' tr' Htimes (Ht & Hc & Hs);
       unfold NBody.iteration, NBody.channel_copy_to_bodies; twp_run;
       destruct (ph4_evolve t _) as [e|ps] eqn:Hev; cbv beta iota;
       [ exists seen, t, rest; split_and!; trace_solve;
         [done|done|by rewrite Ht, fmap_app|done|done]
       | twp_run; destruct (multiple_of_10 t); twp_run;
         case_bool_decide; twp_run;
         (split_and!; trace_solve;
          [by rewrite Ht, fmap_app|rewrite Hc, length_app; simpl; lia|done]) ]
     | intros v' tr' (Ht & Hc & Hs); twp_run;
       split_and!; trace_solve; [done|by rewrite Hc|done] ]).
Qed.

(** X11. With the framework's other calls returning, a run of the
    stellar-evolution notebook always ends.  A run that completes has asked each SeBa instance to evolve to every time of
    [times], in their order, and then stopped both, [kstellar] first.  A
    run that an exception ends has stopped neither: [kstellar] was called
    for the times up to some [t], and [sstellar] for the same times or for
    those before [t]. *)
Theorem stellar_run_follows_times :
  ∀ seba_evolve times v,
    Trace.twp (Stellar.notebook seba_evolve times)
      (λ _ _ tr,
         Trace.evolve_targets Py.kstellar tr = Some <$> times ∧
         Trace.evolve_targets Py.sstellar tr = Some <$> times ∧
         Trace.stops tr = [Py.Stop Py.kstellar; Py.Stop Py.sstellar])
      (λ e v' tr, ∃ seen t rest,
         times = seen ++ t :: rest ∧
         Trace.evolve_targets Py.kstellar tr = Some <$> (seen ++ [t]) ∧
         (Trace.evolve_targets Py.sstellar tr = Some <$> seen ∧
          seba_evolve Py.kstellar t (Stellar.kstellar_particles v') = inl e ∨
          Trace.evolve_targets Py.sstellar tr = Some <$> (seen ++ [t]) ∧
          seba_evolve Py.sstellar t (Stellar.sstellar_particles v') = inl e) ∧
         Trace.stops tr = [])
      v [].
Proof.
  intros seba_evolve times v.
  unfold Stellar.notebook, Stellar.make_stars, Stellar.start_kstellar,
    Stellar.start_sstellar, Stellar.start_stellar_code,
    Stellar.evolution_loop, Stellar.final_plots.
  twp_run.
  apply twp_for with
    (I := λ seen _ tr',
       Trace.evolve_targets Py.kstellar tr' = Some <$> seen ∧
       Trace.evolve_targets Py.sstellar tr' = Some <$> seen ∧
       Trace.stops tr' = []).
  - split_and!; trace_solve; done.
  - intros seen t rest v' tr' Htimes (Hk & Hs & Hst).
    unfold Stellar.iteration. twp_run.
    destruct (seba_evolve Py.kstellar t _) as [e|ps] eqn:Hk'; cbv beta iota.
    { exists seen, t, rest. split_and!; trace_solve;
        [done|by rewrite Hk, fmap_app| |done].
      left. by split. }
    twp_run. cbn [Stellar.sstellar_particles].
    destruct (seba_evolve Py.sstellar t _) as [e|ps'] eqn:Hs'; cbv beta iota.
    { exists seen, t, rest. split_and!; trace_solve;
        [done|by rewrite Hk, fmap_app| |done].
      right. split; [by rewrite Hs, fmap_app|done]. }
    twp_run. split_and!; trace_solve; [| |done].
    + by rewrite Hk, fmap_app.
    + by rewrite Hs, fmap_app.
  - intros v' tr' (Hk & Hs & Hst). twp_run.
    split_and!; trace_solve; [done|done|by rewrite Hst].
Qed.

Section StopsFacts.
Import Py Monitor Trace.

Lemma stops_app (tr evs : list event) : stops (tr ++ evs) = stops tr ++ stops evs.
Proof. unfold stops. by rewrite filter_app. Qed.

Lemma constructs_app (tr evs : list event) :
  constructs (tr ++ evs) = constructs tr ++ constructs evs.
Proof. unfold constructs. by rewrite filter_app. Qed.

Lemma setup_stops globals results_dir mesa_evolve fuel v :
  wp (SPH.setup_stellar_evolution_model globals results_dir mesa_evolve fuel)
     (λ _ _ tr,
        stops tr = [Stop stellar_evolution] ∧
        constructs tr = [Construct stellar_evolution MESA None])
     (λ _ _ tr,
        stops tr = [] ∧ constructs tr = [Construct stellar_evolution MESA None])
     v [].
Proof.
  unfold wp.
  pose proof (setup_shape globals results_dir mesa_evolve fuel v) as Hs.
  cbv zeta in Hs. destruct setup_prefix_filters as (_ & Hs0 & Hc0).
  destruct (SPH.mesa_run mesa_evolve fuel (SPH.mesa_star v)) as [st n|e st n|].
  - destruct Hs as (evs & Hevs & ->).
    destruct (mesa_loop_events_filters evs Hevs) as (_ & Hst & Hc).
    by rewrite !stops_app, !constructs_app, Hs0, Hc0, Hst, Hc.
  - destruct Hs as (evs & Hevs & ->).
    destruct (mesa_loop_events_filters evs Hevs) as (_ & Hst & Hc).
    case_bool_decide;
      [destruct (isinstance e "AmuseException")|];
      by rewrite !stops_app, !constructs_app, Hs0, Hc0, Hst, Hc.
  - by rewrite Hs.
Qed.
End StopsFacts.

(** X12. In the supernova notebook only a run that completes stops Fi: it
    has constructed MESA and then Fi, and stopped them in that order.  A
    run that an exception ends has stopped MESA at most, whether or not
    Fi was constructed. *)
Theorem fi_is_stopped_only_at_the_end :
  ∀ globals results_dir mesa_evolve core fi_evolve fuel v,
    Py.wp (SPH.notebook globals results_dir mesa_evolve core fi_evolve fuel)
      (λ _ _ tr,
         Trace.stops tr
           = [Py.Stop Py.stellar_evolution; Py.Stop Py.hydro_code] ∧
         Trace.constructs tr
           = [Py.Construct Py.stellar_evolution Py.MESA None;
              Py.Construct Py.hydro_code Py.Fi (Some "converter")])
      (λ _ _ tr,
         (Trace.stops tr = [] ∧
          Trace.constructs tr = [Py.Construct Py.stellar_evolution Py.MESA None]) ∨
         (Trace.stops tr = [Py.Stop Py.stellar_evolution] ∧
          (Trace.constructs tr
             = [Py.Construct Py.stellar_evolution Py.MESA None] ∨
           Trace.constructs tr
             = [Py.Construct Py.stellar_evolution Py.MESA None;
                Py.Construct Py.hydro_code Py.Fi (Some "converter")])))
      v [].
Proof.
  intros globals results_dir mesa_evolve core fi_evolve fuel v.
  set (S1 := [Py.Stop Py.stellar_evolution]).
  set (C1 := [Py.Construct Py.stellar_evolution Py.MESA None]).
  set (C2 := [Py.Construct Py.stellar_evolution Py.MESA None;
              Py.Construct Py.hydro_code Py.Fi (Some "converter")]).
  unfold SPH.notebook. apply wp_bind.
  eapply wp_wand; [apply setup_stops| |by left].
  intros path v1 tr1 [Hs Hc]. cbv beta in Hs, Hc. fold S1 in Hs. fold C1 in Hc.
  unfold SPH.make_sph_model, SPH.plot_star. wp_run.
  apply wp_inject with
    (I := λ tr', Trace.stops tr' = S1 ∧ Trace.constructs tr' = C1).
  { split; trace_solve; done. }
  { intros tr' [Hs' Hc']. split; trace_solve; done. }
  intros v2 tr2 [Hs2 Hc2].
  apply wp_wand with
    (Q := λ _ _ tr', Trace.stops tr' = S1 ++ [Py.Stop Py.hydro_code] ∧
                     Trace.constructs tr' = C2)
    (E := λ _ _ tr', Trace.stops tr' = S1 ∧ Trace.constructs tr' = C2);
    [|done|intros ? ? ? []; right; split; [done|by right]].
  unfold SPH.start_hydro, SPH.first_runs, SPH.hydro_plot, SPH.hydro_evolve.
  wp_run_with ltac:(split; trace_solve; [done|by rewrite Hc2]).
  unfold SPH.hydro_loop.
  apply wp_while with
    (I := λ _ tr', Trace.stops tr' = S1 ∧ Trace.constructs tr' = C2).
  - split; trace_solve; [done|by rewrite Hc2].
  - intros v3 tr3 [Hs3 Hc3] _.
    unfold SPH.hydro_iteration, SPH.hydro_plot, SPH.hydro_evolve.
    wp_run_with ltac:(split; trace_solve; done). split; trace_solve; done.
  - intros v3 tr3 [Hs3 Hc3] _. unfold SPH.finish. wp_run.
    split; trace_solve; [by rewrite Hs3|done].
Qed.
